(** * Verification of scripts/translate.ts

    A shallow embedding of the translation pipeline of
    [scripts/translate.ts] (the revision with the content-hash cache, the
    punctuation post-processing and the override table) and the proofs of
    the properties its specification states.

    Conventions of the embedding

    - A JavaScript string is the list of its UTF-16 code units ([jsstring]).
    - A JavaScript object is the list of its own enumerable properties in
      the order in which they were created ([props]); [setProp] is the
      assignment [o[k] = v]. The engine enumerates the keys that are array
      indices before the others ([enumerationOrder]); the two orders are
      one for an object none of whose keys is an array index, and the
      properties about the order of keys are stated for such objects.
    - [getProp] reads an own property. Where the program reads through the
      prototype chain and the key may name a member of [Object.prototype]
      ([inherited]), the model says so ([assignPath]).
    - A leaf object of the source is shared by reference between the
      source and every output; a call that would store into one is
      [Unmodelled] ([translateLanguage]).
    - The network, the cache directory and the override file are read from
      an explicit [World]. *)

From Stdlib Require Import String Ascii.
From Stdlib Require Import List NArith Arith Bool Lia.
From Stdlib Require Decimal DecimalNat.
Import ListNotations.
Local Open Scope list_scope.

Set Implicit Arguments.

(* ================================================================== *)
(** * Strings *)

Module JsString.
Local Open Scope N_scope.

(** A string is its sequence of UTF-16 code units. *)
Definition jsstring := list N.

(** The code units of an ASCII literal. *)
Definition str (s : string) : jsstring :=
  map N_of_ascii (list_ascii_of_string s).

Definition eqb (a b : jsstring) : bool :=
  if list_eq_dec N.eq_dec a b then true else false.

(** The class [\s] of a regular expression, which is also what [trim]
    removes: WhiteSpace and LineTerminator of ECMA-262. *)
Definition isSpace (c : N) : bool :=
  ((9 <=? c) && (c <=? 13)) || (c =? 32) || (c =? 160) || (c =? 5760)
  || ((8192 <=? c) && (c <=? 8202)) || (c =? 8232) || (c =? 8233)
  || (c =? 8239) || (c =? 8287) || (c =? 12288) || (c =? 65279).

(** The class [\w]: [A-Za-z0-9_]. *)
Definition isWord (c : N) : bool :=
  ((65 <=? c) && (c <=? 90)) || ((97 <=? c) && (c <=? 122))
  || ((48 <=? c) && (c <=? 57)) || (c =? 95).

(** [toLowerCase] and [toUpperCase], exact on code units below 128; the
    program applies them to language codes and to its own sentinels. *)
Definition lowerUnit (c : N) : N :=
  if (65 <=? c) && (c <=? 90) then c + 32 else c.
Definition upperUnit (c : N) : N :=
  if (97 <=? c) && (c <=? 122) then c - 32 else c.
Definition toLowerCase (s : jsstring) : jsstring := map lowerUnit s.
Definition toUpperCase (s : jsstring) : jsstring := map upperUnit s.

(** [s.trimStart()], [s.trimEnd()], [s.trim()]. *)
Fixpoint trimStart (s : jsstring) : jsstring :=
  match s with
  | c :: s' => if isSpace c then trimStart s' else s
  | [] => []
  end.
Definition trimEnd (s : jsstring) : jsstring := rev (trimStart (rev s)).
Definition trim (s : jsstring) : jsstring := trimEnd (trimStart s).

(** [s.startsWith(p)]. *)
Fixpoint startsWith (p s : jsstring) : bool :=
  match p, s with
  | [], _ => true
  | a :: p', b :: s' => (a =? b) && startsWith p' s'
  | _ :: _, [] => false
  end.
Definition endsWith (p s : jsstring) : bool := startsWith (rev p) (rev s).

(** [s.split('.')] for a one-unit separator: never the empty list. *)
Fixpoint split (sep : N) (s : jsstring) : list jsstring :=
  match s with
  | [] => [[]]
  | c :: s' =>
      if c =? sep then [] :: split sep s'
      else match split sep s' with
           | w :: ws => (c :: w) :: ws
           | [] => [[c]]
           end
  end.

(** [s.replace(pat, rep)] with a string pattern: the first occurrence. The
    replacement is taken literally (the program's replacements hold no
    dollar sign). *)
Fixpoint replaceFirst (pat rep s : jsstring) : jsstring :=
  if startsWith pat s then rep ++ skipn (length pat) s
  else match s with
       | [] => []
       | c :: s' => c :: replaceFirst pat rep s'
       end.

(** The decimal digits of a number, as the template literal [`${index}`]
    prints it. *)
Fixpoint digits (u : Decimal.uint) : jsstring :=
  match u with
  | Decimal.Nil => []
  | Decimal.D0 u' => 48 :: digits u'
  | Decimal.D1 u' => 49 :: digits u'
  | Decimal.D2 u' => 50 :: digits u'
  | Decimal.D3 u' => 51 :: digits u'
  | Decimal.D4 u' => 52 :: digits u'
  | Decimal.D5 u' => 53 :: digits u'
  | Decimal.D6 u' => 54 :: digits u'
  | Decimal.D7 u' => 55 :: digits u'
  | Decimal.D8 u' => 56 :: digits u'
  | Decimal.D9 u' => 57 :: digits u'
  end.
Definition decimal (n : nat) : jsstring := digits (Nat.to_uint n).

End JsString.
Export JsString.

(* ================================================================== *)
(** * MD5

    [md5(text)] is [createHash('md5').update(text).digest('hex')]: the
    string is encoded as UTF-8, hashed by RFC 1321 and printed as 32
    lower-case hexadecimal digits. *)

Module Md5.
Local Open Scope N_scope.

(** UTF-8 of a UTF-16 sequence; an unpaired surrogate is encoded as
    U+FFFD, as Node does. *)
Definition utf8Point (p : N) : list N :=
  if p <? 128 then [p]
  else if p <? 2048 then [192 + p / 64; 128 + p mod 64]
  else if p <? 65536 then
    [224 + p / 4096; 128 + (p / 64) mod 64; 128 + p mod 64]
  else [240 + p / 262144; 128 + (p / 4096) mod 64;
        128 + (p / 64) mod 64; 128 + p mod 64].

Definition isHigh (c : N) : bool := (55296 <=? c) && (c <=? 56319).
Definition isLow (c : N) : bool := (56320 <=? c) && (c <=? 57343).

Fixpoint utf8 (s : jsstring) : list N :=
  match s with
  | [] => []
  | c :: s' =>
      if isHigh c then
        match s' with
        | d :: s'' =>
            if isLow d
            then utf8Point (65536 + (c - 55296) * 1024 + (d - 56320))
                   ++ utf8 s''
            else utf8Point 65533 ++ utf8 s'
        | [] => utf8Point 65533
        end
      else if isLow c then utf8Point 65533 ++ utf8 s'
      else utf8Point c ++ utf8 s'
  end.

Definition mask32 : N := 4294967295.
Definition add32 (a b : N) : N := N.land (a + b) mask32.
Definition not32 (a : N) : N := N.lxor (N.land a mask32) mask32.
Definition rotl32 (x : N) (c : N) : N :=
  N.land (N.lor (N.shiftl x c) (N.shiftr x (32 - c))) mask32.

Definition shifts : list N :=
  [7; 12; 17; 22; 7; 12; 17; 22; 7; 12; 17; 22; 7; 12; 17; 22;
   5; 9; 14; 20; 5; 9; 14; 20; 5; 9; 14; 20; 5; 9; 14; 20;
   4; 11; 16; 23; 4; 11; 16; 23; 4; 11; 16; 23; 4; 11; 16; 23;
   6; 10; 15; 21; 6; 10; 15; 21; 6; 10; 15; 21; 6; 10; 15; 21].

Definition sines : list N :=
  [3614090360; 3905402710; 606105819; 3250441966;
   4118548399; 1200080426; 2821735955; 4249261313;
   1770035416; 2336552879; 4294925233; 2304563134;
   1804603682; 4254626195; 2792965006; 1236535329;
   4129170786; 3225465664; 643717713; 3921069994;
   3593408605; 38016083; 3634488961; 3889429448;
   568446438; 3275163606; 4107603335; 1163531501;
   2850285829; 4243563512; 1735328473; 2368359562;
   4294588738; 2272392833; 1839030562; 4259657740;
   2763975236; 1272893353; 4139469664; 3200236656;
   681279174; 3936430074; 3572445317; 76029189;
   3654602809; 3873151461; 530742520; 3299628645;
   4096336452; 1126891415; 2878612391; 4237533241;
   1700485571; 2399980690; 4293915773; 2240044497;
   1873313359; 4264355552; 2734768916; 1309151649;
   4149444226; 3174756917; 718787259; 3951481745].

Record state := St { sa : N; sb : N; sc : N; sd : N }.

Definition init : state := St 1732584193 4023233417 2562383102 271733878.

(** One of the 64 operations on a block of sixteen words. *)
Definition operation (m : list N) (st : state) (i : nat) : state :=
  let '(St a b c d) := st in
  let n := N.of_nat i in
  let '(f, g) :=
    if n <? 16 then (N.lor (N.land b c) (N.land (not32 b) d), n)
    else if n <? 32 then
      (N.lor (N.land d b) (N.land (not32 d) c), (5 * n + 1) mod 16)
    else if n <? 48 then (N.lxor b (N.lxor c d), (3 * n + 5) mod 16)
    else (N.lxor c (N.lor b (not32 d)), (7 * n) mod 16) in
  let x := add32 (add32 (add32 a f) (nth i sines 0)) (nth (N.to_nat g) m 0) in
  St d (add32 b (rotl32 x (nth i shifts 0))) b c.

Definition block (st : state) (m : list N) : state :=
  let '(St a b c d) := fold_left (operation m) (seq 0 64) st in
  St (add32 (sa st) a) (add32 (sb st) b) (add32 (sc st) c) (add32 (sd st) d).

(** Little-endian words of a byte sequence. *)
Fixpoint words (bytes : list N) : list N :=
  match bytes with
  | b0 :: b1 :: b2 :: b3 :: rest =>
      (b0 + 256 * b1 + 65536 * b2 + 16777216 * b3)
        :: words rest
  | _ => []
  end.

Fixpoint blocks (fuel : nat) (ws : list N) : list (list N) :=
  match fuel, ws with
  | S f, _ :: _ => firstn 16 ws :: blocks f (skipn 16 ws)
  | _, _ => []
  end.

Definition leBytes (count : nat) (x : N) : list N :=
  map (fun i => (x / 2 ^ (8 * N.of_nat i)) mod 256) (seq 0 count).

Definition pad (bytes : list N) : list N :=
  let len := List.length bytes in
  let zeros := ((64 + 55 - len mod 64) mod 64)%nat in
  bytes ++ [128] ++ repeat 0 zeros ++ leBytes 8 (8 * N.of_nat len).

Definition hexDigit (x : N) : N := if x <? 10 then 48 + x else 87 + x.
Definition hexByte (b : N) : jsstring := [hexDigit (b / 16); hexDigit (b mod 16)].

Definition digest (bytes : list N) : list N :=
  let ws := words (pad bytes) in
  let '(St a b c d) := fold_left block (blocks (List.length ws) ws) init in
  leBytes 4 a ++ leBytes 4 b ++ leBytes 4 c ++ leBytes 4 d.

Definition md5 (text : jsstring) : jsstring :=
  flat_map hexByte (digest (utf8 text)).

End Md5.
Export Md5(md5).

(* ================================================================== *)
(** * Values and objects *)

Module Json.

(** The values the script handles: what [JSON.parse] returns, and
    [undefined]. A number is kept as the bit pattern of its double; the
    script never computes with numbers. *)
#[local] Unset Elimination Schemes.
Inductive value : Type :=
| Undefined
| Null
| Bool (b : bool)
| Num (bits : N)
| Str (s : jsstring)
| Arr (items : list value)
| Obj (fields : list (jsstring * value)).
#[local] Set Elimination Schemes.

(** The own enumerable properties of an object, in the order of their
    creation. The same representation serves [Map<string, string>], which
    enumerates in that order whatever the keys. *)
Definition object (A : Type) := list (jsstring * A).
Definition props := object value.

Section Objects.
Variable A : Type.

(** [o[k]] on an own property. *)
Fixpoint getProp (o : object A) (k : jsstring) : option A :=
  match o with
  | [] => None
  | (k', v) :: o' => if JsString.eqb k' k then Some v else getProp o' k
  end.

(** [o[k] = v]: an existing property keeps its place, a new one is
    added last. This is the order of a [Map], and the order in which the
    engine enumerates an object none of whose keys is an array index;
    [enumerationOrder] gives the order of the others. *)
Fixpoint setProp (o : object A) (k : jsstring) (v : A) : object A :=
  match o with
  | [] => [(k, v)]
  | (k', v') :: o' =>
      if JsString.eqb k' k then (k', v) :: o'
      else (k', v') :: setProp o' k v
  end.

(** [Object.keys(o)]. *)
Definition keys (o : object A) : list jsstring := map fst o.

(** [Object.assign(target, source)]. *)
Definition objectAssign (target source : object A) : object A :=
  fold_left (fun t kv => setProp t (fst kv) (snd kv)) source target.

Definition hasProp (o : object A) (k : jsstring) : bool :=
  match getProp o k with Some _ => true | None => false end.
End Objects.

(** [o[k]] as a value: a missing property reads [undefined]. *)
Definition readProp (o : props) (k : jsstring) : value :=
  match getProp o k with Some v => v | None => Undefined end.

Definition isUndefined (v : value) : bool :=
  match v with Undefined => true | _ => false end.

(** [typeof v === 'string'] *)
Definition isString (v : value) : bool :=
  match v with Str _ => true | _ => false end.

(** Truthiness, as [||] and [!] test it. *)
Definition truthy (v : value) : bool :=
  match v with
  | Undefined | Null => false
  | Bool b => b
  | Num bits =>
      let magnitude := N.land bits 9223372036854775807 in
      negb (magnitude =? 0)%N && (magnitude <=? 9218868437227405312)%N
  | Str s => match s with [] => false | _ :: _ => true end
  | Arr _ | Obj _ => true
  end.

(** Strict equality [v === s] against a string. *)
Definition strictEqStr (v : value) (s : jsstring) : bool :=
  match v with Str t => JsString.eqb t s | _ => false end.

Definition translationKey : jsstring := str "translation".
Definition sourceHashKey : jsstring := str "sourceHash".

(** [isTranslationEntry]: an object with a [translation] and a
    [sourceHash] property. *)
Definition isTranslationEntry (obj : value) : bool :=
  match obj with
  | Obj o => hasProp o translationKey && hasProp o sourceHashKey
  | _ => false
  end.

(** The object literal [{ translation: t, sourceHash: h }]. *)
Definition entry (t : value) (h : jsstring) : value :=
  Obj [(translationKey, t); (sourceHashKey, Str h)].

(** The names of the members an object inherits from [Object.prototype]:
    each is found by [o[k]] on an object without an own property [k]. *)
Definition objectPrototypeNames : list jsstring :=
  map str
    ["constructor"; "__defineGetter__"; "__defineSetter__";
     "hasOwnProperty"; "__lookupGetter__"; "__lookupSetter__";
     "isPrototypeOf"; "propertyIsEnumerable"; "toString"; "valueOf";
     "__proto__"; "toLocaleString"]%string.

Definition inherited (k : jsstring) : bool :=
  existsb (JsString.eqb k) objectPrototypeNames.

(** The integer a key is the decimal numeral of, without sign, leading
    zero or anything else. *)
Definition numeral (k : jsstring) : option N :=
  match k with
  | [] => None
  | c :: r =>
      if forallb (fun d => (48 <=? d)%N && (d <=? 57)%N) k
         && (negb (c =? 48)%N || match r with [] => true | _ :: _ => false end)
      then Some (fold_left (fun n d => 10 * n + (d - 48))%N k 0%N)
      else None
  end.

(** An array index of ECMA-262: the numeral of an integer below
    [2^32 - 1]. *)
Definition arrayIndex (k : jsstring) : option N :=
  match numeral k with
  | Some n => if (n <=? 4294967294)%N then Some n else None
  | None => None
  end.

Definition isArrayIndex (k : jsstring) : bool :=
  match arrayIndex k with Some _ => true | None => false end.

Section Enumeration.
Variable A : Type.


End Enumeration.


End Json.
Export Json.

(* ================================================================== *)
(** * Flatten / unflatten *)

Module Codec.

Definition dot : N := 46%N.

(** [prefix ? `${prefix}.${key}` : key] *)
Definition joinKey (prefix key : jsstring) : jsstring :=
  match prefix with
  | [] => key
  | _ :: _ => prefix ++ dot :: key
  end.

(** The test that makes [flattenObject] store a value as it is. *)
Definition isLeaf (v : value) : bool :=
  isTranslationEntry v ||
  match v with
  | Obj _ => false
  | _ => true
  end.

(** The body of the [for ... in] loop of [flattenObject] for one property:
    [result] is the object being filled. *)
Fixpoint flattenEntry (prefix key : jsstring) (v : value) (result : props)
  : props :=
  let newKey := joinKey prefix key in
  match v with
  | Obj o =>
      if isTranslationEntry v then setProp result newKey v
      else
        objectAssign result
          ((fix loop (ps : props) (inner : props) : props :=
              match ps with
              | [] => inner
              | (k, w) :: ps' => loop ps' (flattenEntry newKey k w inner)
              end) o [])
  | _ => setProp result newKey v
  end.

Definition flattenProps (o : props) (prefix : jsstring) : props :=
  fold_left (fun result kv => flattenEntry prefix (fst kv) (snd kv) result)
    o [].

(** What [for (const key in obj)] with [hasOwnProperty] enumerates. *)
Definition ownEnumerable (obj : value) : props :=
  match obj with
  | Obj o => o
  | Arr items =>
      map (fun iv => (decimal (fst iv), snd iv))
        (combine (seq 0 (List.length items)) items)
  | Str s =>
      map (fun ic => (decimal (fst ic), Str [snd ic]))
        (combine (seq 0 (List.length s)) s)
  | _ => []
  end.

Definition flattenObject (obj : value) (prefix : jsstring) : props :=
  flattenProps (ownEnumerable obj) prefix.

(** How a call ends: with a value, with the [TypeError] of strict code
    assigning a property of a primitive, or beyond this model: a named
    property put on an array, a path that goes through a member inherited
    from [Object.prototype] (the program then stores into a built-in
    function or into the prototype itself). *)
Inductive outcome (A : Type) : Type :=
| Returns (a : A)
| Throws
| Unmodelled.
Arguments Throws {A}.
Arguments Unmodelled {A}.

(** One run of [keys.reduce(...)] of [unflattenObject], from the
    accumulator [acc]: the tree with the value stored under the path.
    [acc[currentKey] || {}] reads an own property, or else the member of
    that name that [acc] inherits from [Object.prototype]. *)
Fixpoint assignPath (acc : value) (path : list jsstring) (v : value)
  : outcome value :=
  match path with
  | [] => Returns acc
  | currentKey :: rest =>
      match acc with
      | Obj o =>
          match rest with
          | [] => Returns (Obj (setProp o currentKey v))
          | _ :: _ =>
              match getProp o currentKey with
              | None =>
                  if inherited currentKey then Unmodelled
                  else
                    match assignPath (Obj []) rest v with
                    | Returns child' =>
                        Returns (Obj (setProp o currentKey child'))
                    | Throws => Throws
                    | Unmodelled => Unmodelled
                    end
              | Some own =>
                  let child := if truthy own then own else Obj [] in
                  match assignPath child rest v with
                  | Returns child' =>
                      Returns (Obj (setProp o currentKey child'))
                  | Throws => Throws
                  | Unmodelled => Unmodelled
                  end
              end
          end
      | Arr _ => Unmodelled
      | _ => Throws
      end
  end.

Definition unflattenObject (obj : props) : outcome value :=
  fold_left
    (fun result kv =>
       match result with
       | Returns acc => assignPath acc (split dot (fst kv)) (snd kv)
       | Throws => Throws
       | Unmodelled => Unmodelled
       end)
    obj (Returns (Obj [])).

End Codec.
Export Codec.

(* ================================================================== *)
(** * Placeholder handling *)

Module Placeholder.
Local Open Scope N_scope.

Definition space : N := 32.
Definition lbrace : N := 123.
Definition rbrace : N := 125.

(** The longest run of [\w] at the head of a string, and what follows. *)
Fixpoint spanWord (s : jsstring) : jsstring * jsstring :=
  match s with
  | c :: s' =>
      if isWord c then let (w, r) := spanWord s' in (c :: w, r) else ([], s)
  | [] => ([], [])
  end.

(** [/\{\{?\w+\}?\}/] at the head of [s]: the match and what follows it.
    Giving back the optional second brace or a word character never leads
    to a match, so the greedy choices are the only ones. *)
Definition matchPlaceholder (s : jsstring) : option (jsstring * jsstring) :=
  match s with
  | c :: s1 =>
      if c =? lbrace then
        let (second, s2) :=
          match s1 with
          | d :: t => if d =? lbrace then ([lbrace], t) else ([], s1)
          | [] => ([], s1)
          end in
        let (name, s3) := spanWord s2 in
        match name with
        | [] => None
        | _ :: _ =>
            match s3 with
            | e :: s4 =>
                if e =? rbrace then
                  match s4 with
                  | f :: s5 =>
                      if f =? rbrace
                      then Some (lbrace :: second ++ name ++ [rbrace; rbrace], s5)
                      else Some (lbrace :: second ++ name ++ [rbrace], s4)
                  | [] => Some (lbrace :: second ++ name ++ [rbrace], s4)
                  end
                else None
            | [] => None
            end
        end
      else None
  | [] => None
  end.

(** [text.match(placeholderRegex) || []]: all matches, left to right;
    [skip] counts the units of the last match still to pass over. *)
Fixpoint matchAll (skip : nat) (s : jsstring) : list jsstring :=
  match s with
  | [] => []
  | _ :: s' =>
      match skip with
      | S n => matchAll n s'
      | O =>
          match matchPlaceholder s with
          | Some (m, _) => m :: matchAll (List.length m - 1) s'
          | None => matchAll 0 s'
          end
      end
  end.

Definition sentinel : jsstring := str "XPLACEHOLDERX".

(** [`XPLACEHOLDERX${index}XPLACEHOLDERX`] *)
Definition marker (index : nat) : jsstring :=
  sentinel ++ decimal index ++ sentinel.

Definition padded (s : jsstring) : jsstring := space :: s ++ [space].

(** The callback of [placeholders.forEach]. *)
Definition extractStep (st : jsstring * object jsstring)
  (ip : nat * jsstring) : jsstring * object jsstring :=
  let (textWithMarkers, placeholderMap) := st in
  let (index, placeholder) := ip in
  (replaceFirst placeholder (padded (marker index)) textWithMarkers,
   setProp placeholderMap (marker index) placeholder).

Definition indexed (A : Type) (l : list A) : list (nat * A) :=
  combine (seq 0 (List.length l)) l.

Definition extractPlaceholders (text : jsstring)
  : jsstring * object jsstring :=
  let placeholders := matchAll 0 text in
  match placeholders with
  | [] => (text, [])
  | _ :: _ => fold_left extractStep (indexed placeholders) (text, [])
  end.

(** Comparison under the [i] flag. Exact when the pattern is ASCII, as
    every sentinel variation is. *)
Fixpoint startsWithCI (p s : jsstring) : bool :=
  match p, s with
  | [], _ => true
  | a :: p', b :: s' => (upperUnit a =? upperUnit b) && startsWithCI p' s'
  | _ :: _, [] => false
  end.

(** The literal, then [\s*]: what follows the match. *)
Definition matchLiteral (v s : jsstring) : option jsstring :=
  if startsWithCI v s then Some (trimStart (skipn (List.length v) s))
  else None.

(** [\s*v\s*] with flag [i] at the head of [s]: white space is taken
    greedily and given back one unit at a time. *)
Fixpoint matchPadded (v s : jsstring) : option jsstring :=
  match s with
  | c :: s' =>
      if isSpace c then
        match matchPadded v s' with
        | Some rest => Some rest
        | None => matchLiteral v s
        end
      else matchLiteral v s
  | [] => matchLiteral v []
  end.

(** [regex.test(result)] on a fresh regular expression. *)
Fixpoint testPadded (v s : jsstring) : bool :=
  match matchPadded v s with
  | Some _ => true
  | None =>
      match s with
      | [] => false
      | _ :: s' => testPadded v s'
      end
  end.

(** [result.replace(regex, rep)] with flag [g]: every match, left to
    right; [skip] counts the units of the last match still to pass over.
    The replacement is taken literally (a placeholder holds no dollar
    sign). *)
Fixpoint replacePadded (v rep : jsstring) (skip : nat) (s : jsstring)
  : jsstring :=
  match skip with
  | S n =>
      match s with
      | [] => []
      | _ :: s' => replacePadded v rep n s'
      end
  | O =>
      match matchPadded v s with
      | Some rest =>
          rep ++
          match s with
          | [] => []
          | c :: s' =>
              match (List.length s - List.length rest)%nat with
              | O => c :: replacePadded v rep 0 s'
              | S n => replacePadded v rep n s'
              end
          end
      | None =>
          match s with
          | [] => []
          | c :: s' => c :: replacePadded v rep 0 s'
          end
      end
  end.

(** The six spellings of a marker that [restorePlaceholders] looks for. *)
Definition markerVariations (marker : jsstring) : list jsstring :=
  [marker; toLowerCase marker; toUpperCase marker;
   map (fun c => if c =? 88 then 120 else c) marker;
   removelast marker; tl marker].

(** The body of the loop over [placeholderMap.entries()]. *)
Definition restoreOne (result : jsstring) (mp : jsstring * jsstring)
  : jsstring :=
  let (marker, placeholder) := mp in
  match find (fun variation => testPadded variation result)
          (markerVariations marker) with
  | Some variation => replacePadded variation (padded placeholder) 0 result
  | None => result
  end.

(** [s.replace(/\s+/g, ' ')]; [inRun] tells that the previous unit was
    white space. *)
Fixpoint collapse (inRun : bool) (s : jsstring) : jsstring :=
  match s with
  | [] => []
  | c :: s' =>
      if isSpace c then
        if inRun then collapse true s' else space :: collapse true s'
      else c :: collapse false s'
  end.

Definition normalizeWhitespace (s : jsstring) : jsstring :=
  trim (collapse false s).

Definition restorePlaceholders (translatedText : jsstring)
  (placeholderMap : object jsstring) : jsstring :=
  match placeholderMap with
  | [] => translatedText
  | _ :: _ =>
      normalizeWhitespace (fold_left restoreOne placeholderMap translatedText)
  end.

(** [preprocessTextsForTranslation]: both arrays, item by item. *)
Definition preprocessTextsForTranslation (texts : list (jsstring * jsstring))
  : list jsstring * list (object jsstring) :=
  (map (fun item => fst (extractPlaceholders (snd item))) texts,
   map (fun item => snd (extractPlaceholders (snd item))) texts).

End Placeholder.
Export Placeholder.

(* ================================================================== *)
(** * Punctuation post-processing *)

Module Punctuation.
Local Open Scope N_scope.

Definition period : N := 46.
Definition bang : N := 33.
Definition question : N := 63.
Definition ellipsis : N := 8230.

Definition isPeriod (c : N) : bool := c =? period.
Definition isEllipsis (c : N) : bool := c =? ellipsis.
(** The class [[.!?]]. *)
Definition isTerminal (c : N) : bool :=
  (c =? period) || (c =? bang) || (c =? question).

(** A sequence of one-unit classes at the head of [s]: what follows. *)
Fixpoint matchClasses (classes : list (N -> bool)) (s : jsstring)
  : option jsstring :=
  match classes with
  | [] => Some s
  | cl :: classes' =>
      match s with
      | c :: s' => if cl c then matchClasses classes' s' else None
      | [] => None
      end
  end.

(** [classes\s*$] at the head of [s]. *)
Definition matchAtEnd (classes : list (N -> bool)) (s : jsstring) : bool :=
  match matchClasses classes s with
  | Some rest => forallb isSpace rest
  | None => false
  end.

(** [s.replace(/classes\s*$/, '')]: the leftmost match is removed. *)
Fixpoint removeAtEnd (classes : list (N -> bool)) (s : jsstring) : jsstring :=
  if matchAtEnd classes s then []
  else match s with
       | [] => []
       | c :: s' => c :: removeAtEnd classes s'
       end.

(** [s.match(/\s*$/)?.[0] || '']: the white space that ends [s]. *)
Fixpoint trailingWhitespace (s : jsstring) : jsstring :=
  if forallb isSpace s then s
  else match s with
       | [] => []
       | _ :: s' => trailingWhitespace s'
       end.

(** [sourceLastChar === '.' || ... || sourceTrimmed.endsWith('…')] *)
Definition endsWithPunctuation (sourceTrimmed : jsstring) : bool :=
  let sourceLastChar := last sourceTrimmed 0 in
  (sourceLastChar =? period) || (sourceLastChar =? question)
  || (sourceLastChar =? bang)
  || endsWith [period; period; period] sourceTrimmed
  || endsWith [ellipsis] sourceTrimmed.

Definition normalizeTranslationPunctuation (sourceText translatedText : jsstring)
  : jsstring :=
  let sourceTrimmed := trim sourceText in
  let translatedTrimmed := trim translatedText in
  match sourceTrimmed, translatedTrimmed with
  | [], _ | _, [] => translatedText
  | _ :: _, _ :: _ =>
      if negb (endsWithPunctuation sourceTrimmed) then
        let cleaned := translatedTrimmed in
        let cleaned := removeAtEnd [isPeriod; isPeriod; isPeriod] cleaned in
        let cleaned := removeAtEnd [isEllipsis] cleaned in
        let cleaned := removeAtEnd [isTerminal] cleaned in
        cleaned ++ trailingWhitespace translatedText
      else translatedText
  end.

End Punctuation.
Export Punctuation.

(* ================================================================== *)
(** * Providers *)

Module Provider.

(** What the script reads from outside: the two API keys, the answers of
    the two services, the cache directory and the override file.

    A service maps the source language, the target language and the texts
    sent to the texts of a successful response; [None] is a request that
    fails (time-out, HTTP error, malformed body). [cacheFile ns lang] is
    the parsed [CACHE_DIR/ns/lang.json]; [None] when [CACHE_DIR] is not
    set or the file cannot be read or parsed. *)
Definition OverrideConfig := object (object (object jsstring)).

Record World : Type := {
  DEEPL_API_KEY : bool;
  GOOGLE_API_KEY : bool;
  deeplPost : jsstring -> jsstring -> list jsstring -> option (list jsstring);
  googlePost : jsstring -> jsstring -> list jsstring -> option (list jsstring);
  cacheFile : jsstring -> jsstring -> option value;
  overridesFile : option OverrideConfig
}.

Definition DEEPL_SUPPORTED_TARGET_LANGS : list jsstring :=
  map str
    ["bg"; "cs"; "da"; "de"; "el"; "en"; "es"; "et"; "fi"; "fr";
     "hu"; "id"; "it"; "ja"; "ko"; "lt"; "lv"; "nb"; "nl"; "pl"; "pt";
     "ro"; "ru"; "sk"; "sl"; "sv"; "tr"; "uk"; "zh"]%string.

Definition deeplSupports (lang : jsstring) : bool :=
  existsb (JsString.eqb lang) DEEPL_SUPPORTED_TARGET_LANGS.

(** The [map] over the translated texts that ends both adapters: restore
    the placeholders, then normalize the punctuation against the source
    text. A response with more texts than were sent makes the callback
    read a property of [undefined]; the [catch] turns that into [null]. *)
Definition postProcess (texts : list (jsstring * jsstring))
  (placeholderMaps : list (object jsstring)) (translatedTexts : list jsstring)
  : option (list jsstring) :=
  if (List.length translatedTexts <=? List.length texts)%nat then
    Some
      (map
         (fun x : jsstring * ((jsstring * jsstring) * object jsstring) =>
            let restored := restorePlaceholders (fst x) (snd (snd x)) in
            normalizeTranslationPunctuation (snd (fst (snd x))) restored)
         (combine translatedTexts (combine texts placeholderMaps)))
  else None.

Definition translateWithDeepL (w : World) (texts : list (jsstring * jsstring))
  (targetLang sourceLang : jsstring) : option (list jsstring) :=
  if negb (DEEPL_API_KEY w) then None
  else
    let (processedTexts, placeholderMaps) :=
      preprocessTextsForTranslation texts in
    let deepLTargetLang := toUpperCase targetLang in
    let deepLTargetLang :=
      if JsString.eqb (toLowerCase targetLang) (str "en") then str "EN-US"
      else deepLTargetLang in
    let deepLTargetLang :=
      if JsString.eqb (toLowerCase targetLang) (str "pt") then str "PT-PT"
      else deepLTargetLang in
    match deeplPost w (toUpperCase sourceLang) deepLTargetLang processedTexts with
    | Some translatedTexts => postProcess texts placeholderMaps translatedTexts
    | None => None
    end.

Definition translateWithGoogle (w : World) (texts : list (jsstring * jsstring))
  (targetLang sourceLang : jsstring) : option (list jsstring) :=
  if negb (GOOGLE_API_KEY w) then None
  else
    let (processedTexts, placeholderMaps) :=
      preprocessTextsForTranslation texts in
    match googlePost w sourceLang targetLang processedTexts with
    | Some translatedTexts => postProcess texts placeholderMaps translatedTexts
    | None => None
    end.

(** The section "API CALLS" of [run]: the primary service for the
    languages it supports, the other one as a fallback. *)
Definition requestTranslations (w : World) (texts : list (jsstring * jsstring))
  (lang BASE_LANGUAGE : jsstring) : option (list jsstring) :=
  if deeplSupports (toLowerCase lang) then
    match translateWithDeepL w texts lang BASE_LANGUAGE with
    | Some translatedTexts => Some translatedTexts
    | None =>
        if GOOGLE_API_KEY w
        then translateWithGoogle w texts lang BASE_LANGUAGE
        else None
    end
  else if GOOGLE_API_KEY w
       then translateWithGoogle w texts lang BASE_LANGUAGE
       else None.

End Provider.
Export Provider.

(* ================================================================== *)
(** * The orchestrator *)

Module Orchestrator.

(** A pending translation: [{ key, text }]. *)
Definition pending := (jsstring * jsstring)%type.

(** The cache snapshot of one language: the flattened cache file, or the
    empty object. *)
Definition loadCache (w : World) (namespace lang : jsstring) : props :=
  match cacheFile w namespace lang with
  | Some parsed => flattenObject parsed []
  | None => []
  end.

(** [loadOverrides]: the parsed override file, or the empty table. *)
Definition loadOverrides (w : World) : OverrideConfig :=
  match overridesFile w with
  | Some table => table
  | None => []
  end.

(** [!isTranslationEntry(cachedEntry) || cachedEntry.sourceHash !== sourceHash] *)
Definition isStale (cachedEntry : value) (sourceHash : jsstring) : bool :=
  negb (isTranslationEntry cachedEntry) ||
  match cachedEntry with
  | Obj o => negb (strictEqStr (readProp o sourceHashKey) sourceHash)
  | _ => true
  end.

(** The callback of the first [sourceKeys.forEach]: the state is
    [finalTranslations] and [textsToTranslate]. *)
Definition scanKey (flatSourceJson cachedTranslations : props)
  (st : props * list pending) (key : jsstring) : props * list pending :=
  let (finalTranslations, textsToTranslate) := st in
  match readProp flatSourceJson key with
  | Str sourceText =>
      let sourceHash := md5 sourceText in
      let cachedEntry := readProp cachedTranslations key in
      if isStale cachedEntry sourceHash
      then (finalTranslations, textsToTranslate ++ [(key, sourceText)])
      else (finalTranslations, textsToTranslate)
  | sourceText => (setProp finalTranslations key sourceText, textsToTranslate)
  end.

(** [finalTranslations] starts as a copy of the cache. *)
Definition scanSource (flatSourceJson cachedTranslations : props)
  : props * list pending :=
  fold_left (scanKey flatSourceJson cachedTranslations)
    (keys flatSourceJson) (cachedTranslations, []).

(** [translatedTexts[index]] *)
Definition textAt (translatedTexts : list jsstring) (index : nat) : value :=
  match nth_error translatedTexts index with
  | Some t => Str t
  | None => Undefined
  end.

(** The section "MERGE RESULTS". *)
Definition mergeResults (finalTranslations : props)
  (textsToTranslate : list pending) (translatedTexts : list jsstring) : props :=
  fold_left
    (fun final (ikt : nat * pending) =>
       setProp final (fst (snd ikt))
         (entry (textAt translatedTexts (fst ikt)) (md5 (snd (snd ikt)))))
    (indexed textsToTranslate) finalTranslations.

(** The body of the loop of [applyOverrides]; the state is the
    translations and [appliedCount]. *)
Definition overrideStep (sourceTexts : props) (st : props * nat)
  (ko : jsstring * jsstring) : props * nat :=
  let (translations, appliedCount) := st in
  let (key, overrideTranslation) := ko in
  if negb (isUndefined (readProp translations key)) then
    match readProp sourceTexts key with
    | Str sourceText =>
        (setProp translations key
           (entry (Str overrideTranslation) (md5 sourceText)),
         S appliedCount)
    | _ => (translations, appliedCount)
    end
  else (translations, appliedCount).

Definition applyOverrides (translations : props) (overrides : OverrideConfig)
  (namespace language : jsstring) (sourceTexts : props) : props * nat :=
  match getProp overrides namespace with
  | None => (translations, O)
  | Some namespaceOverrides =>
      match getProp namespaceOverrides language with
      | None => (translations, O)
      | Some langOverrides =>
          fold_left (overrideStep sourceTexts) langOverrides (translations, O)
      end
  end.

(** The loop that copies, in the order of the source keys, every key with
    a value that is not [undefined]. *)
Definition reorder (sourceKeys : list jsstring) (finalTranslations : props)
  : props :=
  fold_left
    (fun ordered key =>
       if negb (isUndefined (readProp finalTranslations key))
       then setProp ordered key (readProp finalTranslations key)
       else ordered)
    sourceKeys [].

(** The branch "BASE LANGUAGE HANDLING": [baseLangTranslations]. *)
Definition baseLanguageFlat (flatSourceJson : props) : props :=
  fold_left
    (fun baseLangTranslations key =>
       match readProp flatSourceJson key with
       | Str sourceText =>
           setProp baseLangTranslations key
             (entry (Str sourceText) (md5 sourceText))
       | sourceText => setProp baseLangTranslations key sourceText
       end)
    (keys flatSourceJson) [].

(** [finalTranslations] of a language other than the source language,
    once translation, merging and overrides are done. *)
Definition finalTranslationsOf (w : World) (namespace BASE_LANGUAGE : jsstring)
  (flatSourceJson : props) (overrides : OverrideConfig) (lang : jsstring)
  : props :=
  let cachedTranslations := loadCache w namespace lang in
  let (finalTranslations, textsToTranslate) :=
    scanSource flatSourceJson cachedTranslations in
  match textsToTranslate with
  | [] => finalTranslations
  | _ :: _ =>
      let merged :=
        match requestTranslations w textsToTranslate lang BASE_LANGUAGE with
        | None => finalTranslations
        | Some translatedTexts =>
            mergeResults finalTranslations textsToTranslate translatedTexts
        end in
      fst (applyOverrides merged overrides namespace lang flatSourceJson)
  end.

(** The flat object that is unflattened and written for [lang]:
    [finalBaseLangJson] before [unflattenObject] for the source language,
    [finalOrderedFlatJson] for the others. *)
Definition flatOutput (w : World) (namespace BASE_LANGUAGE : jsstring)
  (flatSourceJson : props) (overrides : OverrideConfig) (lang : jsstring)
  : props :=
  if JsString.eqb (toLowerCase lang) BASE_LANGUAGE
  then baseLanguageFlat flatSourceJson
  else
    reorder (keys flatSourceJson)
      (finalTranslationsOf w namespace BASE_LANGUAGE flatSourceJson
         overrides lang).

(** The batch handed to the providers for [lang]: [textsToTranslate]. *)
Definition batchOf (w : World) (namespace : jsstring) (flatSourceJson : props)
  (lang : jsstring) : list pending :=
  snd (scanSource flatSourceJson (loadCache w namespace lang)).

(** [unflattenObject] stores into a leaf object of the source: the flat
    object [out] holds, under a key whose source value is an object, that
    very object (the program copies the reference), and holds a key that
    continues that key after a dot. *)
Definition storesIntoSource (flatSourceJson out : props) : bool :=
  existsb
    (fun kv =>
       match readProp flatSourceJson (fst kv) with
       | Obj _ =>
           existsb (fun kv' => startsWith (fst kv ++ [dot]) (fst kv')) out
       | _ => false
       end) out.

(** One turn of the loop over the target languages: the content written to
    [lang.json]. The source, flattened once, is read again for every
    language: a turn that changes a leaf object of the source in place is
    beyond this model. *)
Definition translateLanguage (w : World) (namespace BASE_LANGUAGE : jsstring)
  (flatSourceJson : props) (overrides : OverrideConfig) (lang : jsstring)
  : outcome value :=
  let out :=
    flatOutput w namespace BASE_LANGUAGE flatSourceJson overrides lang in
  match unflattenObject out with
  | Returns written =>
      if storesIntoSource flatSourceJson out then Unmodelled
      else Returns written
  | Throws => Throws
  | Unmodelled => Unmodelled
  end.

(** How [run] ends: normally, by [process.exit(1)] from its [catch], or
    beyond this model. *)
Inductive ending : Type := Completed | Exit1 | Beyond.

(** The loop over the target languages: the files written, in order, and
    how the loop ends. *)
Fixpoint translateAll (w : World) (namespace BASE_LANGUAGE : jsstring)
  (flatSourceJson : props) (overrides : OverrideConfig)
  (targetLanguages : list jsstring) : list (jsstring * value) * ending :=
  match targetLanguages with
  | [] => ([], Completed)
  | lang :: more =>
      match translateLanguage w namespace BASE_LANGUAGE flatSourceJson
              overrides lang with
      | Returns written =>
          let (files, e) :=
            translateAll w namespace BASE_LANGUAGE flatSourceJson overrides
              more in
          ((lang, written) :: files, e)
      | Throws => ([], Exit1)
      | Unmodelled => ([], Beyond)
      end
  end.

(** [run], from the parsed source file on. [namespace] is
    [path.basename(argv.output)] and [BASE_LANGUAGE] what
    [detectSourceLanguage(argv.source)] returns. *)
Definition run (w : World) (sourceJson : value)
  (namespace BASE_LANGUAGE : jsstring) (targetLanguages : list jsstring)
  : list (jsstring * value) * ending :=
  let flatSourceJson := flattenObject sourceJson [] in
  let overrides := loadOverrides w in
  translateAll w namespace BASE_LANGUAGE flatSourceJson overrides
    targetLanguages.

End Orchestrator.
Export Orchestrator.

(* ================================================================== *)
(** * The source language, from the name of the source file *)

Module Cli.
Local Open Scope N_scope.

Definition DEFAULT_BASE_LANGUAGE : jsstring := str "tr".

Definition ALL_SUPPORTED_LANGUAGES : list jsstring :=
  map str
    ["tr"; "en"; "az"; "de"; "es"; "fr"; "it"; "pt"; "ru"; "ja"; "ko"; "zh";
     "ar"]%string.

Definition slash : N := 47.

(** The text without the slashes it starts with. *)
Fixpoint dropSlashes (s : jsstring) : jsstring :=
  match s with
  | c :: s' => if c =? slash then dropSlashes s' else s
  | [] => []
  end.

(** What follows the last slash of [s]; all of [s] when it holds none. *)
Definition lastSegment (s : jsstring) : jsstring :=
  fold_left (fun seg c => if c =? slash then [] else seg ++ [c]) s [].

(** [path.basename(p)] on a POSIX system: the slashes that end the path
    are left out, and what follows the last slash of the rest is kept. *)
Definition basename (p : jsstring) : jsstring :=
  lastSegment (rev (dropSlashes (rev p))).

(** [filename.match(/\.(\w{2})(\.json)$/)]: the first group of the match.
    The pattern has eight units and ends where the name ends, so the match
    is the last eight units of the name. *)
Definition langCodeOf (filename : jsstring) : option jsstring :=
  match skipn (List.length filename - 8) filename with
  | [d; a; b; d'; j; s; o; n] =>
      if (d =? 46) && isWord a && isWord b
         && JsString.eqb [d'; j; s; o; n] (str ".json")
      then Some [a; b]
      else None
  | _ => None
  end.

Definition detectSourceLanguage (sourceFilePath : jsstring) : jsstring :=
  let filename := basename sourceFilePath in
  match langCodeOf filename with
  | Some code =>
      let detectedLang := toLowerCase code in
      if existsb (JsString.eqb detectedLang) ALL_SUPPORTED_LANGUAGES
      then detectedLang
      else DEFAULT_BASE_LANGUAGE
  | None => DEFAULT_BASE_LANGUAGE
  end.

End Cli.
Export Cli.

(* ================================================================== *)
(** * The vocabulary of the specification

    Notions the specification uses to state its properties, written
    independently of the functions above. *)

Module Spec.

(** A terminal leaf, in the words of section 4.2: an array, a primitive (a
    value that is no object, or null), or a value with the shape of a
    Translation Entry (an object holding both a [translation] and a
    [sourceHash] property). *)
Definition terminal (v : value) : bool :=
  match v with
  | Arr _ => true
  | Obj o =>
      existsb (JsString.eqb (str "translation")) (map fst o)
      && existsb (JsString.eqb (str "sourceHash")) (map fst o)
  | _ => true
  end.

(** [s] ends in [p]. *)
Definition endsIn (p s : jsstring) : Prop := exists body, s = body ++ p.

(** The terminal punctuation of section 4.4: a period, an exclamation
    mark, a question mark, three periods, the ellipsis character. *)
Definition terminalPunctuation : list jsstring :=
  [[46]; [33]; [63]; [46; 46; 46]; [8230]]%N.

(** [s] without one of [endings] and the white space after it, when [s]
    ends so; [s] itself otherwise. *)
Definition withoutEnding (endings : list jsstring) (s : jsstring) : jsstring :=
  let t := trimEnd s in
  match find (fun e => endsWith e t) endings with
  | Some e => firstn (List.length t - List.length e) t
  | None => s
  end.

(** The white space [s] ends with. *)
Definition trailingSpaces (s : jsstring) : jsstring :=
  skipn (List.length (trimEnd s)) s.

(** The translated text without its terminal punctuation, as section 4.4
    describes it: trimmed, without a trailing ellipsis (three periods, then
    the ellipsis character), then without one trailing period, exclamation
    mark or question mark; the white space that ended the text is kept. *)
Definition withoutTerminalPunctuation (translated : jsstring) : jsstring :=
  withoutEnding [[46]; [33]; [63]]%N
    (withoutEnding [[8230]]%N
       (withoutEnding [[46; 46; 46]]%N (trim translated)))
  ++ trailingSpaces translated.

(** The forced translation the override table holds for a namespace, a
    language and a key. *)
Definition overrideFor (overrides : OverrideConfig)
  (namespace language key : jsstring) : option jsstring :=
  match getProp overrides namespace with
  | Some byLanguage =>
      match getProp byLanguage language with
      | Some byKey => getProp byKey key
      | None => None
      end
  | None => None
  end.

(** The cache snapshot holds, for [key], a Translation Entry whose
    [sourceHash] is the md5 hash of [text]. *)
Definition cacheHit (cached : props) (key text : jsstring) : bool :=
  match getProp cached key with
  | Some (Obj o) =>
      existsb (JsString.eqb (str "translation")) (map fst o)
      && match getProp o (str "sourceHash") with
         | Some (Str h) => JsString.eqb h (md5 text)
         | _ => false
         end
  | _ => false
  end.

(** [v] is a value ([undefined] is none). *)
Definition defined (v : value) : bool :=
  match v with Undefined => false | _ => true end.

(** No two of the keys are equal. *)
Fixpoint distinct (l : list jsstring) : bool :=
  match l with
  | [] => true
  | k :: l' => negb (existsb (JsString.eqb k) l') && distinct l'
  end.

(** A value [JSON.parse] can return: it holds no [undefined], and the keys
    of each of its objects are distinct. *)
Fixpoint parsed (v : value) : bool :=
  match v with
  | Undefined => false
  | Arr items => forallb parsed items
  | Obj o => distinct (map fst o) && forallb (fun kv => parsed (snd kv)) o
  | _ => true
  end.

(** The key holds no dot. *)
Definition dotless (k : jsstring) : bool := negb (existsb (N.eqb 46) k).

(** [p] holds of every object nested in [v] that is no terminal leaf. *)
Fixpoint nestedAll (p : props -> bool) (v : value) : bool :=
  match v with
  | Obj o => terminal v || (p o && forallb (fun kv => nestedAll p (snd kv)) o)
  | _ => true
  end.

(** [p] holds of the tree [o] and of every object nested in it that is no
    terminal leaf. *)
Definition treeAll (p : props -> bool) (o : props) : bool :=
  p o && forallb (fun kv => nestedAll p (snd kv)) o.

Definition distinctKeys (o : props) : bool := distinct (map fst o).
Definition dotlessKeys (o : props) : bool := forallb dotless (map fst o).
Definition notEmpty (o : props) : bool :=
  match o with [] => false | _ :: _ => true end.

(** The empty string is not the key of a nested object of [o] that is no
    terminal leaf. *)
Definition plainRoot (o : props) : bool :=
  forallb
    (fun kv => match fst kv with [] => terminal (snd kv) | _ :: _ => true end)
    o.

(** A key as source files have them: it holds no dot, it is no array
    index and it is not the name of a member of [Object.prototype]. *)
Definition ordinary (k : jsstring) : bool :=
  dotless k && negb (isArrayIndex k) && negb (inherited k).

Definition ordinaryKeys (o : props) : bool := forallb ordinary (map fst o).





(** [p] occurs in [s], letter case apart. *)
Fixpoint occursCI (p s : jsstring) : bool :=
  startsWithCI p s
  || match s with
     | [] => false
     | _ :: s' => occursCI p s'
     end.

(** [s] with every placeholder set off by a space on either side; the
    placeholders are the matches of the pattern, found from left to right,
    and [skip] counts the units of the last one still to pass over. *)
Fixpoint padPlaceholders (skip : nat) (s : jsstring) : jsstring :=
  match s with
  | [] => []
  | c :: s' =>
      match skip with
      | S n => padPlaceholders n s'
      | O =>
          match matchPlaceholder s with
          | Some (m, _) => padded m ++ padPlaceholders (List.length m - 1) s'
          | None => c :: padPlaceholders 0 s'
          end
      end
  end.

(** Every placeholder of [s] stands between white space, or at an end of
    the text; [afterSpace] tells that white space, or nothing, comes before
    [s], and [skip] counts the units of the last placeholder still to pass
    over. *)
Fixpoint setOff (afterSpace : bool) (skip : nat) (s : jsstring) : bool :=
  match s with
  | [] => true
  | c :: s' =>
      match skip with
      | S n => setOff (isSpace c) n s'
      | O =>
          match matchPlaceholder s with
          | Some (m, rest) =>
              afterSpace
              && match rest with [] => true | d :: _ => isSpace d end
              && setOff false (List.length m - 1) s'
          | None => setOff (isSpace c) 0 s'
          end
      end
  end.

End Spec.
Export Spec.

(* ================================================================== *)
(** * Sample runs

    Small source files, caches and override tables on which the
    properties below are exercised. *)

Module Sample.

Definition login : jsstring := str "login".
Definition tr : jsstring := str "tr".
Definition en : jsstring := str "en".
Definition keyA : jsstring := str "a".
Definition keyB : jsstring := str "b".

(** No API key, no cache directory, no override file. *)
Definition offline : World :=
  {| DEEPL_API_KEY := false;
     GOOGLE_API_KEY := false;
     deeplPost := fun _ _ _ => None;
     googlePost := fun _ _ _ => None;
     cacheFile := fun _ _ => None;
     overridesFile := None |}.

(** [{"a": "Tamam"}] *)
Definition tamam : value := Obj [(keyA, Str (str "Tamam"))].

(** [{"a": "Tamam", "b": "Yeni", "n": 3}]; the number is kept as a tag. *)
Definition three : value :=
  Obj [(keyA, Str (str "Tamam")); (keyB, Str (str "Yeni"));
       (str "n", Num 3)].

(** The table [{"login": {"en": {"a": "Forced"}}}]. *)
Definition forced : OverrideConfig :=
  [(login, [(en, [(keyA, str "Forced")])])].

(** A cache for English in which [a] is up to date with "Tamam". *)
Definition freshCache : value :=
  Obj [(keyA, entry (Str (str "OK")) (md5 (str "Tamam")))].

(** A cache for English in which [a] was translated from an older text. *)
Definition staleCache : value :=
  Obj [(keyA, entry (Str (str "Eski")) (str "0123456789abcdef0123456789abcdef"))].

(** The primary service answers every text with "New"; the cache and the
    override table are as given. *)
Definition online (cache : option value) (table : option OverrideConfig)
  : World :=
  {| DEEPL_API_KEY := true;
     GOOGLE_API_KEY := false;
     deeplPost := fun _ _ texts => Some (map (fun _ => str "New") texts);
     googlePost := fun _ _ _ => None;
     cacheFile := fun _ _ => cache;
     overridesFile := table |}.

(** Both services fail; the cache and the override table are as given. *)
Definition failing (cache : option value) (table : option OverrideConfig)
  : World :=
  {| DEEPL_API_KEY := true;
     GOOGLE_API_KEY := true;
     deeplPost := fun _ _ _ => None;
     googlePost := fun _ _ _ => None;
     cacheFile := fun _ _ => cache;
     overridesFile := table |}.

(** [{"a": "x", "a.b": 1}]: a key that continues another after a dot. *)
Definition clash : value :=
  Obj [(keyA, Str (str "x")); (str "a.b", Num 1)].

(** A cache file in the earliest format, with the translation as a raw
    string: [{"a": "old"}]. *)
Definition rawCache : value := Obj [(keyA, Str (str "old"))].

Definition de : jsstring := str "de".

(** Both keys are set; the primary service fails and the other one answers
    every text with the text it was sent. *)
Definition fallback : World :=
  {| DEEPL_API_KEY := true;
     GOOGLE_API_KEY := true;
     deeplPost := fun _ _ _ => None;
     googlePost := fun _ _ texts => Some texts;
     cacheFile := fun _ _ => None;
     overridesFile := None |}.

(** A batch of two texts, the first with placeholders. *)
Definition batch : list (jsstring * jsstring) :=
  [(keyA, str "Merhaba {{name}}, {count} yeni mesaj"); (keyB, str "Tamam")].

(** [{"menu": {"a": "Tamam"}, "b": "Yeni", "n": 3}], as the members of the
    root. *)
Definition tree : props :=
  [(str "menu", Obj [(keyA, Str (str "Tamam"))]); (keyB, Str (str "Yeni"));
   (str "n", Num 3)].

(** A cache for English in which [menu.a] was translated from an older
    text. *)
Definition staleTree : value :=
  Obj [(str "menu",
        Obj [(keyA,
              entry (Str (str "Eski"))
                (str "0123456789abcdef0123456789abcdef"))])].



End Sample.

(* ================================================================== *)
(** * Notions the proofs are stated with *)

(** ** Induction over a value *)

Section ValueInduction.
Variable P : value -> Prop.
Hypothesis HUndefined : P Undefined.
Hypothesis HNull : P Null.
Hypothesis HBool : forall b, P (Bool b).
Hypothesis HNum : forall bits, P (Num bits).
Hypothesis HStr : forall s, P (Str s).
Hypothesis HArr : forall items, P (Arr items).
Hypothesis HObj :
  forall fields, Forall (fun kv => P (snd kv)) fields -> P (Obj fields).

(** Induction over a value through the fields of its objects. *)
Fixpoint value_ind (v : value) : P v :=
  match v with
  | Undefined => HUndefined
  | Null => HNull
  | Bool b => HBool b
  | Num bits => HNum bits
  | Str s => HStr s
  | Arr items => HArr items
  | Obj fields =>
      HObj
        ((fix all (l : list (jsstring * value))
            : Forall (fun kv => P (snd kv)) l :=
            match l with
            | [] => Forall_nil _
            | kv :: l' => Forall_cons kv (value_ind (snd kv)) (all l')
            end) fields)
  end.
End ValueInduction.

(** ** The leaves of a tree and their paths *)

Module Paths.

(** [.k1.k2...]: the components of a path, each after a dot. *)
Definition dotted (q : list jsstring) : jsstring :=
  flat_map (fun k => dot :: k) q.

(** The terminal leaves of a value with their paths, in the order in which
    [flattenObject] meets them. *)
Fixpoint leavesOf (v : value) : list (list jsstring * value) :=
  match v with
  | Obj o =>
      if isTranslationEntry v then [([], v)]
      else
        (fix fields (ps : props) : list (list jsstring * value) :=
           match ps with
           | [] => []
           | (k, w) :: ps' =>
               map (fun qx => (k :: fst qx, snd qx)) (leavesOf w) ++ fields ps'
           end) o
  | _ => [([], v)]
  end.

Definition fieldLeaves (o : props) : list (list jsstring * value) :=
  flat_map
    (fun kv => map (fun qx => (fst kv :: fst qx, snd qx)) (leavesOf (snd kv)))
    o.

(** A key that is [n] or continues [n] after a dot. *)
Definition extends (n key : jsstring) : Prop :=
  exists q, key = n ++ dotted q.

(** The flat entries of a list of leaves under the key [n]. *)
Definition keyed (n : jsstring) (L : list (list jsstring * value)) : props :=
  map (fun qx => (n ++ dotted (fst qx), snd qx)) L.

(** What [joinKey prefix] puts before a key. *)
Definition base (prefix : jsstring) : jsstring :=
  match prefix with
  | [] => []
  | _ :: _ => prefix ++ [dot]
  end.

(** No key is the name of a member of [Object.prototype]. *)
Definition ownNames (f : props) : bool :=
  forallb (fun k => negb (inherited k)) (map fst f).

(** The properties of a nested object on which flattening rests. *)
Definition sound (f : props) : bool := distinctKeys f && dotlessKeys f.

(** The properties of a nested object on which the round trip rests. *)
Definition good (f : props) : bool :=
  notEmpty f && distinctKeys f && dotlessKeys f && ownNames f.

Definition stepPath (r : outcome value) (e : list jsstring * value)
  : outcome value :=
  match r with
  | Returns acc => assignPath acc (fst e) (snd e)
  | Throws => Throws
  | Unmodelled => Unmodelled
  end.

Definition foldPaths (r : outcome value) (E : list (list jsstring * value))
  : outcome value :=
  fold_left stepPath E r.

(** A flat object with its keys renamed by [phi] and its values remade by
    [psi] from the key and the value. *)
Definition rekey (phi : jsstring -> jsstring)
  (psi : jsstring -> value -> value) (r : props) : props :=
  map (fun kv => (phi (fst kv), psi (fst kv) (snd kv))) r.

(** The key [k] under the prefix [p]. *)
Definition under (p k : jsstring) : jsstring := p ++ dot :: k.

(** The prefix that puts [p] before the prefix [q]. *)
Definition underPrefix (p q : jsstring) : jsstring :=
  match q with
  | [] => p
  | _ :: _ => under p q
  end.

(** The tree [v], found under the key [n], with each terminal leaf
    replaced by what [g] gives for the key of the leaf. *)
Fixpoint retag (g : jsstring -> value) (n : jsstring) (v : value) : value :=
  match v with
  | Obj o =>
      if isTranslationEntry v then g n
      else
        Obj
          ((fix fields (ps : props) : props :=
              match ps with
              | [] => []
              | (k, w) :: ps' => (k, retag g (joinKey n k) w) :: fields ps'
              end) o)
  | _ => g n
  end.

Definition retagFields (g : jsstring -> value) (n : jsstring) (o : props)
  : props :=
  map (fun kv => (fst kv, retag g (joinKey n (fst kv)) (snd kv))) o.

(** The entries of a flat object for whose key [g] gives a value, with
    that value. *)
Definition select (g : jsstring -> option value) (F : props) : props :=
  flat_map
    (fun kv =>
       match g (fst kv) with
       | Some x => [(fst kv, x)]
       | None => []
       end) F.

(** The tree [v], found under the key [n], with each terminal leaf
    replaced by what [g] gives for the key of the leaf; a leaf for which
    [g] gives nothing is left out, and so is a nested object of which
    nothing is left. *)
Fixpoint prune (g : jsstring -> option value) (n : jsstring) (v : value)
  : option value :=
  match v with
  | Obj o =>
      if isTranslationEntry v then g n
      else
        match
          (fix fields (ps : props) : props :=
             match ps with
             | [] => []
             | (k, w) :: ps' =>
                 match prune g (joinKey n k) w with
                 | Some w' => (k, w') :: fields ps'
                 | None => fields ps'
                 end
             end) o
        with
        | [] => None
        | f :: fs => Some (Obj (f :: fs))
        end
  | _ => g n
  end.

Definition pruneFields (g : jsstring -> option value) (n : jsstring)
  (o : props) : props :=
  flat_map
    (fun kv =>
       match prune g (joinKey n (fst kv)) (snd kv) with
       | Some w' => [(fst kv, w')]
       | None => []
       end) o.

(** Something is left of the field [kv] of the object under [n]. *)
Definition kept (g : jsstring -> option value) (n : jsstring)
  (kv : jsstring * value) : bool :=
  match prune g (joinKey n (fst kv)) (snd kv) with
  | Some _ => true
  | None => false
  end.



(** The properties of a nested object of a source on which writing its
    file rests. *)
Definition fit (f : props) : bool :=
  distinctKeys f && dotlessKeys f && ownNames f.

(** [g] gives a value for the key. *)
Definition chosen (g : jsstring -> option value) (k : jsstring) : bool :=
  match g k with Some _ => true | None => false end.

End Paths.
Export Paths.

(** ** One step of the scan of the source keys *)

Section ScanSteps.
Variables flatSourceJson cachedTranslations : props.

(** What the scan of one source key adds to the batch. *)
Definition pendingOf (key : jsstring) : list pending :=
  match readProp flatSourceJson key with
  | Str sourceText =>
      if cacheHit cachedTranslations key sourceText then []
      else [(key, sourceText)]
  | _ => []
  end.

(** What the scan of one source key does to [finalTranslations]. *)
Definition passThrough (final : props) (key : jsstring) : props :=
  match readProp flatSourceJson key with
  | Str _ => final
  | v => setProp final key v
  end.

End ScanSteps.

(** ** The values a run writes *)

(** The value [final] holds for [k] when it is a terminal leaf. *)
Definition leafOr (final : props) (k : jsstring) : value :=
  if isLeaf (readProp final k) then readProp final k else Null.

(** ** The source language *)

(** What the file of the source language holds for a source value: the
    entry of a string with the hash of the string itself, any other value
    as it is. *)
Definition selfEntry (v : value) : value :=
  match v with
  | Str sourceText => entry (Str sourceText) (md5 sourceText)
  | _ => v
  end.

(** What the flat object written for [lang] holds under the source key
    [k], if anything. *)
Definition outputAt (w : World) (namespace BASE_LANGUAGE : jsstring)
  (flatSourceJson : props) (lang k : jsstring) : option value :=
  if JsString.eqb (toLowerCase lang) BASE_LANGUAGE
  then Some (selfEntry (readProp flatSourceJson k))
  else
    let v :=
      readProp
        (finalTranslationsOf w namespace BASE_LANGUAGE flatSourceJson
           (loadOverrides w) lang) k in
    if defined v then Some v else None.

(** ** Texts with placeholders, cut into pieces *)

Module Pieces.

(** The texts the placeholder pattern matches, without the optional second
    closing brace: an opening brace, an optional second, word characters,
    a closing brace. *)
Definition token (second name : jsstring) : jsstring :=
  lbrace :: second ++ name ++ [rbrace].

Definition tokenParts (second name : jsstring) : Prop :=
  (second = [] \/ second = [lbrace])
  /\ name <> [] /\ forallb isWord name = true.

(** No match of the pattern starts inside [a] when [rest] follows it. *)
Definition Unmatched (a rest : jsstring) : Prop :=
  forall a1 c a2, a = a1 ++ c :: a2 -> matchPlaceholder (c :: a2 ++ rest) = None.

(** [r] is empty or starts with white space. *)
Definition headSpace (r : jsstring) : bool :=
  match r with
  | [] => true
  | c :: _ => isSpace c
  end.

(** [g] ends in white space; [b] answers for the empty text. *)
Definition endSpace (b : bool) (g : jsstring) : bool :=
  fold_left (fun _ c => isSpace c) g b.

(** A text cut at its placeholders: each piece is the text before a
    placeholder and the placeholder; [tail] follows the last one. *)
Fixpoint plain (segs : list (jsstring * jsstring)) (tail : jsstring)
  : jsstring :=
  match segs with
  | [] => tail
  | (g, p) :: segs' => g ++ p ++ plain segs' tail
  end.

(** The pieces are those [matchAll] finds. *)
Fixpoint segmented (segs : list (jsstring * jsstring)) (tail : jsstring)
  : Prop :=
  match segs with
  | [] => Unmatched tail []
  | (g, p) :: segs' =>
      Unmatched g (p ++ plain segs' tail)
      /\ matchPlaceholder (p ++ plain segs' tail) = Some (p, plain segs' tail)
      /\ segmented segs' tail
  end.

(** The text with the placeholders from index [j] on replaced by their
    padded markers and the earlier ones padded; [i] is the index of the
    first piece. *)
Fixpoint mixed (j i : nat) (segs : list (jsstring * jsstring))
  (tail : jsstring) : jsstring :=
  match segs with
  | [] => tail
  | (g, p) :: segs' =>
      g ++ padded (if (i <? j)%nat then p else marker i)
        ++ mixed j (S i) segs' tail
  end.

(** Every placeholder of the pieces stands between white space or at an
    end of the text; [b] tells that white space or nothing comes before
    the first piece. *)
Fixpoint delimited (b : bool) (segs : list (jsstring * jsstring))
  (tail : jsstring) : Prop :=
  match segs with
  | [] => True
  | (g, _) :: segs' =>
      endSpace b g = true
      /\ headSpace (plain segs' tail) = true
      /\ delimited false segs' tail
  end.

(** The marker map of the pieces, [i] the index of the first. *)
Fixpoint entries (i : nat) (segs : list (jsstring * jsstring))
  : object jsstring :=
  match segs with
  | [] => []
  | (_, p) :: segs' => (marker i, p) :: entries (S i) segs'
  end.

(** No white space in [w]. *)
Definition solid (w : jsstring) : bool :=
  forallb (fun c => negb (isSpace c)) w.

(** The words of a text: its longest runs without white space. *)
Fixpoint words (s : jsstring) : list jsstring :=
  match s with
  | [] => []
  | c :: s' =>
      if isSpace c then words s'
      else
        match s' with
        | [] => [[c]]
        | d :: _ =>
            if isSpace d then [c] :: words s'
            else
              match words s' with
              | w :: ws => (c :: w) :: ws
              | [] => [[c]]
              end
        end
  end.

Fixpoint unwords (ws : list jsstring) : jsstring :=
  match ws with
  | [] => []
  | [w] => w
  | w :: ws' => w ++ space :: unwords ws'
  end.

(** [v] and [w] are equal, letter case apart. *)
Definition equalCI (v w : jsstring) : bool :=
  (List.length v =? List.length w)%nat && startsWithCI v w.

Definition substitute (v p w : jsstring) : jsstring :=
  if equalCI v w then p else w.

(** The words of [mixed j i segs tail]. *)
Fixpoint mixedWords (j i : nat) (segs : list (jsstring * jsstring))
  (tail : jsstring) : list jsstring :=
  match segs with
  | [] => words tail
  | (g, p) :: segs' =>
      words g ++ (if (i <? j)%nat then p else marker i)
        :: mixedWords j (S i) segs' tail
  end.

(** The class [[0-9]]. *)
Definition isDigit (c : N) : bool := (48 <=? c)%N && (c <=? 57)%N.

(** The units of the sentinel. *)
Definition sentinelUnits : jsstring :=
  [88; 80; 76; 65; 67; 69; 72; 79; 76; 68; 69; 82; 88]%N.

(** The marker whose digits are [ds]. *)
Definition markerOf (ds : jsstring) : jsstring :=
  sentinelUnits ++ ds ++ sentinelUnits.

(** [v] is a marker, or a text it does not occur in. *)
Definition apart (v w : jsstring) : Prop :=
  equalCI v w = true \/ occursCI v w = false.

(** The sentinel occurs in no piece. *)
Definition clean (segs : list (jsstring * jsstring)) (tail : jsstring)
  : Prop :=
  Forall (fun gp => occursCI sentinel (fst gp) = false
                    /\ occursCI sentinel (snd gp) = false) segs
  /\ occursCI sentinel tail = false.

(** What [restorePlaceholders] makes of a word of the translated text: the
    placeholder of the first marker of the map that the word is, letter
    case apart; the word itself when it is none of them. *)
Definition restoreWord (placeholderMap : object jsstring) (w : jsstring)
  : jsstring :=
  match find (fun mp => equalCI (fst mp) w) placeholderMap with
  | Some mp => snd mp
  | None => w
  end.

(** [w] is a marker of the map, letter case apart, or the sentinel does
    not occur in it. *)
Definition markerOrClean (placeholderMap : object jsstring) (w : jsstring)
  : bool :=
  existsb (fun mp => equalCI (fst mp) w) placeholderMap
  || negb (occursCI sentinel w).

(** Every marker of the map is a word of [ws], letter case apart. *)
Definition markersKept (placeholderMap : object jsstring)
  (ws : list jsstring) : bool :=
  forallb (fun mp => existsb (equalCI (fst mp)) ws) placeholderMap.

End Pieces.
Export Pieces.

(** ** What the services are sent and what is made of their answers *)

(** The target language code sent to the primary service. *)
Definition deepLTargetOf (targetLang : jsstring) : jsstring :=
  if JsString.eqb (toLowerCase targetLang) (str "pt") then str "PT-PT"
  else if JsString.eqb (toLowerCase targetLang) (str "en") then str "EN-US"
  else toUpperCase targetLang.

(** The texts of a batch with their placeholders replaced by markers. *)
Definition markedTexts (texts : list (jsstring * jsstring))
  : list jsstring :=
  map (fun item => fst (extractPlaceholders (snd item))) texts.

(** The answer of a service for the source text [text], once its
    placeholders are restored and its punctuation is normalized. *)
Definition finished (text answer : jsstring) : jsstring :=
  normalizeTranslationPunctuation text
    (restorePlaceholders answer (snd (extractPlaceholders text))).

(** The world [w] with another primary service, or another fallback. *)
Definition withDeepL (w : World)
  (post : jsstring -> jsstring -> list jsstring -> option (list jsstring))
  : World :=
  {| DEEPL_API_KEY := DEEPL_API_KEY w;
     GOOGLE_API_KEY := GOOGLE_API_KEY w;
     deeplPost := post;
     googlePost := googlePost w;
     cacheFile := cacheFile w;
     overridesFile := overridesFile w |}.

Definition withGoogle (w : World)
  (post : jsstring -> jsstring -> list jsstring -> option (list jsstring))
  : World :=
  {| DEEPL_API_KEY := DEEPL_API_KEY w;
     GOOGLE_API_KEY := GOOGLE_API_KEY w;
     deeplPost := deeplPost w;
     googlePost := post;
     cacheFile := cacheFile w;
     overridesFile := overridesFile w |}.

Ltac list_norm :=
  repeat (progress (simpl; rewrite <- ?app_assoc; rewrite <- ?app_comm_cons)).

(* ================================================================== *)
(** * The model at work *)

Example md5_empty : md5 (str "") = str "d41d8cd98f00b204e9800998ecf8427e".
Proof. vm_compute. reflexivity. Qed.

Example md5_abc : md5 (str "abc") = str "900150983cd24fb0d6963f7d28e17f72".
Proof. vm_compute. reflexivity. Qed.

Example md5_Tamam : md5 (str "Tamam") = str "4dfd9e31d657bff6d0a4530eaba632cb".
Proof. vm_compute. reflexivity. Qed.

Example md5_119 : md5 (repeat 120%N 119) = str "ab347a5f68c8a443cfcddc633f12c24f".
Proof. vm_compute. reflexivity. Qed.

Example md5_120 : md5 (repeat 120%N 120) = str "fb98667f98096de92620b64f46e1c5b5".
Proof. vm_compute. reflexivity. Qed.

Example md5_55 : md5 (repeat 120%N 55) = str "04364420e25c512fd958a70738aa8f72".
Proof. vm_compute. reflexivity. Qed.

Example md5_56 : md5 (repeat 120%N 56) = str "668a72d5ba17f08e62dabcafad6db14b".
Proof. vm_compute. reflexivity. Qed.

Example md5_utf8 : md5 [199; 305; 107; 305; 351; 8230]%N = str "c2f27f498a7b70fdb5d924e25a94ddc1".
Proof. vm_compute. reflexivity. Qed.

Example md5_pair : md5 [55357; 56832]%N = str "2a02eac39d716a70ecf37579185927b6".
Proof. vm_compute. reflexivity. Qed.

Example flatten_nested :
  flattenObject
    (Obj [(str "a", Obj [(str "b", Str (str "x")); (str "c", Num 1)]);
          (str "d", Arr [Null])]) []
  = [(str "a.b", Str (str "x")); (str "a.c", Num 1); (str "d", Arr [Null])].
Proof. reflexivity. Qed.

Example unflatten_nested :
  unflattenObject
    [(str "a.b", Str (str "x")); (str "a.c", Num 1); (str "d", Arr [Null])]
  = Returns
      (Obj [(str "a", Obj [(str "b", Str (str "x")); (str "c", Num 1)]);
            (str "d", Arr [Null])]).
Proof. reflexivity. Qed.

Example flatten_keeps_entries :
  flattenObject
    (Obj [(str "a", Obj [(str "b", entry (Str (str "x")) (str "h"))])]) []
  = [(str "a.b", entry (Str (str "x")) (str "h"))].
Proof. reflexivity. Qed.

Example extract_two :
  extractPlaceholders (str "Hi {{name}}, {n} new")
  = (str "Hi  XPLACEHOLDERX0XPLACEHOLDERX ,  XPLACEHOLDERX1XPLACEHOLDERX  new",
     [(str "XPLACEHOLDERX0XPLACEHOLDERX", str "{{name}}");
      (str "XPLACEHOLDERX1XPLACEHOLDERX", str "{n}")]).
Proof. vm_compute. reflexivity. Qed.

Example restore_mangled :
  restorePlaceholders (str "Salut xplaceholderx0xplaceholderx!")
    [(str "XPLACEHOLDERX0XPLACEHOLDERX", str "{{name}}")]
  = str "Salut {{name}} !".
Proof. vm_compute. reflexivity. Qed.

Example restore_clipped :
  restorePlaceholders (str "Salut PLACEHOLDERX0XPLACEHOLDERX")
    [(str "XPLACEHOLDERX0XPLACEHOLDERX", str "{{name}}")]
  = str "Salut {{name}}".
Proof. vm_compute. reflexivity. Qed.

Example normalize_okay :
  normalizeTranslationPunctuation (str "Tamam") (str "Okay.") = str "Okay".
Proof. vm_compute. reflexivity. Qed.

Example normalize_keeps :
  normalizeTranslationPunctuation (str "Tamam.") (str "Okay.") = str "Okay.".
Proof. vm_compute. reflexivity. Qed.

Example normalize_ellipsis :
  normalizeTranslationPunctuation (str "Bekle") (str " Wait....  ")
  = str "Wait  ".
Proof. vm_compute. reflexivity. Qed.

(* ================================================================== *)
(** * Strings: basic facts *)

Lemma jseqb_eq (a b : jsstring) : JsString.eqb a b = true <-> a = b.
Proof.
  unfold JsString.eqb. destruct (list_eq_dec N.eq_dec a b); split; congruence.
Qed.

Lemma jseqb_neq (a b : jsstring) : JsString.eqb a b = false <-> a <> b.
Proof.
  unfold JsString.eqb. destruct (list_eq_dec N.eq_dec a b); split; congruence.
Qed.

Lemma jseqb_refl (a : jsstring) : JsString.eqb a a = true.
Proof. now apply jseqb_eq. Qed.


Lemma neqb_eq (a b : N) : (a =? b)%N = true <-> a = b.
Proof. apply N.eqb_eq. Qed.

Lemma startsWith_app (p r : jsstring) : startsWith p (p ++ r) = true.
Proof.
  induction p as [|a p IH]; simpl; auto. now rewrite N.eqb_refl.
Qed.

Lemma startsWith_true (p s : jsstring) :
  startsWith p s = true -> exists r, s = p ++ r.
Proof.
  revert s. induction p as [|a p IH]; intros s H; simpl in *.
  - now exists s.
  - destruct s as [|b s]; [discriminate|].
    apply andb_true_iff in H as [Hab H]. apply N.eqb_eq in Hab. subst b.
    destruct (IH _ H) as [r ->]. now exists r.
Qed.

Lemma startsWith_iff (p s : jsstring) :
  startsWith p s = true <-> exists r, s = p ++ r.
Proof.
  split; [apply startsWith_true|]. intros [r ->]. apply startsWith_app.
Qed.

Lemma endsWith_iff (e t : jsstring) :
  endsWith e t = true <-> exists body, t = body ++ e.
Proof.
  unfold endsWith. rewrite startsWith_iff. split.
  - intros [r Hr]. exists (rev r).
    rewrite <- (rev_involutive t), Hr, rev_app_distr. now rewrite rev_involutive.
  - intros [body ->]. exists (rev body). apply rev_app_distr.
Qed.

Lemma trimStart_spaces (ws s : jsstring) :
  forallb isSpace ws = true -> trimStart (ws ++ s) = trimStart s.
Proof.
  induction ws as [|c ws IH]; simpl; auto.
  intros H. apply andb_true_iff in H as [Hc H]. rewrite Hc. auto.
Qed.

Lemma trimStart_split (s : jsstring) :
  exists ws, s = ws ++ trimStart s /\ forallb isSpace ws = true.
Proof.
  induction s as [|c s [ws [Hs Hws]]]; simpl.
  - now exists [].
  - destruct (isSpace c) eqn:E.
    + exists (c :: ws). simpl. rewrite Hws, E. split; [congruence | reflexivity].
    + now exists [].
Qed.

Lemma trimStart_head (s : jsstring) (c : N) (r : jsstring) :
  trimStart s = c :: r -> isSpace c = false.
Proof.
  induction s as [|d s IH]; simpl; [discriminate|].
  destruct (isSpace d) eqn:E; auto. intros [= -> ->]. exact E.
Qed.

Lemma trimStart_fixed (c : N) (s : jsstring) :
  isSpace c = false -> trimStart (c :: s) = c :: s.
Proof. intros H. simpl. now rewrite H. Qed.

Lemma trimStart_all (ws : jsstring) :
  forallb isSpace ws = true -> trimStart ws = [].
Proof.
  intros H. rewrite <- (app_nil_r ws). now rewrite trimStart_spaces.
Qed.

Lemma forallb_rev (A : Type) (f : A -> bool) (l : list A) :
  forallb f (rev l) = forallb f l.
Proof.
  induction l as [|a l IH]; simpl; auto.
  rewrite forallb_app, IH. simpl. rewrite andb_true_r. apply andb_comm.
Qed.

Lemma trimEnd_spaces (s ws : jsstring) :
  forallb isSpace ws = true -> trimEnd (s ++ ws) = trimEnd s.
Proof.
  intros H. unfold trimEnd. rewrite rev_app_distr, trimStart_spaces; auto.
  now rewrite forallb_rev.
Qed.

Lemma trimEnd_split (s : jsstring) :
  exists ws, s = trimEnd s ++ ws /\ forallb isSpace ws = true.
Proof.
  destruct (trimStart_split (rev s)) as [ws [Hs Hws]].
  exists (rev ws). split.
  - unfold trimEnd. rewrite <- rev_app_distr, <- Hs. now rewrite rev_involutive.
  - now rewrite forallb_rev.
Qed.

Lemma trimEnd_fixed (s : jsstring) (c : N) :
  isSpace c = false -> trimEnd (s ++ [c]) = s ++ [c].
Proof.
  intros H. unfold trimEnd. rewrite rev_app_distr. simpl. rewrite H.
  simpl. now rewrite rev_involutive.
Qed.

Lemma trimEnd_last (s : jsstring) :
  trimEnd s = [] \/ exists body c, trimEnd s = body ++ [c] /\ isSpace c = false.
Proof.
  unfold trimEnd. destruct (trimStart (rev s)) as [|c r] eqn:E; auto.
  right. exists (rev r), c. split; auto. now apply trimStart_head in E.
Qed.

Lemma app_inj_length (A : Type) (a c b d : list A) :
  List.length a = List.length c -> a ++ b = c ++ d -> a = c /\ b = d.
Proof.
  revert c. induction a as [|x a IH]; intros [|y c] Hlen H; simpl in *;
    try discriminate; auto.
  injection H as -> H. injection Hlen as Hlen.
  destruct (IH _ Hlen H) as [-> ->]. auto.
Qed.

Lemma firstn_length_app (A : Type) (a b : list A) :
  firstn (List.length a) (a ++ b) = a.
Proof. induction a; simpl; congruence. Qed.

Lemma skipn_length_app (A : Type) (a b : list A) :
  skipn (List.length a) (a ++ b) = b.
Proof. induction a; simpl; congruence. Qed.

Lemma existsb_eqb_In (key : jsstring) (l : list jsstring) :
  existsb (JsString.eqb key) l = true <-> In key l.
Proof.
  rewrite existsb_exists. split.
  - intros [x [Hin E]]. apply jseqb_eq in E. now subst.
  - intros Hin. exists key. split; auto. apply jseqb_refl.
Qed.


(* ================================================================== *)
(** * Objects: lookup and assignment *)

Section ObjectFacts.
Variable A : Type.
Implicit Types (o : object A) (k : jsstring) (v : A).

Lemma getProp_setProp_same o k v : getProp (setProp o k v) k = Some v.
Proof.
  induction o as [|[k' v'] o IH]; simpl.
  - now rewrite jseqb_refl.
  - destruct (JsString.eqb k' k) eqn:E; simpl; rewrite E; auto.
Qed.

Lemma getProp_setProp_other o k k' v :
  k <> k' -> getProp (setProp o k v) k' = getProp o k'.
Proof.
  intros Hne. induction o as [|[k0 v0] o IH]; simpl.
  - destruct (JsString.eqb k k') eqn:E; auto.
    apply jseqb_eq in E. contradiction.
  - destruct (JsString.eqb k0 k) eqn:E; simpl.
    + apply jseqb_eq in E. subst k0.
      destruct (JsString.eqb k k') eqn:E'; auto.
      apply jseqb_eq in E'. contradiction.
    + rewrite IH. reflexivity.
Qed.

Lemma getProp_None_keys o k : getProp o k = None <-> ~ In k (keys o).
Proof.
  induction o as [|[k' v'] o IH]; simpl.
  - tauto.
  - destruct (JsString.eqb k' k) eqn:E.
    + apply jseqb_eq in E. split; [discriminate | intros H; exfalso; auto].
    + apply jseqb_neq in E. rewrite IH. tauto.
Qed.

Lemma getProp_Some_In o k v : getProp o k = Some v -> In (k, v) o.
Proof.
  induction o as [|[k' v'] o IH]; simpl; [discriminate|].
  destruct (JsString.eqb k' k) eqn:E.
  - apply jseqb_eq in E. intros [= ->]. left. now subst.
  - auto.
Qed.

Lemma In_getProp o k v : NoDup (keys o) -> In (k, v) o -> getProp o k = Some v.
Proof.
  induction o as [|[k' v'] o IH]; simpl; [tauto|].
  intros Hnd [H|H].
  - injection H as -> ->. now rewrite jseqb_refl.
  - inversion Hnd as [|? ? Hnin Hnd']; subst.
    destruct (JsString.eqb k' k) eqn:E; auto.
    apply jseqb_eq in E. subst. exfalso. apply Hnin.
    change k with (fst (k, v)). now apply in_map.
Qed.

Lemma setProp_fresh o k v : ~ In k (keys o) -> setProp o k v = o ++ [(k, v)].
Proof.
  induction o as [|[k' v'] o IH]; simpl; auto.
  intros Hnin. destruct (JsString.eqb k' k) eqn:E.
  - apply jseqb_eq in E. exfalso. auto.
  - f_equal. apply IH. auto.
Qed.

Lemma keys_setProp o k v :
  keys (setProp o k v) = if hasProp o k then keys o else keys o ++ [k].
Proof.
  unfold hasProp. induction o as [|[k' v'] o IH]; simpl; auto.
  destruct (JsString.eqb k' k) eqn:E; simpl; auto.
  rewrite IH. destruct (getProp o k); reflexivity.
Qed.

Lemma hasProp_In o k : hasProp o k = true <-> In k (keys o).
Proof.
  unfold hasProp. destruct (getProp o k) eqn:E.
  - split; auto. intros _.
    destruct (in_dec (list_eq_dec N.eq_dec) k (keys o)) as [H|H]; auto.
    apply getProp_None_keys in H. congruence.
  - apply getProp_None_keys in E. split; [discriminate | tauto].
Qed.

Lemma NoDup_keys_setProp o k v : NoDup (keys o) -> NoDup (keys (setProp o k v)).
Proof.
  intros Hnd. rewrite keys_setProp. destruct (hasProp o k) eqn:E; auto.
  apply NoDup_app; auto.
  - repeat constructor. simpl. tauto.
  - intros x Hx [<-|[]]. apply hasProp_In in Hx. congruence.
Qed.

Lemma NoDup_keys_objectAssign (target source : object A) :
  NoDup (keys target) -> NoDup (keys (objectAssign target source)).
Proof.
  unfold objectAssign. revert target.
  induction source as [|[k v] s IH]; simpl; intros t Ht; auto.
  apply IH. now apply NoDup_keys_setProp.
Qed.

End ObjectFacts.

Lemma readProp_setProp_same (o : props) (k : jsstring) (v : value) :
  readProp (setProp o k v) k = v.
Proof. unfold readProp. now rewrite getProp_setProp_same. Qed.



(* ================================================================== *)
(** * Flattening: leaves and recursion *)

Lemma jseqb_sym (a b : jsstring) : JsString.eqb a b = JsString.eqb b a.
Proof.
  destruct (JsString.eqb a b) eqn:E1, (JsString.eqb b a) eqn:E2; auto.
  - apply jseqb_eq in E1. apply jseqb_neq in E2. congruence.
  - apply jseqb_neq in E1. apply jseqb_eq in E2. congruence.
Qed.

Lemma hasProp_existsb (A : Type) (o : object A) (k : jsstring) :
  hasProp o k = existsb (JsString.eqb k) (map fst o).
Proof.
  unfold hasProp. induction o as [|[k' v] o IH]; simpl; auto.
  rewrite (jseqb_sym k k'). destruct (JsString.eqb k' k); auto.
Qed.

Lemma terminal_isLeaf (v : value) : terminal v = isLeaf v.
Proof.
  destruct v; try reflexivity.
  unfold isLeaf, isTranslationEntry, terminal.
  rewrite !hasProp_existsb. now rewrite orb_false_r.
Qed.

(** The inner loop of [flattenEntry] is [flattenProps]. *)
Lemma flattenEntry_loop (newKey : jsstring) (o inner : props) :
  (fix loop (ps : props) (inner : props) : props :=
     match ps with
     | [] => inner
     | (k, w) :: ps' => loop ps' (flattenEntry newKey k w inner)
     end) o inner
  = fold_left (fun result kv => flattenEntry newKey (fst kv) (snd kv) result)
      o inner.
Proof.
  revert inner. induction o as [|[k w] o IH]; intros inner; simpl; auto.
Qed.

Lemma flattenEntry_unfold (prefix key : jsstring) (v : value) (result : props) :
  flattenEntry prefix key v result
  = if isLeaf v then setProp result (joinKey prefix key) v
    else objectAssign result (flattenObject v (joinKey prefix key)).
Proof.
  destruct v; try reflexivity.
  unfold isLeaf. rewrite orb_false_r. simpl flattenEntry.
  rewrite flattenEntry_loop. unfold isTranslationEntry.
  destruct (hasProp fields translationKey && hasProp fields sourceHashKey);
    reflexivity.
Qed.

Lemma flattenProps_snoc (o : props) (key : jsstring) (v : value)
  (prefix : jsstring) :
  flattenProps (o ++ [(key, v)]) prefix
  = flattenEntry prefix key v (flattenProps o prefix).
Proof. unfold flattenProps. now rewrite fold_left_app. Qed.

Lemma Forall_setProp (A : Type) (P : jsstring * A -> Prop) (o : object A)
  (k : jsstring) (v : A) :
  Forall P o -> (forall k', P (k', v)) -> Forall P (setProp o k v).
Proof.
  intros Ho Hv. induction o as [|[k' v'] o IH]; simpl.
  - repeat constructor. apply Hv.
  - inversion Ho; subst. destruct (JsString.eqb k' k); constructor; auto.
Qed.

Lemma Forall_objectAssign (A : Type) (P : jsstring * A -> Prop)
  (target source : object A) :
  (forall k k' v, P (k, v) -> P (k', v)) ->
  Forall P target -> Forall P source -> Forall P (objectAssign target source).
Proof.
  intros Hk. unfold objectAssign. revert target.
  induction source as [|[k v] s IH]; simpl; intros t Ht Hs; auto.
  inversion Hs; subst. apply IH; auto.
  apply Forall_setProp; auto. intros k'. eapply Hk; eauto.
Qed.

Lemma fold_flattenEntry_terminal (o : props) :
  Forall
    (fun kv =>
       forall prefix key result,
         Forall (fun kv => terminal (snd kv) = true) result ->
         Forall (fun kv => terminal (snd kv) = true)
           (flattenEntry prefix key (snd kv) result)) o ->
  forall prefix acc,
    Forall (fun kv => terminal (snd kv) = true) acc ->
    Forall (fun kv => terminal (snd kv) = true)
      (fold_left (fun r kv => flattenEntry prefix (fst kv) (snd kv) r) o acc).
Proof.
  induction 1 as [|kv o Hkv _ IH]; intros prefix acc Hacc; simpl; auto.
Qed.

Lemma flattenEntry_terminal (v : value) :
  forall prefix key result,
    Forall (fun kv => terminal (snd kv) = true) result ->
    Forall (fun kv => terminal (snd kv) = true)
      (flattenEntry prefix key v result).
Proof.
  induction v using value_ind; intros prefix key result Hres;
    try (apply Forall_setProp; auto; fail).
  rewrite flattenEntry_unfold.
  destruct (isLeaf (Obj fields)) eqn:Hleaf.
  - apply Forall_setProp; auto. intros k0. simpl snd.
    now rewrite terminal_isLeaf.
  - apply Forall_objectAssign; auto.
    unfold flattenObject, flattenProps. simpl ownEnumerable.
    apply fold_flattenEntry_terminal; auto.
Qed.

Lemma flattenObject_terminal (obj : value) (prefix : jsstring) :
  Forall (fun kv => terminal (snd kv) = true) (flattenObject obj prefix).
Proof.
  unfold flattenObject, flattenProps.
  apply fold_flattenEntry_terminal; auto.
  apply Forall_forall. intros kv _ p k r Hr. now apply flattenEntry_terminal.
Qed.

Lemma flattenEntry_NoDup (prefix key : jsstring) (v : value) (result : props) :
  NoDup (keys result) -> NoDup (keys (flattenEntry prefix key v result)).
Proof.
  intros H. rewrite flattenEntry_unfold. destruct (isLeaf v).
  - now apply NoDup_keys_setProp.
  - now apply NoDup_keys_objectAssign.
Qed.

Lemma flattenProps_NoDup (o : props) (prefix : jsstring) (acc : props) :
  NoDup (keys acc) ->
  NoDup
    (keys
       (fold_left
          (fun result kv => flattenEntry prefix (fst kv) (snd kv) result)
          o acc)).
Proof.
  revert acc. induction o as [|[k v] o IH]; intros acc Hacc; simpl; auto.
  apply IH. now apply flattenEntry_NoDup.
Qed.

Lemma flattenObject_NoDup (obj : value) (prefix : jsstring) :
  NoDup (keys (flattenObject obj prefix)).
Proof.
  unfold flattenObject, flattenProps. apply flattenProps_NoDup. constructor.
Qed.

(* ================================================================== *)
(** * Flatten, then unflatten *)

Section RoundTrip.

Lemma leavesOf_unfold (v : value) :
  leavesOf v
  = if isLeaf v then [([], v)]
    else match v with
         | Obj o => fieldLeaves o
         | _ => []
         end.
Proof.
  destruct v; try reflexivity.
  unfold isLeaf. rewrite orb_false_r. simpl.
  destruct (hasProp fields translationKey && hasProp fields sourceHashKey);
    auto.
  unfold fieldLeaves. induction fields as [|[k w] o IH]; simpl; auto.
  now rewrite IH.
Qed.

Lemma dotless_cons (c : N) (k : jsstring) :
  dotless (c :: k) = true -> c <> dot /\ dotless k = true.
Proof.
  unfold dotless. simpl. intros H. apply negb_true_iff in H.
  apply orb_false_iff in H as [Hc Hk]. split.
  - intros ->. discriminate.
  - now rewrite Hk.
Qed.

(** Two dotless heads followed by dotted paths are equal only when the
    heads are. *)
Lemma dotless_head (k k' : jsstring) (q q' : list jsstring) :
  dotless k = true -> dotless k' = true ->
  k ++ dotted q = k' ++ dotted q' -> k = k'.
Proof.
  revert k'. induction k as [|c k IH]; intros [|c' k'] Hk Hk' H; auto.
  - exfalso. apply dotless_cons in Hk' as [Hc' _].
    destruct q as [|x q]; simpl in H; [discriminate|]. congruence.
  - exfalso. apply dotless_cons in Hk as [Hc _].
    destruct q' as [|x q']; simpl in H; [discriminate|]. congruence.
  - apply dotless_cons in Hk as [_ Hk]. apply dotless_cons in Hk' as [_ Hk'].
    simpl in H. injection H as -> H. f_equal. eauto.
Qed.

Lemma split_single (k : jsstring) :
  dotless k = true -> JsString.split dot k = [k].
Proof.
  induction k as [|c k IH]; intros Hk; auto.
  apply dotless_cons in Hk as [Hc Hk]. simpl.
  apply N.eqb_neq in Hc. rewrite Hc. now rewrite IH.
Qed.

Lemma split_at_dot (k r : jsstring) :
  dotless k = true ->
  JsString.split dot (k ++ dot :: r) = k :: JsString.split dot r.
Proof.
  induction k as [|c k IH]; intros Hk.
  - reflexivity.
  - apply dotless_cons in Hk as [Hc Hk]. simpl.
    apply N.eqb_neq in Hc. rewrite Hc. now rewrite IH.
Qed.

Lemma split_dotless (k : jsstring) (q : list jsstring) :
  dotless k = true -> Forall (fun x => dotless x = true) q ->
  JsString.split dot (k ++ dotted q) = k :: q.
Proof.
  intros Hk Hq. revert k Hk. induction Hq as [|x q Hx Hq IH]; intros k Hk.
  - simpl. rewrite app_nil_r. now apply split_single.
  - change (dotted (x :: q)) with (dot :: x ++ dotted q).
    rewrite split_at_dot by assumption. now rewrite IH.
Qed.

Lemma joinKey_base (prefix key : jsstring) :
  joinKey prefix key = base prefix ++ key.
Proof. destruct prefix; simpl; auto. now rewrite <- app_assoc. Qed.

Lemma keyed_keys_extend (n : jsstring) (L : list (list jsstring * value))
  (x : jsstring) :
  In x (keys (keyed n L)) -> extends n x.
Proof.
  unfold keys, keyed. rewrite map_map. intros H.
  apply in_map_iff in H as [[q y] [<- _]]. now exists q.
Qed.

Lemma keyed_cons (n k : jsstring) (L : list (list jsstring * value)) :
  keyed n (map (fun qx => (k :: fst qx, snd qx)) L) = keyed (n ++ dot :: k) L.
Proof.
  unfold keyed. rewrite map_map. apply map_ext. intros [q y]. simpl.
  now rewrite <- app_assoc.
Qed.

Lemma objectAssign_fresh (A : Type) (target source : object A) :
  NoDup (keys source) ->
  (forall x, In x (keys source) -> ~ In x (keys target)) ->
  objectAssign target source = target ++ source.
Proof.
  unfold objectAssign. revert target.
  induction source as [|[k v] s IH]; intros t Hnd Hfresh; simpl.
  - now rewrite app_nil_r.
  - inversion Hnd as [|? ? Hk Hnd']; subst.
    rewrite setProp_fresh by (apply Hfresh; now left).
    rewrite IH; auto.
    + now rewrite <- app_assoc.
    + intros x Hx. unfold keys. rewrite map_app, in_app_iff. simpl.
      intros [H|[<-|[]]]; [|contradiction].
      apply (Hfresh x); auto. now right.
Qed.

Lemma distinct_NoDup (l : list jsstring) : distinct l = true -> NoDup l.
Proof.
  induction l as [|k l IH]; simpl; intros H; constructor;
    apply andb_true_iff in H as [Hk Hl]; auto.
  intros Hin. apply existsb_eqb_In in Hin. rewrite Hin in Hk. discriminate.
Qed.

(** Folding [flattenEntry] over fields whose values flatten to their
    leaves gives the leaves of the fields. *)
Lemma flattenProps_leaves (prefix : jsstring) (fields : props) :
  distinctKeys fields = true ->
  dotlessKeys fields = true ->
  Forall
    (fun kv =>
       forall result,
         (forall x, In x (keys result) ->
                    ~ extends (joinKey prefix (fst kv)) x) ->
         flattenEntry prefix (fst kv) (snd kv) result
         = result ++ keyed (joinKey prefix (fst kv)) (leavesOf (snd kv)))
    fields ->
  flattenProps fields prefix
  = flat_map
      (fun kv => keyed (joinKey prefix (fst kv)) (leavesOf (snd kv))) fields.
Proof.
  intros Hdist Hdot Hfields. unfold flattenProps.
  assert (Hgen : forall done todo,
             fields = done ++ todo ->
             fold_left
               (fun result kv => flattenEntry prefix (fst kv) (snd kv) result)
               todo
               (flat_map
                  (fun kv => keyed (joinKey prefix (fst kv)) (leavesOf (snd kv)))
                  done)
             = flat_map
                 (fun kv => keyed (joinKey prefix (fst kv)) (leavesOf (snd kv)))
                 (done ++ todo)).
  { intros done todo. revert done.
    induction todo as [|[k w] todo IH]; intros done Hsplit; simpl.
    - now rewrite app_nil_r.
    - assert (Hin : In (k, w) fields)
        by (rewrite Hsplit; apply in_or_app; right; now left).
      rewrite Forall_forall in Hfields. specialize (Hfields _ Hin).
      simpl in Hfields. rewrite Hfields.
      + specialize (IH (done ++ [(k, w)])).
        rewrite flat_map_app in IH. simpl in IH. rewrite app_nil_r in IH.
        rewrite IH by (now rewrite <- app_assoc).
        now rewrite <- app_assoc.
      + intros x Hx [q Hq]. unfold keys in Hx. rewrite flat_map_concat_map in Hx.
        rewrite concat_map, map_map in Hx. apply in_concat in Hx as [l [Hl Hx]].
        apply in_map_iff in Hl as [[k0 w0] [<- Hk0]]. simpl in Hx.
        apply keyed_keys_extend in Hx as [q0 Hq0].
        rewrite Hq0 in Hq. rewrite !joinKey_base, <- !app_assoc in Hq.
        apply app_inv_head in Hq.
        assert (Hk0' : In k0 (map fst done))
          by (change k0 with (fst (k0, w0)); now apply in_map).
        unfold dotlessKeys in Hdot. rewrite forallb_forall in Hdot.
        unfold distinctKeys in Hdist. apply distinct_NoDup in Hdist.
        rewrite Hsplit, map_app in Hdist, Hdot. simpl in Hdist.
        apply dotless_head in Hq.
        * subst k0. apply NoDup_remove_2 in Hdist. apply Hdist.
          apply in_or_app. now left.
        * apply Hdot. apply in_or_app. now left.
        * apply Hdot. apply in_or_app. right. now left. }
  apply (Hgen [] fields). reflexivity.
Qed.

Lemma nestedAll_unfold' (p : props -> bool) (f : props) :
  nestedAll p (Obj f)
  = terminal (Obj f) || (p f && forallb (fun kv => nestedAll p (snd kv)) f).
Proof. reflexivity. Qed.

Lemma nestedAll_Obj (p : props -> bool) (f : props) :
  isLeaf (Obj f) = false ->
  nestedAll p (Obj f) = true ->
  p f = true /\ Forall (fun kv => nestedAll p (snd kv) = true) f.
Proof.
  intros Hleaf H. rewrite <- terminal_isLeaf in Hleaf.
  simpl in H. simpl in Hleaf. rewrite Hleaf in H. simpl in H.
  apply andb_true_iff in H as [Hp Hf]. split; auto.
  apply Forall_forall. now apply forallb_forall.
Qed.

Lemma leaf_flat (prefix key : jsstring) (v : value) (result : props) :
  isLeaf v = true ->
  (forall x, In x (keys result) -> ~ extends (joinKey prefix key) x) ->
  flattenEntry prefix key v result
  = result ++ keyed (joinKey prefix key) (leavesOf v).
Proof.
  intros Hleaf Hfresh. rewrite flattenEntry_unfold, leavesOf_unfold, Hleaf.
  unfold keyed. simpl. rewrite app_nil_r. apply setProp_fresh.
  intros Hin. apply (Hfresh _ Hin). exists []. simpl. now rewrite app_nil_r.
Qed.

Lemma keyed_fieldLeaves (n : jsstring) (f : props) :
  keyed n (fieldLeaves f)
  = flat_map (fun kv => keyed (n ++ dot :: fst kv) (leavesOf (snd kv))) f.
Proof.
  unfold fieldLeaves. induction f as [|[k w] f IH]; simpl; auto.
  unfold keyed at 1. rewrite map_app.
  change (map (fun qx => (n ++ dotted (fst qx), snd qx))
            (flat_map
               (fun kv =>
                  map (fun qx => (fst kv :: fst qx, snd qx))
                    (leavesOf (snd kv))) f))
    with (keyed n
            (flat_map
               (fun kv =>
                  map (fun qx => (fst kv :: fst qx, snd qx))
                    (leavesOf (snd kv))) f)).
  rewrite IH. f_equal. apply keyed_cons.
Qed.

Lemma joinKey_nonempty (n k : jsstring) :
  n <> [] -> joinKey n k = n ++ dot :: k.
Proof. destruct n; [congruence | reflexivity]. Qed.

(** [flattenEntry] appends the leaves of the value, each under the key
    path joined by dots. *)
Lemma nestedAll_weaken (p q : props -> bool) (v : value) :
  (forall f, p f = true -> q f = true) ->
  nestedAll p v = true -> nestedAll q v = true.
Proof.
  intros Hpq. induction v as [| | | | | |f IH] using value_ind; auto.
  rewrite !nestedAll_unfold'. destruct (terminal (Obj f)); auto.
  rewrite !orb_false_l. intros H. apply andb_true_iff in H as [Hp Hall].
  rewrite (Hpq _ Hp). simpl. rewrite forallb_forall in *.
  rewrite Forall_forall in IH. intros kv Hin. apply IH; auto.
Qed.

Lemma good_parts (f : props) :
  good f = true ->
  notEmpty f = true /\ distinctKeys f = true /\ dotlessKeys f = true
  /\ ownNames f = true.
Proof.
  unfold good. rewrite !andb_true_iff. tauto.
Qed.

Lemma good_sound (f : props) : good f = true -> sound f = true.
Proof.
  intros H. apply good_parts in H as [_ [Hd [Hdot _]]].
  unfold sound. now rewrite Hd, Hdot.
Qed.

Lemma flattenEntry_leaves (v : value) :
  nestedAll sound v = true ->
  forall prefix key result,
    joinKey prefix key <> [] \/ isLeaf v = true ->
    (forall x, In x (keys result) -> ~ extends (joinKey prefix key) x) ->
    flattenEntry prefix key v result
    = result ++ keyed (joinKey prefix key) (leavesOf v).
Proof.
  induction v as [| | | | | |f IH] using value_ind;
    intros Hgood prefix key result Hn Hfresh;
    try (now apply leaf_flat).
  destruct (isLeaf (Obj f)) eqn:Hleaf; [now apply leaf_flat|].
  destruct Hn as [Hn|Hn]; [|discriminate].
  destruct (@nestedAll_Obj sound f Hleaf Hgood) as [Hf Hall].
  unfold sound in Hf. apply andb_true_iff in Hf as [Hdist Hdot].
  remember (joinKey prefix key) as n eqn:En.
  assert (Hflat : flattenObject (Obj f) n = keyed n (fieldLeaves f)).
  { unfold flattenObject. simpl ownEnumerable.
    rewrite flattenProps_leaves; auto.
    - rewrite keyed_fieldLeaves. apply flat_map_ext. intros [k w]. simpl.
      now rewrite joinKey_nonempty.
    - rewrite Forall_forall in IH, Hall. apply Forall_forall.
      intros [k w] Hin result' Hfresh'. simpl. apply (IH _ Hin); auto.
      left. rewrite joinKey_nonempty by assumption. now destruct n. }
  rewrite flattenEntry_unfold, leavesOf_unfold, Hleaf, <- En, Hflat.
  apply objectAssign_fresh.
  - rewrite <- Hflat. apply flattenObject_NoDup.
  - intros x Hx Hin. apply (Hfresh _ Hin). now apply keyed_keys_extend in Hx.
Qed.

Lemma flattenObject_top (o : props) :
  distinctKeys o = true ->
  dotlessKeys o = true ->
  plainRoot o = true ->
  Forall (fun kv => nestedAll sound (snd kv) = true) o ->
  flattenObject (Obj o) []
  = flat_map (fun kv => keyed (fst kv) (leavesOf (snd kv))) o.
Proof.
  intros Hdist Hdot Hroot Hall. unfold flattenObject. simpl ownEnumerable.
  rewrite flattenProps_leaves; auto.
  unfold plainRoot in Hroot. rewrite forallb_forall in Hroot.
  rewrite Forall_forall in Hall. apply Forall_forall.
  intros [k w] Hin result Hfresh.
  apply flattenEntry_leaves; [exact (Hall _ Hin) | | exact Hfresh].
  specialize (Hroot _ Hin). simpl in *. destruct k; [|left; discriminate].
  right. now rewrite <- terminal_isLeaf.
Qed.

(** ** Unflattening a list of leaves *)

Lemma unflattenObject_paths (F : props) :
  unflattenObject F
  = foldPaths (Returns (Obj []))
      (map (fun kv => (JsString.split dot (fst kv), snd kv)) F).
Proof.
  unfold unflattenObject, foldPaths. generalize (Returns (Obj [])).
  induction F as [|[k x] F IH]; intros r; simpl; auto.
Qed.

Lemma foldPaths_app (r : outcome value) (E E' : list (list jsstring * value)) :
  foldPaths r (E ++ E') = foldPaths (foldPaths r E) E'.
Proof. apply fold_left_app. Qed.

Lemma foldPaths_failed (r : outcome value) (E : list (list jsstring * value))
  (y : value) :
  foldPaths r E = Returns y -> exists acc, r = Returns acc.
Proof.
  revert r. induction E as [|e E IH]; intros r H; simpl in H.
  - eauto.
  - apply IH in H as [acc H]. destruct r; try discriminate. eauto.
Qed.

Lemma assignPath_object (c : props) (path : list jsstring) (x y : value) :
  path <> [] -> assignPath (Obj c) path x = Returns y -> exists c', y = Obj c'.
Proof.
  destruct path as [|k rest]; [congruence|]. intros _ H. simpl in H.
  destruct rest as [|k' rest].
  - injection H as <-. eauto.
  - destruct (getProp c k) as [own|].
    + destruct (assignPath _ (k' :: rest) x); try discriminate.
      injection H as <-. eauto.
    + destruct (inherited k); [discriminate|].
      destruct (assignPath _ (k' :: rest) x); try discriminate.
      injection H as <-. eauto.
Qed.

Lemma readProp_snoc (a : props) (k : jsstring) (v : value) :
  ~ In k (keys a) -> readProp (a ++ [(k, v)]) k = v.
Proof.
  intros H. rewrite <- setProp_fresh by assumption.
  apply readProp_setProp_same.
Qed.

Lemma setProp_snoc (a : props) (k : jsstring) (v v' : value) :
  ~ In k (keys a) -> setProp (a ++ [(k, v)]) k v' = a ++ [(k, v')].
Proof.
  intros H. induction a as [|[k0 v0] a IH]; simpl.
  - now rewrite jseqb_refl.
  - simpl in H. destruct (JsString.eqb k0 k) eqn:E.
    + apply jseqb_eq in E. tauto.
    + f_equal. apply IH. tauto.
Qed.

(** Leaves below a common first key go into the object under that key. *)
Lemma getProp_snoc (a : props) (k : jsstring) (v : value) :
  ~ In k (keys a) -> getProp (a ++ [(k, v)]) k = Some v.
Proof.
  intros H. rewrite <- setProp_fresh by assumption.
  apply getProp_setProp_same.
Qed.

Lemma foldPaths_descend (E : list (list jsstring * value)) :
  Forall (fun qx => fst qx <> []) E ->
  forall (a : props) (k : jsstring) (c c' : props),
    ~ In k (keys a) ->
    foldPaths (Returns (Obj c)) E = Returns (Obj c') ->
    foldPaths (Returns (Obj (a ++ [(k, Obj c)])))
      (map (fun qx => (k :: fst qx, snd qx)) E)
    = Returns (Obj (a ++ [(k, Obj c')])).
Proof.
  induction 1 as [|[q x] E Hq _ IH]; intros a k c c' Hk H; simpl in *.
  - now injection H as ->.
  - destruct (foldPaths_failed _ _ H) as [y Hy].
    destruct (assignPath_object _ _ Hq Hy) as [c1 ->].
    rewrite Hy in H.
    destruct q as [|k1 q]; [congruence|].
    rewrite getProp_snoc by assumption. simpl truthy. cbv iota.
    rewrite Hy. rewrite setProp_snoc by assumption. now apply IH.
Qed.

Lemma foldPaths_create (E : list (list jsstring * value)) :
  E <> [] ->
  Forall (fun qx => fst qx <> []) E ->
  forall (a : props) (k : jsstring) (c' : props),
    ~ In k (keys a) ->
    inherited k = false ->
    foldPaths (Returns (Obj [])) E = Returns (Obj c') ->
    foldPaths (Returns (Obj a)) (map (fun qx => (k :: fst qx, snd qx)) E)
    = Returns (Obj (a ++ [(k, Obj c')])).
Proof.
  intros Hne Hall a k c' Hk Hown H. destruct E as [|[q x] E]; [congruence|].
  inversion Hall as [|? ? Hq Hall']; subst. simpl in *.
  destruct (foldPaths_failed _ _ H) as [y Hy].
  destruct (assignPath_object _ _ Hq Hy) as [c1 ->].
  rewrite Hy in H.
  destruct q as [|k1 q]; [congruence|].
  assert (Hr : getProp a k = None) by now apply getProp_None_keys.
  rewrite Hr, Hown. rewrite Hy.
  rewrite setProp_fresh by assumption.
  now apply foldPaths_descend.
Qed.

Lemma fieldLeaves_cons (k : jsstring) (w : value) (f : props) :
  fieldLeaves ((k, w) :: f)
  = map (fun qx => (k :: fst qx, snd qx)) (leavesOf w) ++ fieldLeaves f.
Proof. reflexivity. Qed.

(** Unflattening the leaves of fields one after the other adds the
    fields. *)
Lemma foldPaths_fields (f : props) :
  Forall
    (fun kv =>
       forall (a : props) (k : jsstring),
         ~ In k (keys a) ->
         inherited k = false ->
         foldPaths (Returns (Obj a))
           (map (fun qx => (k :: fst qx, snd qx)) (leavesOf (snd kv)))
         = Returns (Obj (a ++ [(k, snd kv)]))) f ->
  ownNames f = true ->
  forall a : props,
    NoDup (keys (a ++ f)) ->
    foldPaths (Returns (Obj a)) (fieldLeaves f) = Returns (Obj (a ++ f)).
Proof.
  induction 1 as [|[k w] f Hw _ IH]; intros Hown a Hnd.
  - simpl. now rewrite app_nil_r.
  - unfold ownNames in Hown. simpl in Hown.
    apply andb_true_iff in Hown as [Hk Hown]. apply negb_true_iff in Hk.
    rewrite fieldLeaves_cons, foldPaths_app. simpl in Hw. rewrite Hw.
    + rewrite (IH Hown); rewrite <- app_assoc; auto.
    + unfold keys in Hnd. rewrite map_app in Hnd. simpl in Hnd.
      apply NoDup_remove_2 in Hnd. intros Hin. apply Hnd.
      apply in_or_app. now left.
    + exact Hk.
Qed.

Lemma leavesOf_nonempty (v : value) :
  nestedAll good v = true -> leavesOf v <> [].
Proof.
  induction v as [| | | | | |f IH] using value_ind; intros Hgood;
    try discriminate.
  rewrite leavesOf_unfold. destruct (isLeaf (Obj f)) eqn:Hleaf;
    [discriminate|].
  destruct (@nestedAll_Obj good f Hleaf Hgood) as [Hf Hall].
  apply good_parts in Hf as [Hne _].
  destruct f as [|[k w] f]; [discriminate|].
  inversion IH as [|? ? Hw _]; inversion Hall as [|? ? Hgw _]; subst.
  rewrite fieldLeaves_cons. simpl in Hw, Hgw.
  destruct (leavesOf w); [now elim Hw|]. discriminate.
Qed.

(** Unflattening the leaves of a value below a new key stores the value
    under that key. *)
Lemma foldPaths_leaves (v : value) :
  nestedAll good v = true ->
  forall (a : props) (k : jsstring),
    ~ In k (keys a) ->
    inherited k = false ->
    foldPaths (Returns (Obj a))
      (map (fun qx => (k :: fst qx, snd qx)) (leavesOf v))
    = Returns (Obj (a ++ [(k, v)])).
Proof.
  assert (Hleaf : forall v0 a k,
             isLeaf v0 = true -> ~ In k (keys a) ->
             foldPaths (Returns (Obj a))
               (map (fun qx => (k :: fst qx, snd qx)) (leavesOf v0))
             = Returns (Obj (a ++ [(k, v0)]))).
  { intros v0 a k Hl Hk. rewrite leavesOf_unfold, Hl. simpl.
    now rewrite setProp_fresh. }
  induction v as [| | | | | |f IH] using value_ind; intros Hgood a k Hk Hown;
    try (now apply Hleaf).
  destruct (isLeaf (Obj f)) eqn:Hl; [now apply Hleaf|].
  assert (Hne := leavesOf_nonempty _ Hgood).
  rewrite leavesOf_unfold, Hl in *.
  destruct (@nestedAll_Obj good f Hl Hgood) as [Hf Hall].
  apply good_parts in Hf as [_ [Hdist [_ Hnames]]].
  apply foldPaths_create; auto.
  - unfold fieldLeaves. apply Forall_forall. intros [q x] Hin.
    apply in_flat_map in Hin as [[k0 w0] [_ Hin]].
    apply in_map_iff in Hin as [[q0 x0] [[= <- <-] _]]. discriminate.
  - apply (foldPaths_fields (f := f)); auto.
    + rewrite Forall_forall in IH, Hall. apply Forall_forall.
      intros kv Hin a0 k0 Hk0 Hown0. apply IH; auto.
    + simpl. now apply distinct_NoDup.
Qed.

Lemma leavesOf_dotless (v : value) :
  nestedAll sound v = true ->
  Forall (fun qx => Forall (fun x => dotless x = true) (fst qx)) (leavesOf v).
Proof.
  induction v as [| | | | | |f IH] using value_ind; intros Hgood;
    try (repeat constructor).
  rewrite leavesOf_unfold. destruct (isLeaf (Obj f)) eqn:Hleaf;
    [repeat constructor|].
  destruct (@nestedAll_Obj sound f Hleaf Hgood) as [Hf Hall].
  unfold sound in Hf. apply andb_true_iff in Hf as [_ Hdot].
  unfold dotlessKeys in Hdot. rewrite forallb_forall in Hdot.
  rewrite Forall_forall in IH, Hall. apply Forall_forall.
  intros [q x] Hin. unfold fieldLeaves in Hin.
  apply in_flat_map in Hin as [[k w] [Hkw Hin]].
  apply in_map_iff in Hin as [[q0 x0] [[= <- <-] Hin]]. simpl.
  constructor.
  - apply Hdot. change k with (fst (k, w)). now apply in_map.
  - specialize (IH _ Hkw (Hall _ Hkw)). rewrite Forall_forall in IH.
    apply (IH _ Hin).
Qed.

Lemma split_keyed (k : jsstring) (v : value) :
  dotless k = true ->
  nestedAll sound v = true ->
  map (fun kv => (JsString.split dot (fst kv), snd kv)) (keyed k (leavesOf v))
  = map (fun qx => (k :: fst qx, snd qx)) (leavesOf v).
Proof.
  intros Hk Hgood. unfold keyed. rewrite map_map. apply map_ext_in.
  intros [q x] Hin. simpl. f_equal. apply split_dotless; auto.
  apply leavesOf_dotless in Hgood. rewrite Forall_forall in Hgood.
  apply (Hgood _ Hin).
Qed.

Lemma nestedAll_unfold (p : props -> bool) (f : props) :
  nestedAll p (Obj f)
  = terminal (Obj f) || (p f && forallb (fun kv => nestedAll p (snd kv)) f).
Proof. reflexivity. Qed.

Lemma ordinary_parts (k : jsstring) :
  ordinary k = true ->
  dotless k = true /\ isArrayIndex k = false /\ inherited k = false.
Proof.
  unfold ordinary. rewrite !andb_true_iff, !negb_true_iff. tauto.
Qed.

Lemma ordinaryKeys_dotless (f : props) :
  ordinaryKeys f = true -> dotlessKeys f = true.
Proof.
  unfold ordinaryKeys, dotlessKeys. rewrite !forallb_forall.
  intros H k Hk. now apply ordinary_parts, H.
Qed.

Lemma ordinaryKeys_own (f : props) :
  ordinaryKeys f = true -> ownNames f = true.
Proof.
  unfold ordinaryKeys, ownNames. rewrite !forallb_forall.
  intros H k Hk. apply negb_true_iff. now apply ordinary_parts, H.
Qed.

Lemma nestedAll_and (p q r : props -> bool) (v : value) :
  (forall f, p f = true -> q f = true -> r f = true) ->
  nestedAll p v = true -> nestedAll q v = true -> nestedAll r v = true.
Proof.
  intros Hr. induction v as [| | | | | |f IH] using value_ind; auto.
  rewrite !nestedAll_unfold. destruct (terminal (Obj f)); auto.
  rewrite !orb_false_l. intros H1 H2.
  apply andb_true_iff in H1 as [H1 H1'].
  apply andb_true_iff in H2 as [H2 H2'].
  rewrite (Hr _ H1 H2). simpl. rewrite forallb_forall in *.
  rewrite Forall_forall in IH. intros kv Hin. apply IH; auto.
Qed.

Lemma nestedAll_sound (v : value) :
  nestedAll distinctKeys v = true ->
  nestedAll ordinaryKeys v = true ->
  nestedAll sound v = true.
Proof.
  apply nestedAll_and. intros f Hd Ho. unfold sound.
  now rewrite Hd, (ordinaryKeys_dotless _ Ho).
Qed.


End RoundTrip.

(** The round trip on a tree whose nested objects are [good]. *)
Lemma unflatten_flatten_good (o : props) :
  distinctKeys o = true ->
  dotlessKeys o = true ->
  ownNames o = true ->
  plainRoot o = true ->
  Forall (fun kv => nestedAll good (snd kv) = true) o ->
  unflattenObject (flattenObject (Obj o) []) = Returns (Obj o).
Proof.
  intros Hdist Hdot Hown Hroot Hgood.
  assert (Hsound : Forall (fun kv => nestedAll sound (snd kv) = true) o).
  { eapply Forall_impl; [|exact Hgood]. intros kv.
    apply nestedAll_weaken, good_sound. }
  rewrite flattenObject_top, unflattenObject_paths by assumption.
  assert (Hpaths :
            map (fun kv => (JsString.split dot (fst kv), snd kv))
              (flat_map (fun kv => keyed (fst kv) (leavesOf (snd kv))) o)
            = fieldLeaves o).
  { unfold fieldLeaves. unfold dotlessKeys in Hdot.
    clear Hdist Hroot Hown Hgood.
    induction Hsound as [|[k w] o Hw _ IH]; simpl; auto.
    simpl in Hdot. apply andb_true_iff in Hdot as [Hk Hdot].
    rewrite map_app, IH by assumption. f_equal. now apply split_keyed. }
  rewrite Hpaths.
  assert (Hfold : forall a : props,
             NoDup (keys (a ++ o)) ->
             foldPaths (Returns (Obj a)) (fieldLeaves o)
             = Returns (Obj (a ++ o))).
  { apply foldPaths_fields; auto. rewrite Forall_forall in Hgood.
    apply Forall_forall. intros kv Hin a k Hk Hk'.
    apply foldPaths_leaves; auto. }
  apply (Hfold []). simpl. now apply distinct_NoDup.
Qed.




Example unflatten_flatten_empty_root_key :
  unflattenObject
    (flattenObject (Obj [([], Obj [(str "b", Num 1)])]) [])
  = Returns (Obj [(str "b", Num 1)]).
Proof. reflexivity. Qed.

(** A nested object under the key [constructor]: its keys hold no dot, and
    the path of its leaf goes through the member that the result inherits
    under that name. *)
Example unflatten_flatten_inherited_key :
  treeAll dotlessKeys
    [(str "title", Str (str "Ana"));
     (str "constructor", Obj [(str "title", Str (str "Yapi"))])] = true
  /\ unflattenObject
       (flattenObject
          (Obj [(str "title", Str (str "Ana"));
                (str "constructor", Obj [(str "title", Str (str "Yapi"))])])
          [])
     = Unmodelled.
Proof. split; reflexivity. Qed.

(* ================================================================== *)
(** * Unflattening keys without a dot, and a key that continues another *)

Lemma foldPaths_single (F : props) :
  forall a : props,
    NoDup (keys (a ++ F)) ->
    foldPaths (Returns (Obj a)) (map (fun kv => ([fst kv], snd kv)) F)
    = Returns (Obj (a ++ F)).
Proof.
  induction F as [|[k v] F IH]; intros a Hnd.
  - simpl. now rewrite app_nil_r.
  - unfold foldPaths in *. cbn [map fold_left stepPath fst snd assignPath].
    assert (Hk : ~ In k (keys a)).
    { unfold keys in *. rewrite map_app in Hnd. simpl in Hnd.
      apply NoDup_remove_2 in Hnd. intros H. apply Hnd.
      apply in_or_app. now left. }
    rewrite setProp_fresh by exact Hk.
    rewrite IH; rewrite <- app_assoc; auto.
Qed.

(** X8. A flat object whose keys hold no dot comes back from
    [unflattenObject] as it is: no key is split, no value is entered. *)
Theorem unflatten_dotless :
  forall F : props,
    distinctKeys F = true ->
    dotlessKeys F = true ->
    unflattenObject F = Returns (Obj F).
Proof.
  intros F Hd Hdot. rewrite unflattenObject_paths.
  assert (Hsplit :
            map (fun kv => (JsString.split dot (fst kv), snd kv)) F
            = map (fun kv => ([fst kv], snd kv)) F).
  { unfold dotlessKeys in Hdot. rewrite forallb_forall in Hdot.
    apply map_ext_in. intros [k v] Hin. simpl. f_equal.
    apply split_single. apply Hdot. apply in_map_iff. now exists (k, v). }
  rewrite Hsplit. apply (foldPaths_single F []).
  simpl. now apply distinct_NoDup.
Qed.

Lemma unflatten_dotless_witness :
  unflattenObject
    [(str "title", entry (Str (str "Baslik")) (md5 (str "Baslik")));
     (str "count", Num 3); (str "tags", Arr [Null; Bool true])]
  = Returns
      (Obj [(str "title", entry (Str (str "Baslik")) (md5 (str "Baslik")));
            (str "count", Num 3); (str "tags", Arr [Null; Bool true])]).
Proof.
  apply unflatten_dotless; reflexivity.
Defined.

(** X9. A key that continues an earlier key after a dot: when the earlier
    value is an object (a Translation Entry too), the later value is stored
    inside it; when it is falsy (null, false, zero, the empty string), it is
    replaced by a new object and lost; when it is any other primitive,
    [unflattenObject] throws. *)
Theorem unflatten_continued_key :
  forall (k k2 : jsstring) (v x : value),
    dotless k = true ->
    dotless k2 = true ->
    match v with Arr _ => False | _ => True end ->
    unflattenObject [(k, v); (k ++ dot :: k2, x)]
    = match v with
      | Obj c => Returns (Obj [(k, Obj (setProp c k2 x))])
      | _ =>
          if truthy v then Throws
          else Returns (Obj [(k, Obj [(k2, x)])])
      end.
Proof.
  intros k k2 v x Hk Hk2 Harr. unfold unflattenObject.
  cbn [fold_left fst snd].
  rewrite split_single by exact Hk.
  rewrite split_at_dot, split_single by assumption.
  cbn [assignPath setProp]. unfold readProp. cbn [getProp].
  rewrite jseqb_refl.
  destruct v as [| |b|bits|s|items|c]; try contradiction; cbn [truthy];
    try reflexivity.
  - destruct b; reflexivity.
  - destruct (negb _ && _); reflexivity.
  - destruct s; reflexivity.
Qed.

Lemma unflatten_continued_key_witness :
  unflattenObject
    [(str "a", entry (Str (str "x")) (md5 (str "x")));
     (str "a" ++ dot :: str "b", Num 1)]
  = Returns
      (Obj [(str "a",
             Obj (setProp
                    [(translationKey, Str (str "x"));
                     (sourceHashKey, Str (md5 (str "x")))]
                    (str "b") (Num 1)))]).
Proof.
  apply (@unflatten_continued_key (str "a") (str "b")
           (entry (Str (str "x")) (md5 (str "x"))) (Num 1));
    [reflexivity|reflexivity|exact I].
Defined.

(* ================================================================== *)
(** * Flattening under a prefix *)

Section Rekey.
Variable phi : jsstring -> jsstring.
Variable psi : jsstring -> value -> value.
Hypothesis phi_inj : forall a b, phi a = phi b -> a = b.

Lemma jseqb_phi (a b : jsstring) :
  JsString.eqb (phi a) (phi b) = JsString.eqb a b.
Proof.
  destruct (JsString.eqb a b) eqn:E.
  - apply jseqb_eq in E. subst. apply jseqb_refl.
  - apply jseqb_neq. apply jseqb_neq in E. intros H. now apply E, phi_inj.
Qed.

Lemma setProp_rekey (r : props) (k : jsstring) (v : value) :
  setProp (rekey phi psi r) (phi k) (psi k v) = rekey phi psi (setProp r k v).
Proof.
  unfold rekey. induction r as [|[k' v'] r IH]; simpl; auto.
  rewrite jseqb_phi. destruct (JsString.eqb k' k) eqn:E; simpl.
  - apply jseqb_eq in E. now subst.
  - now rewrite IH.
Qed.

Lemma objectAssign_rekey (target source : props) :
  objectAssign (rekey phi psi target) (rekey phi psi source)
  = rekey phi psi (objectAssign target source).
Proof.
  unfold objectAssign. revert target.
  induction source as [|[k v] source IH]; intros target; simpl; auto.
  rewrite setProp_rekey. apply IH.
Qed.

End Rekey.

Lemma under_inj (p a b : jsstring) : under p a = under p b -> a = b.
Proof.
  unfold under. intros H. apply app_inv_head in H. now injection H.
Qed.

Lemma joinKey_under (p q key : jsstring) :
  p <> [] -> joinKey (underPrefix p q) key = under p (joinKey q key).
Proof.
  intros Hp. destruct q as [|c q]; cbn [underPrefix].
  - now apply joinKey_nonempty.
  - rewrite joinKey_nonempty by (unfold under; now destruct p).
    unfold under. cbn [joinKey]. rewrite <- app_assoc. reflexivity.
Qed.

Lemma underPrefix_nonempty (p n : jsstring) :
  n <> [] -> underPrefix p n = under p n.
Proof. destruct n; [congruence|reflexivity]. Qed.

Lemma fold_flattenEntry_under (p : jsstring) (fields : props) :
  Forall
    (fun kv =>
       forall q key result,
         joinKey q key <> [] \/ isLeaf (snd kv) = true ->
         flattenEntry (underPrefix p q) key (snd kv)
           (rekey (under p) (fun _ v => v) result)
         = rekey (under p) (fun _ v => v) (flattenEntry q key (snd kv) result))
    fields ->
  forall (n : jsstring) (acc : props),
    n <> [] ->
    fold_left (fun r kv => flattenEntry (under p n) (fst kv) (snd kv) r)
      fields (rekey (under p) (fun _ v => v) acc)
    = rekey (under p) (fun _ v => v)
        (fold_left (fun r kv => flattenEntry n (fst kv) (snd kv) r)
           fields acc).
Proof.
  induction 1 as [|[k w] fields Hw _ IH]; intros n acc Hn; simpl; auto.
  rewrite <- IH by exact Hn. f_equal.
  rewrite <- (underPrefix_nonempty p Hn). apply Hw.
  left. rewrite joinKey_nonempty by exact Hn. now destruct n.
Qed.

Lemma flattenEntry_under (p : jsstring) (v : value) :
  p <> [] ->
  forall q key result,
    joinKey q key <> [] \/ isLeaf v = true ->
    flattenEntry (underPrefix p q) key v
      (rekey (under p) (fun _ v => v) result)
    = rekey (under p) (fun _ v => v) (flattenEntry q key v result).
Proof.
  intros Hp. induction v as [| | | | | |fields IH] using value_ind;
    intros q key result Hq;
    try (rewrite !flattenEntry_unfold; cbn [isLeaf isTranslationEntry orb];
         rewrite joinKey_under by exact Hp;
         apply (setProp_rekey (under p) (fun _ v => v) (@under_inj p));
         fail).
  rewrite !flattenEntry_unfold. rewrite joinKey_under by exact Hp.
  destruct (isLeaf (Obj fields)) eqn:Hleaf.
  - apply (setProp_rekey (under p) (fun _ v => v) (@under_inj p)).
  - destruct Hq as [Hq|Hq]; [|discriminate].
    rewrite <- (objectAssign_rekey (under p) (fun _ v => v) (@under_inj p)).
    f_equal. unfold flattenObject, flattenProps. cbn [ownEnumerable].
    apply (@fold_flattenEntry_under p fields IH (joinKey q key) [] Hq).
Qed.

(** X10. Flattening under a prefix is flattening without one and putting
    the prefix and a dot before every key, for a value that has no nested
    object under the empty key. *)
Theorem flatten_under_prefix :
  forall (v : value) (prefix : jsstring),
    prefix <> [] ->
    plainRoot (ownEnumerable v) = true ->
    flattenObject v prefix
    = map (fun kv => (prefix ++ dot :: fst kv, snd kv)) (flattenObject v []).
Proof.
  intros v prefix Hp Hroot.
  change (flattenObject v prefix
          = rekey (under prefix) (fun _ v => v) (flattenObject v [])).
  unfold flattenObject, flattenProps.
  assert (Hgen : forall fields acc,
             plainRoot fields = true ->
             fold_left
               (fun result kv =>
                  flattenEntry prefix (fst kv) (snd kv) result)
               fields (rekey (under prefix) (fun _ v => v) acc)
             = rekey (under prefix) (fun _ v => v)
                 (fold_left
                    (fun result kv =>
                       flattenEntry [] (fst kv) (snd kv) result)
                    fields acc)).
  { induction fields as [|[k w] fields IH]; intros acc Hr; simpl; auto.
    unfold plainRoot in Hr. simpl in Hr.
    apply andb_true_iff in Hr as [Hk Hr].
    rewrite <- IH by exact Hr. f_equal.
    apply (@flattenEntry_under prefix w Hp [] k acc).
    destruct k as [|c k]; [right|left; discriminate].
    now rewrite <- terminal_isLeaf. }
  apply (Hgen (ownEnumerable v) [] Hroot).
Qed.

Lemma flatten_under_prefix_witness :
  flattenObject
    (Obj [(str "open", Str (str "Ac"));
          (str "file", Obj [(str "count", Num 3)])]) (str "menu")
  = map (fun kv => (str "menu" ++ dot :: fst kv, snd kv))
      (flattenObject
         (Obj [(str "open", Str (str "Ac"));
               (str "file", Obj [(str "count", Num 3)])]) []).
Proof.
  apply flatten_under_prefix; [discriminate|reflexivity].
Defined.

(** Without the condition the keys differ: under the empty key, the keys
    of a nested object get no prefix of their own at the top, and a dot
    under a prefix. *)
Example flatten_under_prefix_empty_key :
  flattenObject (Obj [([], Obj [(str "b", Num 1)])]) (str "p")
  = [(str "p..b", Num 1)]
  /\ flattenObject (Obj [([], Obj [(str "b", Num 1)])]) []
     = [(str "b", Num 1)].
Proof. vm_compute. auto. Qed.

(* ================================================================== *)
(** * A tree with other leaves *)

Lemma retag_unfold (g : jsstring -> value) (n : jsstring) (v : value) :
  retag g n v
  = if isLeaf v then g n
    else match v with
         | Obj o => Obj (retagFields g n o)
         | _ => g n
         end.
Proof.
  destruct v as [| | | | | |fields]; try reflexivity.
  unfold isLeaf. rewrite orb_false_r. cbn [retag].
  destruct (isTranslationEntry (Obj fields)); auto.
  f_equal. unfold retagFields.
  induction fields as [|[k w] fields IH]; simpl; auto. now rewrite IH.
Qed.

Lemma retagFields_keys (g : jsstring -> value) (n : jsstring) (o : props) :
  map fst (retagFields g n o) = map fst o.
Proof. unfold retagFields. rewrite map_map. reflexivity. Qed.

Lemma isLeaf_keys (o o' : props) :
  map fst o = map fst o' -> isLeaf (Obj o) = isLeaf (Obj o').
Proof.
  intros H. unfold isLeaf, isTranslationEntry.
  now rewrite !hasProp_existsb, H.
Qed.

Lemma isLeaf_nestedAll (p : props -> bool) (v : value) :
  isLeaf v = true -> nestedAll p v = true.
Proof.
  intros H. destruct v; auto. rewrite nestedAll_unfold.
  now rewrite terminal_isLeaf, H.
Qed.

Section Retag.
Variable g : jsstring -> value.
Hypothesis g_leaf : forall k, isLeaf (g k) = true.

Lemma fold_flattenEntry_retag (fields : props) :
  Forall
    (fun kv =>
       forall prefix key result,
         flattenEntry prefix key (retag g (joinKey prefix key) (snd kv))
           (rekey (fun k => k) (fun k _ => g k) result)
         = rekey (fun k => k) (fun k _ => g k)
             (flattenEntry prefix key (snd kv) result)) fields ->
  forall (n : jsstring) (acc : props),
    fold_left (fun r kv => flattenEntry n (fst kv) (snd kv) r)
      (retagFields g n fields) (rekey (fun k => k) (fun k _ => g k) acc)
    = rekey (fun k => k) (fun k _ => g k)
        (fold_left (fun r kv => flattenEntry n (fst kv) (snd kv) r)
           fields acc).
Proof.
  induction 1 as [|[k w] fields Hw _ IH]; intros n acc; simpl; auto.
  rewrite <- IH. f_equal. apply Hw.
Qed.

Lemma flattenEntry_retag (v : value) :
  forall prefix key result,
    flattenEntry prefix key (retag g (joinKey prefix key) v)
      (rekey (fun k => k) (fun k _ => g k) result)
    = rekey (fun k => k) (fun k _ => g k) (flattenEntry prefix key v result).
Proof.
  assert (Hset : forall result k v0,
             setProp (rekey (fun k => k) (fun k _ => g k) result) k (g k)
             = rekey (fun k => k) (fun k _ => g k) (setProp result k v0)).
  { intros result k v0.
    apply (setProp_rekey (fun k => k) (fun k _ => g k)). auto. }
  induction v as [| | | | | |fields IH] using value_ind;
    intros prefix key result;
    try (rewrite retag_unfold, !flattenEntry_unfold;
         cbn [isLeaf isTranslationEntry orb]; rewrite g_leaf; apply Hset;
         fail).
  rewrite retag_unfold, (flattenEntry_unfold prefix key (Obj fields)).
  destruct (isLeaf (Obj fields)) eqn:Hleaf.
  - rewrite flattenEntry_unfold, g_leaf. apply Hset.
  - rewrite flattenEntry_unfold.
    rewrite (isLeaf_keys _ fields (retagFields_keys g _ fields)), Hleaf.
    rewrite <- (objectAssign_rekey (fun k => k) (fun k _ => g k))
      by auto.
    f_equal. unfold flattenObject, flattenProps. cbn [ownEnumerable].
    apply (@fold_flattenEntry_retag fields IH (joinKey prefix key) []).
Qed.

Lemma flattenObject_retag (o : props) :
  flattenObject (Obj (retagFields g [] o)) []
  = rekey (fun k => k) (fun k _ => g k) (flattenObject (Obj o) []).
Proof.
  unfold flattenObject, flattenProps. cbn [ownEnumerable].
  assert (Hall : Forall
                   (fun kv =>
                      forall prefix key result,
                        flattenEntry prefix key
                          (retag g (joinKey prefix key) (snd kv))
                          (rekey (fun k => k) (fun k _ => g k) result)
                        = rekey (fun k => k) (fun k _ => g k)
                            (flattenEntry prefix key (snd kv) result)) o).
  { apply Forall_forall. intros kv _. apply flattenEntry_retag. }
  apply (@fold_flattenEntry_retag o Hall [] []).
Qed.

Lemma nestedAll_retag (p : props -> bool) (v : value) :
  (forall o o', map fst o = map fst o' -> p o = p o') ->
  nestedAll p v = true ->
  forall n, nestedAll p (retag g n v) = true.
Proof.
  intros Hp. induction v as [| | | | | |fields IH] using value_ind;
    intros Hv n;
    try (rewrite retag_unfold; cbn [isLeaf isTranslationEntry orb];
         apply isLeaf_nestedAll, g_leaf; fail).
  rewrite retag_unfold. destruct (isLeaf (Obj fields)) eqn:Hleaf.
  - apply isLeaf_nestedAll, g_leaf.
  - rewrite nestedAll_unfold in *.
    rewrite terminal_isLeaf, Hleaf in Hv. simpl in Hv.
    apply andb_true_iff in Hv as [Hpf Hall].
    rewrite (Hp _ fields (retagFields_keys g n fields)), Hpf.
    rewrite orb_true_iff. right. simpl.
    unfold retagFields. rewrite forallb_forall in *.
    rewrite Forall_forall in IH.
    intros kv Hin. apply in_map_iff in Hin as [[k w] [<- Hin]]. simpl.
    apply (IH _ Hin). exact (Hall _ Hin).
Qed.

Lemma good_keys (o o' : props) : map fst o = map fst o' -> good o = good o'.
Proof.
  intros H. unfold good, distinctKeys, dotlessKeys, ownNames. rewrite H.
  destruct o, o'; try discriminate; reflexivity.
Qed.

Lemma plainRoot_retag (o : props) :
  plainRoot o = true -> plainRoot (retagFields g [] o) = true.
Proof.
  unfold plainRoot, retagFields. rewrite !forallb_forall.
  intros H kv Hin. apply in_map_iff in Hin as [[k w] [<- Hin]].
  specialize (H _ Hin). simpl in *. destruct k; auto.
  rewrite terminal_isLeaf in *. rewrite retag_unfold, H. apply g_leaf.
Qed.

End Retag.

(** Flattening and unflattening a tree with other leaves. *)
Lemma unflatten_retagged (g : jsstring -> value) (o : props) :
  (forall k, isLeaf (g k) = true) ->
  distinctKeys o = true ->
  dotlessKeys o = true ->
  ownNames o = true ->
  plainRoot o = true ->
  Forall (fun kv => nestedAll good (snd kv) = true) o ->
  unflattenObject
    (rekey (fun k => k) (fun k _ => g k) (flattenObject (Obj o) []))
  = Returns (Obj (retagFields g [] o)).
Proof.
  intros Hg Hdist Hdot Hown Hroot Hgood.
  rewrite <- (flattenObject_retag g Hg).
  apply unflatten_flatten_good.
  - unfold distinctKeys. now rewrite retagFields_keys.
  - unfold dotlessKeys. now rewrite retagFields_keys.
  - unfold ownNames. now rewrite retagFields_keys.
  - now apply plainRoot_retag.
  - unfold retagFields. apply Forall_forall. intros kv Hin.
    apply in_map_iff in Hin as [[k w] [<- Hin]]. simpl.
    apply nestedAll_retag; auto using good_keys.
    rewrite Forall_forall in Hgood. exact (Hgood _ Hin).
Qed.

(* ================================================================== *)
(** * Flattening is the depth-first walk *)














(** Two leaves with the same key are one entry of the result, with the
    value of the later one at the place of the earlier one: the condition
    of the theorem cannot be left out. *)
Example flattenObject_same_key_twice :
  flattenObject
    (Obj [(str "a.b", Num 1); (str "c", Num 2);
          (str "a", Obj [(str "b", Num 3)])]) []
  = [(str "a.b", Num 3); (str "c", Num 2)].
Proof. reflexivity. Qed.

(* ================================================================== *)
(** * Unflattening a part of a flattened tree *)

Lemma select_app (g : jsstring -> option value) (a b : props) :
  select g (a ++ b) = select g a ++ select g b.
Proof. apply flat_map_app. Qed.

Lemma select_flat_map (A : Type) (g : jsstring -> option value)
  (h : A -> props) (l : list A) :
  select g (flat_map h l) = flat_map (fun a => select g (h a)) l.
Proof.
  induction l as [|a l IH]; simpl; auto. now rewrite select_app, IH.
Qed.

Lemma select_keys (g : jsstring -> option value) (F : props) :
  keys (select g F) = filter (chosen g) (keys F).
Proof.
  unfold select, keys, chosen.
  induction F as [|[k v] F IH]; simpl; auto.
  rewrite map_app, IH. now destruct (g k).
Qed.

Lemma select_get (g : jsstring -> option value) (F : props) (k : jsstring) :
  In k (keys F) -> getProp (select g F) k = g k.
Proof.
  unfold select, keys. induction F as [|[k' v] F IH]; simpl; [easy|].
  intros Hin. destruct (JsString.eqb k' k) eqn:E.
  - apply jseqb_eq in E. subst k'. destruct (g k) as [x|] eqn:Eg; simpl.
    + now rewrite jseqb_refl.
    + destruct Hin as [_|Hin].
      * clear IH. induction F as [|[k2 v2] F IHF]; simpl; auto.
        destruct (g k2) eqn:E2; simpl; auto.
        destruct (JsString.eqb k2 k) eqn:E3; auto.
        apply jseqb_eq in E3. congruence.
      * auto.
  - apply jseqb_neq in E. destruct Hin as [Hin|Hin]; [congruence|].
    destruct (g k') as [x|]; simpl; auto.
    apply jseqb_neq in E. now rewrite E; auto.
Qed.

Lemma prune_unfold (g : jsstring -> option value) (n : jsstring) (v : value) :
  prune g n v
  = if isLeaf v then g n
    else match v with
         | Obj o =>
             match pruneFields g n o with
             | [] => None
             | f :: fs => Some (Obj (f :: fs))
             end
         | _ => g n
         end.
Proof.
  destruct v as [| | | | | |fields]; try reflexivity.
  unfold isLeaf. rewrite orb_false_r. cbn [prune].
  destruct (isTranslationEntry (Obj fields)); auto.
  replace ((fix fields0 (ps : props) : props :=
              match ps with
              | [] => []
              | (k, w) :: ps' =>
                  match prune g (joinKey n k) w with
                  | Some w' => (k, w') :: fields0 ps'
                  | None => fields0 ps'
                  end
              end) fields)
    with (pruneFields g n fields); auto.
  unfold pruneFields. induction fields as [|[k w] fields IH]; simpl; auto.
  rewrite IH. now destruct (prune g (joinKey n k) w).
Qed.

Lemma pruneFields_cons (g : jsstring -> option value) (n k : jsstring)
  (w : value) (o : props) :
  pruneFields g n ((k, w) :: o)
  = match prune g (joinKey n k) w with
    | Some w' => (k, w') :: pruneFields g n o
    | None => pruneFields g n o
    end.
Proof.
  unfold pruneFields. simpl. now destruct (prune g (joinKey n k) w).
Qed.

Lemma pruneFields_keys (g : jsstring -> option value) (n : jsstring)
  (o : props) :
  map fst (pruneFields g n o) = map fst (filter (kept g n) o).
Proof.
  unfold pruneFields, kept. induction o as [|[k w] o IH]; simpl; auto.
  destruct (prune g (joinKey n k) w); simpl; now rewrite IH.
Qed.

Lemma filter_keys_incl (f : jsstring * value -> bool) (o : props)
  (k : jsstring) :
  In k (map fst (filter f o)) -> In k (map fst o).
Proof.
  intros H. apply in_map_iff in H as [kv [<- Hin]].
  apply filter_In in Hin as [Hin _]. now apply in_map.
Qed.

Lemma NoDup_distinct (l : list jsstring) : NoDup l -> distinct l = true.
Proof.
  induction 1 as [|k l Hk _ IH]; simpl; auto.
  rewrite IH, andb_true_r. apply negb_true_iff.
  destruct (existsb (JsString.eqb k) l) eqn:E; auto.
  apply existsb_eqb_In in E. contradiction.
Qed.

Lemma NoDup_filter_keys (f : jsstring * value -> bool) (o : props) :
  NoDup (map fst o) -> NoDup (map fst (filter f o)).
Proof.
  induction o as [|[k v] o IH]; simpl; intros H; [constructor|].
  inversion H as [|? ? Hk Hnd]; subst.
  destruct (f (k, v)); simpl; auto.
  constructor; auto. intros Hin. apply Hk.
  now apply filter_keys_incl in Hin.
Qed.

Lemma forallb_filter_keys (p : jsstring -> bool)
  (f : jsstring * value -> bool) (o : props) :
  forallb p (map fst o) = true -> forallb p (map fst (filter f o)) = true.
Proof.
  rewrite !forallb_forall. intros H k Hin.
  apply H. now apply filter_keys_incl in Hin.
Qed.

Lemma fit_parts (f : props) :
  fit f = true ->
  distinctKeys f = true /\ dotlessKeys f = true /\ ownNames f = true.
Proof. unfold fit. rewrite !andb_true_iff. tauto. Qed.

Lemma fit_sound (f : props) : fit f = true -> sound f = true.
Proof.
  intros H. apply fit_parts in H as [Hd [Hdot _]].
  unfold sound. now rewrite Hd, Hdot.
Qed.

Lemma fit_filter (f : props) (p : jsstring * value -> bool) (f' : props) :
  map fst f' = map fst (filter p f) ->
  fit f = true -> f' <> [] -> good f' = true.
Proof.
  intros Hk Hfit Hne. apply fit_parts in Hfit as [Hd [Hdot Hown]].
  unfold good, distinctKeys, dotlessKeys, ownNames in *. rewrite Hk.
  rewrite (forallb_filter_keys _ p f Hdot).
  rewrite (forallb_filter_keys _ p f Hown).
  rewrite NoDup_distinct
    by (apply NoDup_filter_keys; now apply distinct_NoDup).
  destruct f'; [congruence|reflexivity].
Qed.

Lemma isLeaf_filter (f : props) (p : jsstring * value -> bool) (f' : props) :
  map fst f' = map fst (filter p f) ->
  isLeaf (Obj f) = false -> isLeaf (Obj f') = false.
Proof.
  intros Hk. unfold isLeaf, isTranslationEntry.
  rewrite !orb_false_r, !hasProp_existsb, Hk. intros H.
  apply andb_false_iff in H. apply andb_false_iff.
  assert (Hsub : forall k,
             existsb (JsString.eqb k) (map fst f) = false ->
             existsb (JsString.eqb k) (map fst (filter p f)) = false).
  { intros k Hf. destruct (existsb _ (map fst (filter p f))) eqn:E; auto.
    apply existsb_eqb_In in E. apply filter_keys_incl in E.
    apply existsb_eqb_In in E. congruence. }
  destruct H as [H|H]; [left|right]; now apply Hsub.
Qed.

Section Prune.
Variable g : jsstring -> option value.
Hypothesis g_leaf : forall k x, g k = Some x -> isLeaf x = true.

Lemma keyed_leaf (n : jsstring) (x : value) :
  isLeaf x = true -> keyed n (leavesOf x) = [(n, x)].
Proof.
  intros H. rewrite leavesOf_unfold, H. unfold keyed. simpl.
  now rewrite app_nil_r.
Qed.

(** The leaves of a pruned value are the chosen leaves of the value. *)
Lemma prune_leaves (v : value) :
  nestedAll fit v = true ->
  forall n : jsstring,
    n <> [] \/ isLeaf v = true ->
    match prune g n v with
    | Some v' =>
        keyed n (leavesOf v') = select g (keyed n (leavesOf v))
        /\ nestedAll good v' = true
        /\ (isLeaf v = true -> isLeaf v' = true)
    | None => select g (keyed n (leavesOf v)) = []
    end.
Proof.
  assert (Hleaf : forall v0 n,
             isLeaf v0 = true ->
             match prune g n v0 with
             | Some v' =>
                 keyed n (leavesOf v') = select g (keyed n (leavesOf v0))
                 /\ nestedAll good v' = true
                 /\ (isLeaf v0 = true -> isLeaf v' = true)
             | None => select g (keyed n (leavesOf v0)) = []
             end).
  { intros v0 n Hl. rewrite prune_unfold, Hl, (@keyed_leaf n v0 Hl).
    unfold select. simpl. destruct (g n) as [x|] eqn:Eg; auto.
    pose proof (g_leaf Eg) as Hx. rewrite (@keyed_leaf n x Hx).
    repeat split; auto. now apply isLeaf_nestedAll. }
  induction v as [| | | | | |f IH] using value_ind; intros Hfit n Hn;
    try (now apply Hleaf).
  assert (Hcases : isLeaf (Obj f) = true \/ isLeaf (Obj f) = false)
    by (destruct (isLeaf (Obj f)); auto).
  destruct Hcases as [Hl|Hl]; [now apply Hleaf|].
  destruct Hn as [Hn|Hn]; [|congruence].
  destruct (@nestedAll_Obj fit f Hl Hfit) as [Hf Hall].
  rewrite prune_unfold, Hl, leavesOf_unfold, Hl, keyed_fieldLeaves.
  rewrite select_flat_map.
  assert (Hfields :
            flat_map
              (fun kv =>
                 keyed (n ++ dot :: fst kv) (leavesOf (snd kv)))
              (pruneFields g n f)
            = flat_map
                (fun kv =>
                   select g (keyed (n ++ dot :: fst kv) (leavesOf (snd kv))))
                f
            /\ Forall (fun kv => nestedAll good (snd kv) = true)
                 (pruneFields g n f)).
  { clear Hf Hl Hfit.
    induction IH as [|[k w] f Hw _ IHf]; [split; [reflexivity|constructor]|].
    inversion Hall as [|? ? Hfw Hall']; subst. simpl in Hw, Hfw.
    destruct (IHf Hall') as [IH1 IH2]. rewrite pruneFields_cons.
    assert (Hk : joinKey n k <> [])
      by (rewrite joinKey_nonempty by exact Hn; now destruct n).
    specialize (Hw Hfw (joinKey n k) (or_introl Hk)).
    rewrite joinKey_nonempty in Hw by exact Hn.
    rewrite joinKey_nonempty by exact Hn.
    destruct (prune g (n ++ dot :: k) w) as [w'|].
    - destruct Hw as [Hw1 [Hw2 _]]. cbn [flat_map app fst snd].
      rewrite Hw1, IH1. split; auto.
    - cbn [flat_map app fst snd]. rewrite Hw, IH1. split; auto. }
  destruct Hfields as [Hfields Hgoods].
  destruct (pruneFields g n f) as [|kv f'] eqn:Ep.
  - simpl in Hfields. now rewrite <- Hfields.
  - assert (Hkeys : map fst (kv :: f') = map fst (filter (kept g n) f))
      by (rewrite <- Ep; apply pruneFields_keys).
    assert (Hl' : isLeaf (Obj (kv :: f')) = false)
      by (now apply (isLeaf_filter f (kept g n))).
    rewrite leavesOf_unfold, Hl', keyed_fieldLeaves.
    split; [exact Hfields|]. split; [|congruence].
    rewrite nestedAll_unfold, terminal_isLeaf, Hl'. simpl orb.
    rewrite (@fit_filter f (kept g n) (kv :: f') Hkeys Hf)
      by discriminate.
    rewrite andb_true_l.
    change (forallb (fun kv0 => nestedAll good (snd kv0)) (kv :: f') = true).
    apply forallb_forall. rewrite Forall_forall in Hgoods. auto.
Qed.

(** A part of a flattened tree is the flattened pruned tree, and
    unflattening it returns the pruned tree. *)
Lemma unflatten_select (o : props) :
  fit o = true ->
  plainRoot o = true ->
  Forall (fun kv => nestedAll fit (snd kv) = true) o ->
  flattenObject (Obj (pruneFields g [] o)) []
  = select g (flattenObject (Obj o) [])
  /\ unflattenObject (select g (flattenObject (Obj o) []))
     = Returns (Obj (pruneFields g [] o)).
Proof.
  intros Hfit Hroot Hall.
  pose proof (fit_parts _ Hfit) as [Hd [Hdot Hown]].
  assert (Hsound : Forall (fun kv => nestedAll sound (snd kv) = true) o).
  { eapply Forall_impl; [|exact Hall]. intros kv.
    apply nestedAll_weaken, fit_sound. }
  assert (Hkeys : map fst (pruneFields g [] o)
                  = map fst (filter (kept g []) o))
    by apply pruneFields_keys.
  assert (Hfields :
            flat_map (fun kv => keyed (fst kv) (leavesOf (snd kv)))
              (pruneFields g [] o)
            = flat_map
                (fun kv => select g (keyed (fst kv) (leavesOf (snd kv)))) o
            /\ Forall (fun kv => nestedAll good (snd kv) = true)
                 (pruneFields g [] o)
            /\ plainRoot (pruneFields g [] o) = true).
  { clear Hfit Hd Hdot Hown Hsound Hkeys.
    induction Hall as [|[k w] o Hw _ IH];
      [repeat split; constructor|].
    simpl in Hroot. apply andb_true_iff in Hroot as [Hk Hroot].
    destruct (IH Hroot) as [IH1 [IH2 IH3]]. simpl in Hw, Hk.
    rewrite pruneFields_cons.
    assert (Hn : k <> [] \/ isLeaf w = true).
    { destruct k; [right; now rewrite <- terminal_isLeaf|left; discriminate]. }
    pose proof (@prune_leaves w Hw k Hn) as Hp.
    change (joinKey [] k) with k.
    destruct (prune g k w) as [w'|].
    - destruct Hp as [Hp1 [Hp2 Hp3]]. cbn [flat_map app fst snd].
      rewrite Hp1, IH1. repeat split; auto.
      unfold plainRoot in *. cbn [forallb fst snd].
      rewrite IH3, andb_true_r.
      destruct k; auto. rewrite terminal_isLeaf in *. auto.
    - cbn [flat_map app fst snd]. rewrite Hp, IH1. repeat split; auto. }
  destruct Hfields as [Hfields [Hgoods Hroot']].
  assert (Hgood' : distinctKeys (pruneFields g [] o) = true
                   /\ dotlessKeys (pruneFields g [] o) = true
                   /\ ownNames (pruneFields g [] o) = true).
  { unfold distinctKeys, dotlessKeys, ownNames. rewrite Hkeys.
    repeat split.
    - apply NoDup_distinct, NoDup_filter_keys. now apply distinct_NoDup.
    - now apply forallb_filter_keys.
    - now apply forallb_filter_keys. }
  destruct Hgood' as [Hd' [Hdot' Hown']].
  assert (Hflat : flattenObject (Obj (pruneFields g [] o)) []
                  = select g (flattenObject (Obj o) [])).
  { rewrite (@flattenObject_top o Hd Hdot Hroot Hsound).
    rewrite select_flat_map, <- Hfields.
    apply flattenObject_top; auto.
    eapply Forall_impl; [|exact Hgoods]. intros kv.
    apply nestedAll_weaken, good_sound. }
  split; [exact Hflat|].
  rewrite <- Hflat. now apply unflatten_flatten_good.
Qed.

End Prune.

(** ** No key of a flattened tree continues another *)

Lemma split_nonempty (s : jsstring) : JsString.split dot s <> [].
Proof.
  induction s as [|c s IH]; simpl; [discriminate|].
  destruct (c =? dot)%N; [discriminate|].
  destruct (JsString.split dot s); [congruence|discriminate].
Qed.

Lemma split_app_dot (a r : jsstring) :
  JsString.split dot (a ++ dot :: r)
  = JsString.split dot a ++ JsString.split dot r.
Proof.
  induction a as [|c a IH]; [reflexivity|].
  simpl. destruct (c =? dot)%N.
  - now rewrite IH.
  - rewrite IH. pose proof (split_nonempty a) as Hne.
    destruct (JsString.split dot a); [congruence|reflexivity].
Qed.

Lemma In_keys_functional (f : props) (k : jsstring) (w w' : value) :
  NoDup (map fst f) -> In (k, w) f -> In (k, w') f -> w = w'.
Proof.
  intros Hnd H H'.
  pose proof (In_getProp _ _ _ Hnd H) as E.
  pose proof (In_getProp _ _ _ Hnd H') as E'. congruence.
Qed.

(** No path to a leaf goes on to another leaf. *)
Lemma leaves_apart (v : value) :
  nestedAll sound v = true ->
  forall q e x y,
    In (q, x) (leavesOf v) -> In (q ++ e, y) (leavesOf v) -> e = [].
Proof.
  assert (Hleaf : forall v0 q e x y,
             isLeaf v0 = true ->
             In (q, x) (leavesOf v0) -> In (q ++ e, y) (leavesOf v0) ->
             e = []).
  { intros v0 q e x y Hl Hq Hqe. rewrite leavesOf_unfold, Hl in Hq, Hqe.
    destruct Hq as [[= <- _]|[]]. destruct Hqe as [[= E _]|[]].
    now destruct e. }
  induction v as [| | | | | |f IH] using value_ind;
    intros Hs q e x y Hq Hqe;
    try (refine (Hleaf _ q e x y _ Hq Hqe); reflexivity).
  destruct (isLeaf (Obj f)) eqn:Hl;
    [now apply (Hleaf _ q e x y Hl Hq Hqe)|].
  rewrite leavesOf_unfold, Hl in Hq, Hqe.
  destruct (@nestedAll_Obj sound f Hl Hs) as [Hf Hall].
  unfold sound in Hf. apply andb_true_iff in Hf as [Hd _].
  apply distinct_NoDup in Hd.
  unfold fieldLeaves in Hq, Hqe.
  apply in_flat_map in Hq as [[k w] [Hkw Hq]].
  apply in_flat_map in Hqe as [[k' w'] [Hkw' Hqe]].
  apply in_map_iff in Hq as [[q0 x0] [E0 Hq]].
  apply in_map_iff in Hqe as [[q1 x1] [E1 Hqe]].
  simpl in E0, E1. injection E0 as <- <-.
  simpl in E1. injection E1 as -> -> _.
  assert (w' = w) by (eapply In_keys_functional; eauto). subst w'.
  rewrite Forall_forall in IH, Hall.
  exact (IH _ Hkw (Hall _ Hkw) _ _ _ _ Hq Hqe).
Qed.

Lemma flat_keys_apart (o : props) (key key' r : jsstring) :
  distinctKeys o = true ->
  dotlessKeys o = true ->
  plainRoot o = true ->
  Forall (fun kv => nestedAll sound (snd kv) = true) o ->
  In key (keys (flattenObject (Obj o) [])) ->
  In key' (keys (flattenObject (Obj o) [])) ->
  key' <> key ++ dot :: r.
Proof.
  intros Hd Hdot Hroot Hall Hk Hk' E.
  rewrite flattenObject_top in Hk, Hk' by assumption.
  unfold keys in Hk, Hk'.
  apply in_map_iff in Hk as [[k0 x] [E0 Hk]].
  apply in_map_iff in Hk' as [[k1 x'] [E1 Hk']].
  simpl in E0, E1. subst k0 k1.
  apply in_flat_map in Hk as [[k w] [Hkw Hk]].
  apply in_flat_map in Hk' as [[k' w'] [Hkw' Hk']].
  unfold keyed in Hk, Hk'. simpl in Hk, Hk'.
  apply in_map_iff in Hk as [[q y] [[= <- <-] Hq]].
  apply in_map_iff in Hk' as [[q' y'] [[= <- <-] Hq']].
  simpl in E.
  unfold dotlessKeys in Hdot. rewrite forallb_forall in Hdot.
  rewrite Forall_forall in Hall.
  assert (Hdk : dotless k = true)
    by (apply Hdot; change k with (fst (k, w)); now apply in_map).
  assert (Hdk' : dotless k' = true)
    by (apply Hdot; change k' with (fst (k', w')); now apply in_map).
  pose proof (leavesOf_dotless _ (Hall _ Hkw)) as Hdq.
  pose proof (leavesOf_dotless _ (Hall _ Hkw')) as Hdq'.
  rewrite Forall_forall in Hdq, Hdq'.
  apply (f_equal (JsString.split dot)) in E.
  rewrite split_app_dot in E.
  pose proof (Hdq' _ Hq') as Hd1. pose proof (Hdq _ Hq) as Hd0.
  simpl in Hd0, Hd1.
  rewrite (split_dotless _ Hdk' Hd1) in E.
  rewrite (split_dotless _ Hdk Hd0) in E.
  simpl in E. injection E as -> E. simpl in E.
  assert (w' = w)
    by (eapply In_keys_functional; eauto; now apply distinct_NoDup).
  subst w'. rewrite E in Hq'.
  pose proof (@leaves_apart w (Hall _ Hkw) _ _ _ _ Hq Hq') as Hs.
  now apply split_nonempty in Hs.
Qed.

(* ================================================================== *)
(** * Punctuation post-processing *)

Section RemoveAtEnd.
Variable classes : list (N -> bool).
Variable endings : list jsstring.

(** [endings] lists the strings the classes accept: none is empty and each
    ends with a unit that is no white space. *)
Hypothesis Hlang :
  forall x, In x endings <-> Forall2 (fun cl c => cl c = true) classes x.
Hypothesis Hsolid :
  forall x, In x endings -> exists b c, x = b ++ [c] /\ isSpace c = false.

Lemma matchClasses_Some (cls : list (N -> bool)) (s r : jsstring) :
  matchClasses cls s = Some r <->
  exists x, s = x ++ r /\ Forall2 (fun cl c => cl c = true) cls x.
Proof.
  revert s. induction cls as [|cl cls IH]; intros s; simpl.
  - split.
    + intros [= ->]. exists []. split; auto.
    + intros [x [-> H]]. inversion H. reflexivity.
  - destruct s as [|c s].
    + split; [discriminate|]. intros [x [Hs H]]. inversion H; subst.
      discriminate.
    + destruct (cl c) eqn:E.
      * rewrite IH. split.
        -- intros [x [-> H]]. exists (c :: x). split; auto.
        -- intros [x [Hs H]]. inversion H; subst. injection Hs as -> ->.
           eauto.
      * split; [discriminate|]. intros [x [Hs H]]. inversion H; subst.
        injection Hs as -> ->. congruence.
Qed.

Lemma matchAtEnd_true (s : jsstring) :
  matchAtEnd classes s = true <->
  exists x ws, s = x ++ ws /\ In x endings /\ forallb isSpace ws = true.
Proof.
  unfold matchAtEnd. destruct (matchClasses classes s) as [r|] eqn:E.
  - apply matchClasses_Some in E as [x [-> Hx]]. split.
    + intros H. exists x, r. repeat split; auto. now apply Hlang.
    + intros [x' [ws [Hs [Hx' Hws]]]]. apply Hlang in Hx'.
      assert (Hlen : List.length x = List.length x').
      { apply Forall2_length in Hx, Hx'. congruence. }
      apply app_inj_length in Hs; auto. destruct Hs as [_ ->]. exact Hws.
  - split; [discriminate|]. intros [x [ws [-> [Hx _]]]].
    apply Hlang in Hx.
    assert (matchClasses classes (x ++ ws) = Some ws) as H
      by (apply matchClasses_Some; eauto).
    congruence.
Qed.

Lemma trimEnd_solid (body x ws : jsstring) :
  In x endings -> forallb isSpace ws = true ->
  trimEnd (body ++ x ++ ws) = body ++ x.
Proof.
  intros Hx Hws. destruct (Hsolid _ Hx) as [b [c [-> Hc]]].
  rewrite app_assoc, trimEnd_spaces; auto.
  rewrite app_assoc. now apply trimEnd_fixed.
Qed.

Lemma removeAtEnd_found (body x ws : jsstring) :
  In x endings -> forallb isSpace ws = true ->
  removeAtEnd classes (body ++ x ++ ws) = body.
Proof.
  intros Hx Hws. induction body as [|c body IH].
  - simpl app. destruct x as [|a x]; simpl.
    + destruct (Hsolid _ Hx) as [b [c [Hb _]]]. now destruct b.
    + replace (matchAtEnd classes (a :: x ++ ws)) with true; auto.
      symmetry. apply matchAtEnd_true. now exists (a :: x), ws.
  - simpl. rewrite IH.
    destruct (matchAtEnd classes (c :: body ++ x ++ ws)) eqn:E; auto.
    exfalso. apply matchAtEnd_true in E as [x' [ws' [Hs [Hx' Hws']]]].
    assert (H1 := @trimEnd_solid (c :: body) _ _ Hx Hws).
    assert (H2 := @trimEnd_solid [] _ _ Hx' Hws').
    simpl app in H1, H2. rewrite Hs, H2 in H1.
    apply Hlang, Forall2_length in Hx, Hx'.
    apply (f_equal (@List.length N)) in H1. simpl in H1.
    rewrite length_app in H1. lia.
Qed.

Lemma removeAtEnd_cases (s : jsstring) :
  removeAtEnd classes s = s \/
  exists body x ws,
    s = body ++ x ++ ws /\ In x endings /\ forallb isSpace ws = true.
Proof.
  induction s as [|c s IH].
  - simpl. destruct (matchAtEnd classes []); auto.
  - simpl. destruct (matchAtEnd classes (c :: s)) eqn:E.
    + right. apply matchAtEnd_true in E as [x [ws [Hs H]]].
      exists [], x, ws. simpl. tauto.
    + destruct IH as [->|[body [x [ws [-> H]]]]]; auto.
      right. exists (c :: body), x, ws. simpl. tauto.
Qed.

(** The leftmost match of [classes\s*$] is the ending the text has. *)
Lemma removeAtEnd_withoutEnding (s : jsstring) :
  removeAtEnd classes s = withoutEnding endings s.
Proof.
  unfold withoutEnding.
  destruct (find (fun e => endsWith e (trimEnd s)) endings) as [e|] eqn:F.
  - apply find_some in F as [He Hends].
    apply endsWith_iff in Hends as [body Hbody].
    destruct (trimEnd_split s) as [ws [Hs Hws]].
    rewrite Hbody in Hs |- *. rewrite Hs at 1. rewrite <- app_assoc.
    rewrite removeAtEnd_found; auto.
    rewrite length_app, Nat.add_sub. now rewrite firstn_length_app.
  - destruct (removeAtEnd_cases s) as [->|[body [x [ws [-> [Hx Hws]]]]]]; auto.
    exfalso. apply (find_none _ _ F) in Hx as Hx'.
    rewrite trimEnd_solid in Hx'; auto.
    assert (endsWith x (body ++ x) = true) by (apply endsWith_iff; eauto).
    congruence.
Qed.

End RemoveAtEnd.

Lemma removePeriods_spec (s : jsstring) :
  removeAtEnd [isPeriod; isPeriod; isPeriod] s
  = withoutEnding [[46; 46; 46]]%N s.
Proof.
  apply removeAtEnd_withoutEnding.
  - intros x. split.
    + intros [<-|[]]. repeat constructor.
    + intros H. left.
      repeat match goal with
             | H : Forall2 _ _ _ |- _ => inversion H; subst; clear H
             | H : isPeriod _ = true |- _ => apply N.eqb_eq in H; subst
             end.
      reflexivity.
  - intros x [<-|[]]. now exists [46; 46]%N, 46%N.
Qed.

Lemma removeEllipsis_spec (s : jsstring) :
  removeAtEnd [isEllipsis] s = withoutEnding [[8230]]%N s.
Proof.
  apply removeAtEnd_withoutEnding.
  - intros x. split.
    + intros [<-|[]]. repeat constructor.
    + intros H. left.
      repeat match goal with
             | H : Forall2 _ _ _ |- _ => inversion H; subst; clear H
             | H : isEllipsis _ = true |- _ => apply N.eqb_eq in H; subst
             end.
      reflexivity.
  - intros x [<-|[]]. now exists [], 8230%N.
Qed.

Lemma removeTerminal_spec (s : jsstring) :
  removeAtEnd [isTerminal] s = withoutEnding [[46]; [33]; [63]]%N s.
Proof.
  apply removeAtEnd_withoutEnding.
  - intros x. split.
    + intros [<-|[<-|[<-|[]]]]; repeat constructor.
    + intros H. inversion H as [|cl c ? l Hc Hl]; subst. inversion Hl; subst.
      unfold isTerminal in Hc.
      repeat (apply orb_true_iff in Hc as [Hc|Hc]);
        apply N.eqb_eq in Hc; subst; simpl; auto.
  - intros x [<-|[<-|[<-|[]]]];
      [now exists [], 46%N | now exists [], 33%N | now exists [], 63%N].
Qed.

Lemma trailingWhitespace_app (t ws : jsstring) :
  (t = [] \/ exists b c, t = b ++ [c] /\ isSpace c = false) ->
  forallb isSpace ws = true ->
  trailingWhitespace (t ++ ws) = ws.
Proof.
  intros Ht Hws. induction t as [|d t IH].
  - simpl app. destruct ws; simpl in *; [reflexivity | now rewrite Hws].
  - destruct Ht as [Ht|[b [c [Ht Hc]]]]; [discriminate|].
    assert (Hfalse : forallb isSpace ((d :: t) ++ ws) = false).
    { rewrite Ht, forallb_app, forallb_app. simpl. rewrite Hc.
      now rewrite andb_false_r. }
    simpl app in *. simpl trailingWhitespace at 1.
    change (isSpace d && forallb isSpace (t ++ ws))
      with (forallb isSpace (d :: t ++ ws)).
    rewrite Hfalse. apply IH.
    destruct b as [|b0 b]; simpl in Ht; injection Ht as -> ->; eauto.
Qed.

Lemma trailingWhitespace_spec (s : jsstring) :
  trailingWhitespace s = trailingSpaces s.
Proof.
  unfold trailingSpaces. destruct (trimEnd_split s) as [ws [Hs Hws]].
  rewrite Hs at 1 3. rewrite skipn_length_app.
  apply trailingWhitespace_app; auto.
  destruct (trimEnd_last s) as [H|H]; auto.
Qed.

Lemma endsWithPunctuation_false (t : jsstring) :
  t <> [] ->
  (forall p, In p terminalPunctuation -> ~ endsIn p t) ->
  endsWithPunctuation t = false.
Proof.
  intros Hne H. unfold endsWithPunctuation.
  assert (Hlast : t = removelast t ++ [last t 0%N])
    by now apply app_removelast_last.
  assert (Hunit : forall c, In [c] terminalPunctuation -> (last t 0 =? c)%N = false).
  { intros c Hc. apply N.eqb_neq. intros <-. apply (H _ Hc). exists (removelast t). exact Hlast. }
  assert (Hword : forall p, In p terminalPunctuation -> endsWith p t = false).
  { intros p Hp. destruct (endsWith p t) eqn:E; auto.
    apply endsWith_iff in E. now apply H in Hp. }
  unfold period, question, bang, ellipsis.
  rewrite !Hunit, !Hword; simpl; auto 10.
Qed.

(** C6, as the code has it. For a source text that is not empty once
    trimmed and does not end, trimmed, in a period, an exclamation mark, a
    question mark, three periods or the ellipsis character, and a
    translated text that is not empty once trimmed,
    [normalizeTranslationPunctuation] returns the trimmed translation
    without a trailing ellipsis and then without one trailing period,
    exclamation mark or question mark, followed by the white space the
    translation ended with. For the source "Tamam" and the translation
    "Okay." the result is "Okay". *)
Theorem normalizeTranslationPunctuation_strips :
  forall source translated : jsstring,
    trim source <> [] ->
    trim translated <> [] ->
    (forall p, In p terminalPunctuation -> ~ endsIn p (trim source)) ->
    normalizeTranslationPunctuation source translated
    = withoutTerminalPunctuation translated
    /\ normalizeTranslationPunctuation (str "Tamam") (str "Okay.")
       = str "Okay".
Proof.
  intros source translated Hs Ht Hp. split; [|reflexivity].
  unfold normalizeTranslationPunctuation, withoutTerminalPunctuation.
  destruct (trim source) as [|a st] eqn:Es; [congruence|].
  destruct (trim translated) as [|b tt] eqn:Et; [congruence|].
  assert (He : endsWithPunctuation (a :: st) = false)
    by (apply endsWithPunctuation_false; [discriminate | exact Hp]).
  rewrite He. simpl negb. cbv iota.
  now rewrite removePeriods_spec, removeEllipsis_spec, removeTerminal_spec,
    trailingWhitespace_spec.
Qed.

Lemma normalizeTranslationPunctuation_strips_witness :
  normalizeTranslationPunctuation (str "Bekle") (str " Wait...!  ")
  = withoutTerminalPunctuation (str " Wait...!  ")
  /\ normalizeTranslationPunctuation (str "Tamam") (str "Okay.") = str "Okay".
Proof.
  apply (normalizeTranslationPunctuation_strips (str "Bekle") (str " Wait...!  ")).
  - vm_compute. discriminate.
  - vm_compute. discriminate.
  - intros p Hp [body Hbody]. vm_compute in Hbody.
    apply (f_equal (@rev N)) in Hbody. rewrite rev_app_distr in Hbody.
    simpl in Hp.
    repeat (destruct Hp as [<-|Hp]; [simpl in Hbody; discriminate|]).
    exact Hp.
Defined.

(** The claim C6 as the specification words it fails when the source text
    is empty: it does not end in terminal punctuation, and the translated
    text keeps its period. *)
Lemma normalizeTranslationPunctuation_empty_source :
  ~ (forall source translated : jsstring,
       (forall p, In p terminalPunctuation -> ~ endsIn p (trim source)) ->
       normalizeTranslationPunctuation source translated
       = withoutTerminalPunctuation translated).
Proof.
  intros H. specialize (H [] (str "Okay.")).
  assert (Hp : forall p, In p terminalPunctuation -> ~ endsIn p (trim [])).
  { intros p Hp [body Hbody]. change (trim []) with (@nil N) in Hbody.
    destruct body; simpl in Hbody; [|discriminate].
    simpl in Hp. subst p. intuition discriminate. }
  specialize (H Hp). vm_compute in H. discriminate.
Qed.

(** ** Translations that keep their punctuation *)

Lemma endsWithPunctuation_true (t p : jsstring) :
  In p terminalPunctuation -> endsIn p t -> endsWithPunctuation t = true.
Proof.
  intros Hp [body ->]. unfold endsWithPunctuation.
  assert (Hword : endsWith p (body ++ p) = true)
    by (apply endsWith_iff; now exists body).
  assert (Hunit : forall c, p = [c] -> last (body ++ p) 0%N = c)
    by (intros c ->; apply last_last).
  unfold period, question, bang, ellipsis. simpl in Hp.
  destruct Hp as [<-|[<-|[<-|[<-|[<-|[]]]]]].
  - rewrite (Hunit _ eq_refl). reflexivity.
  - rewrite (Hunit _ eq_refl). reflexivity.
  - rewrite (Hunit _ eq_refl). reflexivity.
  - rewrite Hword. now rewrite !orb_true_r.
  - rewrite Hword. now rewrite !orb_true_r.
Qed.

(** X16. [normalizeTranslationPunctuation] returns the translated text as
    it came, white space and punctuation included, when the source text
    or the translated text is empty once trimmed, and when the trimmed
    source text ends in a period, an exclamation mark, a question mark,
    three periods or the ellipsis character. *)
Theorem normalizeTranslationPunctuation_keeps :
  forall source translated : jsstring,
    trim source = [] \/ trim translated = []
    \/ (exists p, In p terminalPunctuation /\ endsIn p (trim source)) ->
    normalizeTranslationPunctuation source translated = translated.
Proof.
  intros source translated H. unfold normalizeTranslationPunctuation.
  destruct (trim source) as [|a st] eqn:Es; [reflexivity|].
  destruct (trim translated) as [|b tt] eqn:Et; [reflexivity|].
  destruct H as [H|[H|[p [Hp He]]]]; try discriminate.
  now rewrite (@endsWithPunctuation_true _ _ Hp He).
Qed.

Lemma normalizeTranslationPunctuation_keeps_witness :
  normalizeTranslationPunctuation (str " Bitti!  ") (str "  Done...  ")
  = str "  Done...  ".
Proof.
  apply (normalizeTranslationPunctuation_keeps (str " Bitti!  ")
           (str "  Done...  ")).
  right. right. exists [33%N]. split.
  - simpl. auto.
  - exists (str "Bitti"). vm_compute. reflexivity.
Defined.

(* ================================================================== *)
(** * The orchestrator: cache, merge, overrides, order *)

Lemma isStale_cacheHit (cached : props) (key text : jsstring) :
  isStale (readProp cached key) (md5 text) = negb (cacheHit cached key text).
Proof.
  unfold isStale, cacheHit, readProp.
  destruct (getProp cached key) as [[| | | | | |o]|]; try reflexivity.
  unfold isTranslationEntry, strictEqStr, readProp.
  rewrite !hasProp_existsb. unfold translationKey, sourceHashKey.
  destruct (existsb (JsString.eqb (str "translation")) (map fst o)); simpl; auto.
  rewrite <- hasProp_existsb. unfold hasProp.
  destruct (getProp o (str "sourceHash")) as [[]|]; simpl; auto.
Qed.

Section Scan.
Variables flatSourceJson cachedTranslations : props.

Lemma scanKey_step (final : props) (batch : list pending) (key : jsstring) :
  scanKey flatSourceJson cachedTranslations (final, batch) key
  = (passThrough flatSourceJson final key,
     batch ++ pendingOf flatSourceJson cachedTranslations key).
Proof.
  unfold scanKey, passThrough, pendingOf.
  destruct (readProp flatSourceJson key); try now rewrite app_nil_r.
  rewrite isStale_cacheHit.
  destruct (cacheHit cachedTranslations key s); simpl; auto.
  now rewrite app_nil_r.
Qed.

Lemma scan_fold (ks : list jsstring) (final : props) (batch : list pending) :
  fold_left (scanKey flatSourceJson cachedTranslations) ks (final, batch)
  = (fold_left (passThrough flatSourceJson) ks final,
     batch ++ flat_map (pendingOf flatSourceJson cachedTranslations) ks).
Proof.
  revert final batch.
  induction ks as [|k ks IH]; intros final batch; cbn [fold_left flat_map].
  - now rewrite app_nil_r.
  - rewrite scanKey_step, IH. now rewrite <- app_assoc.
Qed.

Lemma batch_spec :
  snd (scanSource flatSourceJson cachedTranslations)
  = flat_map (pendingOf flatSourceJson cachedTranslations) (keys flatSourceJson).
Proof. unfold scanSource. now rewrite scan_fold. Qed.

Lemma final_spec :
  fst (scanSource flatSourceJson cachedTranslations)
  = fold_left (passThrough flatSourceJson) (keys flatSourceJson) cachedTranslations.
Proof. unfold scanSource. now rewrite scan_fold. Qed.

Lemma passThrough_string (ks : list jsstring) (final : props) (key : jsstring) :
  isString (readProp flatSourceJson key) = true ->
  getProp (fold_left (passThrough flatSourceJson) ks final) key = getProp final key.
Proof.
  intros Hs. revert final. induction ks as [|k ks IH]; intros final; simpl; auto.
  rewrite IH. unfold passThrough.
  destruct (readProp flatSourceJson k) eqn:E; auto;
    apply getProp_setProp_other; intros ->; rewrite E in Hs; discriminate.
Qed.

Lemma passThrough_other (ks : list jsstring) (final : props) (key : jsstring) :
  isString (readProp flatSourceJson key) = false ->
  In key ks ->
  getProp (fold_left (passThrough flatSourceJson) ks final) key
  = Some (readProp flatSourceJson key).
Proof.
  intros Hs. induction ks as [|k ks IH] using rev_ind; [simpl; tauto|].
  intros Hin. rewrite fold_left_app. simpl.
  destruct (list_eq_dec N.eq_dec k key) as [->|Hne].
  - unfold passThrough at 1.
    destruct (readProp flatSourceJson key); try discriminate;
      apply getProp_setProp_same.
  - apply in_app_or in Hin as [Hin|[Hin|[]]]; [|congruence].
    rewrite <- IH by assumption. unfold passThrough at 1.
    destruct (readProp flatSourceJson k); auto;
      now apply getProp_setProp_other.
Qed.

Lemma pending_in (key text : jsstring) :
  In (key, text)
    (snd (scanSource flatSourceJson cachedTranslations)) <->
  In key (keys flatSourceJson)
  /\ readProp flatSourceJson key = Str text
  /\ cacheHit cachedTranslations key text = false.
Proof.
  rewrite batch_spec, in_flat_map. unfold pendingOf. split.
  - intros [k [Hk Hin]].
    destruct (readProp flatSourceJson k) eqn:E; try contradiction.
    destruct (cacheHit cachedTranslations k s) eqn:Hh; [contradiction|].
    destruct Hin as [[= -> ->]|[]]. auto.
  - intros [Hk [E Hh]]. exists key. split; auto.
    rewrite E, Hh. now left.
Qed.

Lemma pending_key (key : jsstring) :
  In key (map fst (snd (scanSource flatSourceJson cachedTranslations))) ->
  exists text,
    readProp flatSourceJson key = Str text
    /\ cacheHit cachedTranslations key text = false.
Proof.
  intros H. apply in_map_iff in H as [[k text] [Hk Hin]]. simpl in Hk. subst k.
  apply pending_in in Hin as [_ H]. eauto.
Qed.

End Scan.

Lemma defined_isUndefined (v : value) : negb (isUndefined v) = defined v.
Proof. now destruct v. Qed.

(** ** Merging the translated texts *)

Lemma mergeResults_other (final : props) (batch : list pending)
  (texts : list jsstring) (key : jsstring) :
  ~ In key (map fst batch) ->
  getProp (mergeResults final batch texts) key = getProp final key.
Proof.
  unfold mergeResults, indexed. generalize (seq 0 (List.length batch)).
  intros idx. revert idx final.
  induction batch as [|[k t] batch IH]; intros [|i idx] final Hnin; simpl; auto.
  simpl in Hnin. rewrite IH by tauto.
  apply getProp_setProp_other. tauto.
Qed.

Lemma map_snd_combine (A B : Type) (l : list A) (l' : list B) :
  List.length l = List.length l' -> map snd (combine l l') = l'.
Proof.
  revert l'. induction l as [|a l IH]; intros [|b l'] H; simpl in *;
    try discriminate; auto.
  f_equal. apply IH. congruence.
Qed.

Lemma merge_fold_pending (texts : list jsstring)
  (l : list (nat * pending)) (final : props) (key : jsstring) :
  In key (map (fun ikt => fst (snd ikt)) l) ->
  exists i text,
    In (i, (key, text)) l
    /\ getProp
         (fold_left
            (fun final (ikt : nat * pending) =>
               setProp final (fst (snd ikt))
                 (entry (textAt texts (fst ikt)) (md5 (snd (snd ikt)))))
            l final) key
       = Some (entry (textAt texts i) (md5 text)).
Proof.
  induction l as [|[i [k t]] l IH] using rev_ind; [contradiction|].
  intros Hin. rewrite fold_left_app. simpl.
  destruct (list_eq_dec N.eq_dec k key) as [->|Hne].
  - exists i, t. split.
    + apply in_or_app. right. now left.
    + apply getProp_setProp_same.
  - rewrite map_app in Hin. apply in_app_or in Hin as [Hin|[Hin|[]]];
      [|simpl in Hin; congruence].
    destruct (IH Hin) as [i0 [text [Hb Hg]]].
    exists i0, text. split; [apply in_or_app; now left|].
    now rewrite getProp_setProp_other.
Qed.

Lemma mergeResults_pending (final : props) (batch : list pending)
  (texts : list jsstring) (key : jsstring) :
  In key (map fst batch) ->
  exists t text,
    In (key, text) batch
    /\ getProp (mergeResults final batch texts) key
       = Some (entry t (md5 text)).
Proof.
  intros Hin. unfold mergeResults.
  destruct (@merge_fold_pending texts (indexed batch) final key)
    as [i [text [Hi Hg]]].
  - rewrite <- (map_map snd fst). unfold indexed.
    rewrite map_snd_combine; auto. apply length_seq.
  - exists (textAt texts i), text. split; auto.
    unfold indexed in Hi. now apply in_combine_r in Hi.
Qed.

(** ** Overrides *)





(** ** The order of the output *)

Lemma reorder_fold (sourceKeys : list jsstring) (final acc : props) :
  NoDup sourceKeys ->
  (forall k, In k sourceKeys -> ~ In k (keys acc)) ->
  fold_left
    (fun ordered key =>
       if negb (isUndefined (readProp final key))
       then setProp ordered key (readProp final key)
       else ordered) sourceKeys acc
  = acc
    ++ flat_map
         (fun k =>
            if defined (readProp final k) then [(k, readProp final k)] else [])
         sourceKeys.
Proof.
  revert acc. induction sourceKeys as [|k ks IH]; intros acc Hnd Hfresh; simpl.
  - now rewrite app_nil_r.
  - inversion Hnd as [|? ? Hk Hnd']; subst.
    rewrite defined_isUndefined.
    destruct (defined (readProp final k)).
    + rewrite setProp_fresh by (apply Hfresh; now left).
      rewrite IH; auto.
      * now rewrite <- app_assoc.
      * intros k' Hk'. unfold keys. rewrite map_app, in_app_iff. simpl.
        intros [H|[<-|[]]]; [|contradiction].
        apply (Hfresh k'); auto. now right.
    + apply IH; auto. intros k' Hk'. apply Hfresh. now right.
Qed.

Lemma reorder_spec (sourceKeys : list jsstring) (final : props) :
  NoDup sourceKeys ->
  reorder sourceKeys final
  = flat_map
      (fun k =>
         if defined (readProp final k) then [(k, readProp final k)] else [])
      sourceKeys.
Proof.
  intros Hnd. unfold reorder. rewrite reorder_fold; auto.
Qed.

Lemma reorder_keys (sourceKeys : list jsstring) (final : props) :
  NoDup sourceKeys ->
  keys (reorder sourceKeys final)
  = filter (fun k => defined (readProp final k)) sourceKeys.
Proof.
  intros Hnd. rewrite reorder_spec by assumption. clear Hnd.
  induction sourceKeys as [|k ks IH]; simpl; auto.
  unfold keys in *. rewrite map_app, IH.
  destruct (defined (readProp final k)); reflexivity.
Qed.

Lemma reorder_get (sourceKeys : list jsstring) (final : props) (key : jsstring) :
  NoDup sourceKeys -> In key sourceKeys ->
  defined (readProp final key) = true ->
  getProp (reorder sourceKeys final) key = Some (readProp final key).
Proof.
  intros Hnd Hin Hd. apply In_getProp.
  - rewrite reorder_keys by assumption. now apply NoDup_filter.
  - rewrite reorder_spec by assumption. apply in_flat_map.
    exists key. split; auto. rewrite Hd. now left.
Qed.

Lemma baseLanguageFlat_spec (flat : props) :
  NoDup (keys flat) ->
  baseLanguageFlat flat
  = map
      (fun kv =>
         (fst kv,
          match snd kv with
          | Str sourceText => entry (Str sourceText) (md5 sourceText)
          | sourceText => sourceText
          end)) flat.
Proof.
  intros Hnd. unfold baseLanguageFlat.
  assert (Hread : forall k v, In (k, v) flat -> readProp flat k = v).
  { intros k v Hin. unfold readProp. now rewrite (In_getProp _ _ _ Hnd Hin). }
  assert (Hgen : forall done todo acc,
             flat = done ++ todo ->
             keys acc = keys done ->
             fold_left
               (fun b key =>
                  match readProp flat key with
                  | Str sourceText =>
                      setProp b key (entry (Str sourceText) (md5 sourceText))
                  | sourceText => setProp b key sourceText
                  end) (keys todo) acc
             = acc
               ++ map (fun kv =>
                         (fst kv,
                          match snd kv with
                          | Str sourceText =>
                              entry (Str sourceText) (md5 sourceText)
                          | sourceText => sourceText
                          end)) todo).
  { intros done todo. revert done.
    induction todo as [|[k v] todo IH]; intros done acc Hflat Hacc; simpl.
    - now rewrite app_nil_r.
    - assert (Hk : ~ In k (keys acc)).
      { rewrite Hacc. rewrite Hflat in Hnd. unfold keys in *.
        rewrite map_app in Hnd. simpl in Hnd.
        apply NoDup_remove_2 in Hnd. rewrite in_app_iff in Hnd. tauto. }
      assert (Hv : readProp flat k = v).
      { apply Hread. rewrite Hflat. apply in_or_app. right. now left. }
      rewrite Hv.
      assert (Hstep : forall x, fold_left
               (fun b key =>
                  match readProp flat key with
                  | Str sourceText =>
                      setProp b key (entry (Str sourceText) (md5 sourceText))
                  | sourceText => setProp b key sourceText
                  end) (keys todo) (setProp acc k x)
             = (acc ++ [(k, x)]) ++ map (fun kv =>
                         (fst kv,
                          match snd kv with
                          | Str sourceText =>
                              entry (Str sourceText) (md5 sourceText)
                          | sourceText => sourceText
                          end)) todo).
      { intros x. rewrite setProp_fresh by assumption.
        apply (IH (done ++ [(k, v)])).
        - now rewrite <- app_assoc.
        - unfold keys in *. rewrite !map_app. simpl. now rewrite Hacc. }
      destruct v; rewrite Hstep; now rewrite <- app_assoc. }
  apply (Hgen [] flat []); auto.
Qed.
Lemma finalTranslationsOf_eq (w : World) (namespace BASE_LANGUAGE : jsstring)
  (flat : props) (overrides : OverrideConfig) (lang : jsstring) :
  finalTranslationsOf w namespace BASE_LANGUAGE flat overrides lang
  = let cached := loadCache w namespace lang in
    let final0 := fst (scanSource flat cached) in
    let batch := snd (scanSource flat cached) in
    match batch with
    | [] => final0
    | _ :: _ =>
        fst (applyOverrides
               match requestTranslations w batch lang BASE_LANGUAGE with
               | None => final0
               | Some translatedTexts => mergeResults final0 batch translatedTexts
               end overrides namespace lang flat)
    end.
Proof.
  unfold finalTranslationsOf.
  destruct (scanSource flat (loadCache w namespace lang)) as [final0 batch].
  reflexivity.
Qed.

Lemma parsed_defined (v : value) : parsed v = true -> defined v = true.
Proof. now destruct v. Qed.

Lemma flattenEntry_defined (v : value) :
  forall prefix key result,
    parsed v = true ->
    Forall (fun kv => defined (snd kv) = true) result ->
    Forall (fun kv => defined (snd kv) = true)
      (flattenEntry prefix key v result).
Proof.
  induction v using value_ind; intros prefix key result Hp Hres;
    try (apply Forall_setProp; auto; fail).
  rewrite flattenEntry_unfold. destruct (isLeaf (Obj fields)).
  - apply Forall_setProp; auto.
  - apply Forall_objectAssign; auto.
    unfold flattenObject, flattenProps. simpl ownEnumerable.
    simpl in Hp. apply andb_true_iff in Hp as [_ Hp].
    generalize (joinKey prefix key). intros p.
    assert (Hacc : Forall (fun kv : jsstring * value => defined (snd kv) = true) [])
      by constructor.
    revert Hacc. generalize (@nil (jsstring * value)).
    induction H as [|[k x] fields Hx _ IH]; intros acc Hacc; simpl; auto.
    simpl in Hp. apply andb_true_iff in Hp as [Hpx Hp].
    apply IH; auto.
Qed.

Lemma parsed_ownEnumerable (v : value) :
  parsed v = true ->
  Forall (fun kv => parsed (snd kv) = true) (ownEnumerable v).
Proof.
  destruct v; simpl; intros Hp; try constructor.
  - apply Forall_forall. intros [k c] Hin. apply in_map_iff in Hin as [[i d] [[= <- <-] _]].
    reflexivity.
  - apply Forall_forall. intros [k x] Hin. apply in_map_iff in Hin as [[i y] [[= <- <-] Hin]].
    apply in_combine_r in Hin. simpl. rewrite forallb_forall in Hp. auto.
  - apply andb_true_iff in Hp as [_ Hp]. rewrite forallb_forall in Hp.
    apply Forall_forall. auto.
Qed.

Lemma flattenObject_defined (v : value) (prefix : jsstring) :
  parsed v = true ->
  Forall (fun kv => defined (snd kv) = true) (flattenObject v prefix).
Proof.
  intros Hp. apply parsed_ownEnumerable in Hp.
  unfold flattenObject, flattenProps.
  assert (Hacc : Forall (fun kv : jsstring * value => defined (snd kv) = true) [])
    by constructor.
  revert Hacc. generalize (@nil (jsstring * value)).
  induction Hp as [|[k x] o Hx _ IH]; intros acc Hacc; simpl; auto.
  apply IH. now apply flattenEntry_defined.
Qed.

Lemma flat_defined (v : value) (key : jsstring) :
  parsed v = true ->
  In key (keys (flattenObject v [])) ->
  defined (readProp (flattenObject v []) key) = true.
Proof.
  intros Hp Hin. apply (@flattenObject_defined v []) in Hp.
  rewrite Forall_forall in Hp.
  unfold readProp. destruct (getProp (flattenObject v []) key) as [x|] eqn:E.
  - apply getProp_Some_In in E. now apply Hp in E.
  - apply getProp_None_keys in E. contradiction.
Qed.



Section OneLanguage.
Variable w : World.
Variable sourceJson : value.
Variables namespace BASE_LANGUAGE lang : jsstring.

Local Abbreviation flat := (flattenObject sourceJson []).
Local Abbreviation cached := (loadCache w namespace lang).
Local Abbreviation final0 := (fst (scanSource flat cached)).
Local Abbreviation batch := (snd (scanSource flat cached)).
Local Abbreviation final :=
  (finalTranslationsOf w namespace BASE_LANGUAGE flat (loadOverrides w) lang).

Lemma final0_string (key text : jsstring) :
  readProp flat key = Str text -> getProp final0 key = getProp cached key.
Proof.
  intros E. rewrite final_spec.
  apply passThrough_string. now rewrite E.
Qed.

Lemma final0_other (key : jsstring) :
  In key (keys flat) -> isString (readProp flat key) = false ->
  getProp final0 key = Some (readProp flat key).
Proof.
  intros Hin E. rewrite final_spec.
  now apply passThrough_other.
Qed.




End OneLanguage.




(* ================================================================== *)
(** * The file of a language *)

Lemma parsed_distinct (v : value) :
  parsed v = true -> nestedAll distinctKeys v = true.
Proof.
  induction v as [| | | | | |fields IH] using value_ind; auto.
  intros H. rewrite nestedAll_unfold. simpl in H.
  apply andb_true_iff in H as [Hd Hall].
  unfold distinctKeys at 1. rewrite Hd. simpl.
  rewrite orb_true_iff. right.
  rewrite forallb_forall in *. rewrite Forall_forall in IH.
  intros kv Hin. apply IH; auto.
Qed.

Lemma getProp_map_values (f : value -> value) (o : props) (k : jsstring) :
  getProp (map (fun kv => (fst kv, f (snd kv))) o) k
  = option_map f (getProp o k).
Proof.
  induction o as [|[k' v] o IH]; simpl; auto.
  destruct (JsString.eqb k' k); auto.
Qed.

Lemma baseLanguageFlat_map (flat : props) :
  NoDup (keys flat) ->
  baseLanguageFlat flat = map (fun kv => (fst kv, selfEntry (snd kv))) flat.
Proof.
  intros Hnd. rewrite baseLanguageFlat_spec by exact Hnd.
  apply map_ext. intros [k v]. simpl. now destruct v.
Qed.

Lemma In_keys_readProp (o : props) (k : jsstring) :
  In k (keys o) -> getProp o k = Some (readProp o k).
Proof.
  intros Hin. unfold readProp. destruct (getProp o k) eqn:E; auto.
  apply getProp_None_keys in E. contradiction.
Qed.

(** ** Every value of the output is a terminal leaf *)

Lemma entry_isLeaf (t : value) (h : jsstring) : isLeaf (entry t h) = true.
Proof. reflexivity. Qed.

Lemma leaves_read (o : props) (k : jsstring) :
  Forall (fun kv => isLeaf (snd kv) = true) o -> isLeaf (readProp o k) = true.
Proof.
  intros H. unfold readProp. destruct (getProp o k) as [v|] eqn:E; auto.
  apply getProp_Some_In in E. rewrite Forall_forall in H. exact (H _ E).
Qed.

Lemma flattenObject_leaves (v : value) (prefix : jsstring) :
  Forall (fun kv => isLeaf (snd kv) = true) (flattenObject v prefix).
Proof.
  eapply Forall_impl; [|apply flattenObject_terminal].
  intros kv H. now rewrite <- terminal_isLeaf.
Qed.

Lemma loadCache_leaves (w : World) (namespace lang : jsstring) :
  Forall (fun kv => isLeaf (snd kv) = true) (loadCache w namespace lang).
Proof.
  unfold loadCache. destruct (cacheFile w namespace lang); [|constructor].
  apply flattenObject_leaves.
Qed.

Lemma passThrough_leaves (flat : props) (ks : list jsstring) :
  Forall (fun kv => isLeaf (snd kv) = true) flat ->
  forall final,
    Forall (fun kv => isLeaf (snd kv) = true) final ->
    Forall (fun kv => isLeaf (snd kv) = true)
      (fold_left (passThrough flat) ks final).
Proof.
  intros Hflat. induction ks as [|k ks IH]; intros final Hfinal; simpl; auto.
  apply IH. unfold passThrough.
  pose proof (@leaves_read flat k Hflat) as Hk.
  destruct (readProp flat k); auto; apply Forall_setProp; auto.
Qed.

Lemma mergeResults_leaves (final : props) (batch : list pending)
  (texts : list jsstring) :
  Forall (fun kv => isLeaf (snd kv) = true) final ->
  Forall (fun kv => isLeaf (snd kv) = true) (mergeResults final batch texts).
Proof.
  unfold mergeResults. generalize (indexed batch). intros l. revert final.
  induction l as [|ikt l IH]; intros final H; simpl; auto.
  apply IH. apply Forall_setProp; auto.
Qed.

Lemma applyOverrides_leaves (translations : props)
  (overrides : OverrideConfig) (namespace language : jsstring)
  (sourceTexts : props) :
  Forall (fun kv => isLeaf (snd kv) = true) translations ->
  Forall (fun kv => isLeaf (snd kv) = true)
    (fst (applyOverrides translations overrides namespace language
            sourceTexts)).
Proof.
  intros H. unfold applyOverrides.
  destruct (getProp overrides namespace) as [byLanguage|]; auto.
  destruct (getProp byLanguage language) as [byKey|]; auto.
  generalize 0%nat. revert translations H.
  induction byKey as [|[k o] byKey IH]; intros translations H n; simpl; auto.
  destruct (negb (isUndefined (readProp translations k))); auto.
  destruct (readProp sourceTexts k); auto.
  apply IH. apply Forall_setProp; auto.
Qed.

Lemma final_leaves (w : World) (namespace BASE_LANGUAGE : jsstring)
  (flat : props) (lang : jsstring) :
  Forall (fun kv => isLeaf (snd kv) = true) flat ->
  Forall (fun kv => isLeaf (snd kv) = true)
    (finalTranslationsOf w namespace BASE_LANGUAGE flat (loadOverrides w)
       lang).
Proof.
  intros Hflat. rewrite finalTranslationsOf_eq. cbv zeta.
  assert (H0 : Forall (fun kv => isLeaf (snd kv) = true)
                 (fst (scanSource flat (loadCache w namespace lang)))).
  { rewrite final_spec. apply passThrough_leaves; auto.
    apply loadCache_leaves. }
  destruct (snd (scanSource flat (loadCache w namespace lang))); auto.
  apply applyOverrides_leaves.
  destruct (requestTranslations w _ lang BASE_LANGUAGE); auto.
  now apply mergeResults_leaves.
Qed.

Lemma selfEntry_leaf (v : value) : isLeaf v = true -> isLeaf (selfEntry v) = true.
Proof. destruct v; auto. Qed.

Lemma outputAt_leaf (w : World) (namespace BASE_LANGUAGE : jsstring)
  (flat : props) (lang k : jsstring) (x : value) :
  Forall (fun kv => isLeaf (snd kv) = true) flat ->
  outputAt w namespace BASE_LANGUAGE flat lang k = Some x ->
  isLeaf x = true.
Proof.
  intros Hflat. unfold outputAt.
  destruct (JsString.eqb (toLowerCase lang) BASE_LANGUAGE).
  - intros [= <-]. apply selfEntry_leaf. now apply leaves_read.
  - cbv zeta. destruct (defined _); [|discriminate]. intros [= <-].
    apply leaves_read. now apply final_leaves.
Qed.

(** ** The flat output is a part of the flattened source *)

Lemma select_map (g : jsstring -> option value) (f : value -> value)
  (F : props) :
  (forall k v, In (k, v) F -> g k = Some (f v)) ->
  select g F = map (fun kv => (fst kv, f (snd kv))) F.
Proof.
  unfold select. induction F as [|[k v] F IH]; intros H; simpl; auto.
  rewrite (H k v) by now left. simpl. f_equal.
  apply IH. intros k' v' Hin. apply H. now right.
Qed.

Lemma flatOutput_select (w : World) (namespace BASE_LANGUAGE : jsstring)
  (flat : props) (lang : jsstring) :
  NoDup (keys flat) ->
  flatOutput w namespace BASE_LANGUAGE flat (loadOverrides w) lang
  = select (outputAt w namespace BASE_LANGUAGE flat lang) flat.
Proof.
  intros Hnd. unfold flatOutput, outputAt.
  destruct (JsString.eqb (toLowerCase lang) BASE_LANGUAGE).
  - rewrite baseLanguageFlat_map by exact Hnd. symmetry.
    apply select_map. intros k v Hin. f_equal. f_equal.
    unfold readProp. now rewrite (In_getProp _ _ _ Hnd Hin).
  - rewrite reorder_spec by exact Hnd. cbv zeta.
    generalize (finalTranslationsOf w namespace BASE_LANGUAGE flat
                  (loadOverrides w) lang).
    intros final. clear Hnd. unfold select, keys.
    induction flat as [|[k v] flat' IH]; simpl; auto.
    rewrite IH. now destruct (defined (readProp final k)).
Qed.

Lemma select_keys_incl (g : jsstring -> option value) (F : props)
  (k : jsstring) :
  In k (keys (select g F)) -> In k (keys F).
Proof.
  rewrite select_keys. intros H. now apply filter_In in H.
Qed.

(** Unflattening a part of a flattened tree stores into no leaf of the
    tree. *)
Lemma select_keeps_source (g : jsstring -> option value) (o : props) :
  distinctKeys o = true ->
  dotlessKeys o = true ->
  plainRoot o = true ->
  Forall (fun kv => nestedAll sound (snd kv) = true) o ->
  storesIntoSource (flattenObject (Obj o) [])
    (select g (flattenObject (Obj o) [])) = false.
Proof.
  intros Hd Hdot Hroot Hall. unfold storesIntoSource.
  destruct (existsb _ _) eqn:E; auto. exfalso.
  apply existsb_exists in E as [[k v] [Hin H]]. simpl in H.
  destruct (readProp (flattenObject (Obj o) []) k); try discriminate.
  apply existsb_exists in H as [[k' v'] [Hin' Hs]]. simpl in Hs.
  apply startsWith_iff in Hs as [r Hr]. rewrite <- app_assoc in Hr.
  simpl in Hr.
  apply (@flat_keys_apart o k k' r Hd Hdot Hroot Hall); auto.
  - apply (@select_keys_incl g). apply in_map_iff. now exists (k, v).
  - apply (@select_keys_incl g). apply in_map_iff. now exists (k', v').
Qed.

Lemma source_fit (o : props) :
  parsed (Obj o) = true ->
  treeAll ordinaryKeys o = true ->
  fit o = true /\ Forall (fun kv => nestedAll fit (snd kv) = true) o.
Proof.
  intros Hp Hord. simpl in Hp. apply andb_true_iff in Hp as [Hd Hp].
  unfold treeAll in Hord. apply andb_true_iff in Hord as [Hord Hord'].
  split.
  - unfold fit, distinctKeys.
    now rewrite Hd, (ordinaryKeys_dotless _ Hord), (ordinaryKeys_own _ Hord).
  - rewrite forallb_forall in Hp, Hord'. apply Forall_forall. intros kv Hin.
    apply (@nestedAll_and distinctKeys ordinaryKeys fit).
    + intros f H1 H2. unfold fit.
      now rewrite H1, (ordinaryKeys_dotless _ H2), (ordinaryKeys_own _ H2).
    + apply parsed_distinct. auto.
    + auto.
Qed.

(** For a source tree with ordinary keys the file of every language is
    written, and flattening what is written gives back the flat object it
    was made from. *)
Lemma language_written (w : World) (o : props)
  (namespace BASE_LANGUAGE lang : jsstring) :
  parsed (Obj o) = true ->
  treeAll ordinaryKeys o = true ->
  plainRoot o = true ->
  exists written,
    translateLanguage w namespace BASE_LANGUAGE (flattenObject (Obj o) [])
      (loadOverrides w) lang = Returns written
    /\ flattenObject written []
       = flatOutput w namespace BASE_LANGUAGE (flattenObject (Obj o) [])
           (loadOverrides w) lang.
Proof.
  intros Hp Hord Hroot.
  destruct (source_fit _ Hp Hord) as [Hfit Hall].
  pose proof (fit_parts _ Hfit) as [Hd [Hdot Hown]].
  assert (Hsound : Forall (fun kv => nestedAll sound (snd kv) = true) o).
  { eapply Forall_impl; [|exact Hall]. intros kv.
    apply nestedAll_weaken, fit_sound. }
  set (flat := flattenObject (Obj o) []).
  set (g := outputAt w namespace BASE_LANGUAGE flat lang).
  assert (Hg : forall k x, g k = Some x -> isLeaf x = true).
  { intros k x. apply outputAt_leaf. apply flattenObject_leaves. }
  assert (Hsel : flatOutput w namespace BASE_LANGUAGE flat (loadOverrides w)
                   lang = select g flat)
    by (apply flatOutput_select, flattenObject_NoDup).
  destruct (@unflatten_select g Hg o Hfit Hroot Hall) as [Hflat Hun].
  exists (Obj (pruneFields g [] o)). split.
  - unfold translateLanguage. cbv zeta. rewrite Hsel. fold flat in Hun.
    rewrite Hun. unfold flat. now rewrite select_keeps_source.
  - rewrite Hsel. exact Hflat.
Qed.

Lemma translateAll_returns (w : World) (namespace BASE_LANGUAGE : jsstring)
  (flat : props) (overrides : OverrideConfig) (before rest : list jsstring) :
  Forall
    (fun l => exists v,
       translateLanguage w namespace BASE_LANGUAGE flat overrides l
       = Returns v) before ->
  exists files,
    map fst files = before
    /\ Forall
         (fun f =>
            translateLanguage w namespace BASE_LANGUAGE flat overrides (fst f)
            = Returns (snd f)) files
    /\ translateAll w namespace BASE_LANGUAGE flat overrides (before ++ rest)
       = (files
            ++ fst (translateAll w namespace BASE_LANGUAGE flat overrides
                      rest),
          snd (translateAll w namespace BASE_LANGUAGE flat overrides rest)).
Proof.
  induction 1 as [|l before [v Hv] _ [files [Hf [Hall IH]]]].
  - exists []. repeat split; auto. simpl. now destruct (translateAll _ _ _ _ _ _).
  - exists ((l, v) :: files). simpl. rewrite Hf, Hv, IH.
    repeat split; auto.
Qed.

(** For a source tree with ordinary keys the run writes the file of every
    language and completes. *)
Lemma run_written (w : World) (o : props)
  (namespace BASE_LANGUAGE : jsstring) (langs : list jsstring) :
  parsed (Obj o) = true ->
  treeAll ordinaryKeys o = true ->
  plainRoot o = true ->
  exists files,
    run w (Obj o) namespace BASE_LANGUAGE langs = (files, Completed)
    /\ map fst files = langs
    /\ Forall
         (fun f =>
            translateLanguage w namespace BASE_LANGUAGE
              (flattenObject (Obj o) []) (loadOverrides w) (fst f)
            = Returns (snd f)) files.
Proof.
  intros Hp Hord Hroot.
  destruct (@translateAll_returns w namespace BASE_LANGUAGE
              (flattenObject (Obj o) []) (loadOverrides w) langs [])
    as [files [Hf [Hall Hrun]]].
  { apply Forall_forall. intros l _.
    destruct (@language_written w o namespace BASE_LANGUAGE l Hp Hord Hroot)
      as [v [Hv _]].
    now exists v. }
  exists files. rewrite app_nil_r in Hrun. simpl in Hrun.
  rewrite app_nil_r in Hrun. unfold run. cbv zeta. auto.
Qed.











(** C7 at an input on which the code departs from it. The table forces
    "Forced" for [a] in English; [a] is up to date in the cache, so no key
    needs translation, the file is written before the overrides are
    applied, and the output keeps the cached translation "OK". *)
Theorem override_skipped_when_nothing_to_translate :
  let w := Sample.failing (Some Sample.freshCache) (Some Sample.forced) in
  let flat := flattenObject Sample.tamam [] in
  overrideFor (loadOverrides w) Sample.login Sample.en Sample.keyA
  = Some (str "Forced")
  /\ readProp flat Sample.keyA = Str (str "Tamam")
  /\ batchOf w Sample.login flat Sample.en = []
  /\ flatOutput w Sample.login Sample.tr flat (loadOverrides w) Sample.en
     = [(Sample.keyA, entry (Str (str "OK")) (md5 (str "Tamam")))]
  /\ run w Sample.tamam Sample.login Sample.tr [Sample.en]
     = ([(Sample.en,
          Obj [(Sample.keyA, entry (Str (str "OK")) (md5 (str "Tamam")))])],
        Completed).
Proof. vm_compute. repeat split. Qed.

(* ================================================================== *)
(** * Overrides on the path that translates *)




(* ================================================================== *)
(** * A changed source text *)





(* ================================================================== *)
(** * Values that are no strings, and the source language *)

Lemma overrides_fold_nonstring (sourceTexts : props) (key : jsstring) :
  isString (readProp sourceTexts key) = false ->
  forall (byKey : object jsstring) (st : props * nat),
    getProp (fst (fold_left (overrideStep sourceTexts) byKey st)) key
    = getProp (fst st) key.
Proof.
  intros Hsrc. induction byKey as [|[k o] byKey IH]; intros [translations n];
    auto.
  cbn [fold_left]. rewrite IH. unfold overrideStep.
  destruct (negb (isUndefined (readProp translations k))); auto.
  destruct (readProp sourceTexts k) eqn:Ek; auto.
  simpl. apply getProp_setProp_other. intros ->.
  rewrite Ek in Hsrc. discriminate.
Qed.

Lemma applyOverrides_nonstring (translations : props)
  (overrides : OverrideConfig) (namespace language : jsstring)
  (sourceTexts : props) (key : jsstring) :
  isString (readProp sourceTexts key) = false ->
  getProp
    (fst (applyOverrides translations overrides namespace language
            sourceTexts)) key
  = getProp translations key.
Proof.
  intros Hsrc. unfold applyOverrides.
  destruct (getProp overrides namespace) as [byLanguage|]; auto.
  destruct (getProp byLanguage language) as [byKey|]; auto.
  now apply overrides_fold_nonstring.
Qed.

(** In the flat output of every language a source value that is no
    string stands as it is under its key. *)
Lemma nonstring_flat (w : World) (sourceJson : value)
  (namespace BASE_LANGUAGE lang key : jsstring) :
  parsed sourceJson = true ->
  In key (keys (flattenObject sourceJson [])) ->
  isString (readProp (flattenObject sourceJson []) key) = false ->
  getProp
    (flatOutput w namespace BASE_LANGUAGE (flattenObject sourceJson [])
       (loadOverrides w) lang) key
  = Some (readProp (flattenObject sourceJson []) key).
Proof.
  intros Hp Hin Hns.
  pose proof (flattenObject_NoDup sourceJson []) as Hnd.
  unfold flatOutput.
  destruct (JsString.eqb (toLowerCase lang) BASE_LANGUAGE).
  - rewrite baseLanguageFlat_map by exact Hnd.
    rewrite getProp_map_values, (In_keys_readProp _ _ Hin). simpl.
    destruct (readProp (flattenObject sourceJson []) key);
      try reflexivity. discriminate.
  - assert (Hfinal :
              getProp
                (finalTranslationsOf w namespace BASE_LANGUAGE
                   (flattenObject sourceJson []) (loadOverrides w) lang) key
              = Some (readProp (flattenObject sourceJson []) key)).
    { rewrite finalTranslationsOf_eq. cbv zeta.
      assert (Hnb : ~ In key
                      (map fst
                         (snd (scanSource (flattenObject sourceJson [])
                                 (loadCache w namespace lang))))).
      { intros Hb. destruct (pending_key _ _ _ Hb) as [text [E _]].
        rewrite E in Hns. discriminate. }
      destruct (snd (scanSource (flattenObject sourceJson [])
                       (loadCache w namespace lang))) as [|b batch] eqn:Eb.
      - now apply final0_other.
      - rewrite <- Eb in *. rewrite applyOverrides_nonstring by exact Hns.
        destruct (requestTranslations w _ lang BASE_LANGUAGE).
        + rewrite mergeResults_other by exact Hnb. now apply final0_other.
        + now apply final0_other. }
    rewrite reorder_get; auto.
    + unfold readProp at 1. now rewrite Hfinal.
    + unfold readProp at 1. rewrite Hfinal. now apply flat_defined.
Qed.

(** X4. For a source tree whose keys, and the keys of its nested objects
    that are no terminal leaves, are distinct, hold no dot and are
    ordinary names, and in which the empty string is not the top-level
    key of a nested object: a source value that is no string (a number, a
    boolean, null, an array, an object with the shape of an entry) is
    written as it is under its key path in the file of every target
    language of the run, the source language included, whatever the
    cache, the providers and the override table hold; the run writes the
    file of every language and completes. *)
Theorem nonstring_value_passes_through :
  forall (w : World) (o : props)
         (namespace BASE_LANGUAGE key : jsstring)
         (targetLanguages : list jsstring),
    let flat := flattenObject (Obj o) [] in
    parsed (Obj o) = true ->
    treeAll ordinaryKeys o = true ->
    plainRoot o = true ->
    In key (keys flat) ->
    isString (readProp flat key) = false ->
    exists files,
      run w (Obj o) namespace BASE_LANGUAGE targetLanguages
      = (files, Completed)
      /\ map fst files = targetLanguages
      /\ Forall
           (fun f =>
              getProp (flattenObject (snd f) []) key
              = Some (readProp flat key)) files.
Proof.
  intros w o namespace BASE_LANGUAGE key targetLanguages flat
    Hp Hord Hroot Hin Hns.
  destruct (@run_written w o namespace BASE_LANGUAGE targetLanguages
              Hp Hord Hroot) as [files [Hrun [Hlangs Hall]]].
  exists files. split; [exact Hrun|]. split; [exact Hlangs|].
  eapply Forall_impl; [|exact Hall]. intros [l v] Hv. simpl in *.
  destruct (@language_written w o namespace BASE_LANGUAGE l Hp Hord Hroot)
    as [written [Hw Hflat]].
  rewrite Hv in Hw. injection Hw as ->. rewrite Hflat.
  exact (@nonstring_flat w (Obj o) namespace BASE_LANGUAGE l key
           Hp Hin Hns).
Qed.

Lemma nonstring_value_passes_through_witness :
  exists files,
    run (Sample.failing (Some Sample.staleTree) (Some Sample.forced))
      (Obj Sample.tree) Sample.login Sample.tr [Sample.en; Sample.tr]
    = (files, Completed)
    /\ map fst files = [Sample.en; Sample.tr]
    /\ Forall
         (fun f =>
            getProp (flattenObject (snd f) []) (str "n") = Some (Num 3))
         files.
Proof.
  exact (@nonstring_value_passes_through
           (Sample.failing (Some Sample.staleTree) (Some Sample.forced))
           Sample.tree Sample.login Sample.tr (str "n")
           [Sample.en; Sample.tr] eq_refl eq_refl eq_refl
           (or_intror (or_intror (or_introl eq_refl))) eq_refl).
Defined.

(** The same fails for keys that continue one another after a dot: for
    the source [{"a": 5, "a.b": "y"}] storing [a.b] below the number
    throws and no file is written. *)
Example nonstring_value_not_written :
  run Sample.offline (Obj [(str "a", Num 5); (str "a.b", Str (str "y"))])
    Sample.login Sample.tr [Sample.tr]
  = ([], Exit1).
Proof. reflexivity. Qed.

(** X5. For the source language the object written holds, key by key in
    the order of the source, the entry {translation: text, sourceHash: md5
    of the text} for a string and the value itself for anything else; the
    cache, the providers and the override table have no part in it. *)
Theorem source_language_file :
  forall (w : World) (sourceJson : value)
         (namespace BASE_LANGUAGE lang : jsstring),
    JsString.eqb (toLowerCase lang) BASE_LANGUAGE = true ->
    flatOutput w namespace BASE_LANGUAGE (flattenObject sourceJson [])
      (loadOverrides w) lang
    = map (fun kv => (fst kv, selfEntry (snd kv)))
        (flattenObject sourceJson []).
Proof.
  intros w sourceJson namespace BASE_LANGUAGE lang Hlang.
  unfold flatOutput. rewrite Hlang.
  apply baseLanguageFlat_map, flattenObject_NoDup.
Qed.

Lemma source_language_file_witness :
  flatOutput (Sample.online (Some Sample.staleCache) (Some Sample.forced))
    Sample.login Sample.tr (flattenObject Sample.three [])
    (loadOverrides
       (Sample.online (Some Sample.staleCache) (Some Sample.forced)))
    (str "TR")
  = map (fun kv => (fst kv, selfEntry (snd kv)))
      (flattenObject Sample.three []).
Proof.
  apply source_language_file. reflexivity.
Defined.

(* ================================================================== *)
(** * Where a translated text goes *)








(* ================================================================== *)
(** * How the loop over the languages ends *)

(** X7. The loop over the target languages writes one file per language,
    in the order of the languages, as long as [unflattenObject] returns;
    at the first language for which it throws, the run ends with exit
    code 1: the files of the languages before it are written, no file is
    written for it or for a language after it. *)
Theorem run_ends_at_first_throw :
  forall (w : World) (sourceJson : value) (namespace BASE_LANGUAGE : jsstring)
         (before after : list jsstring),
    Forall
      (fun l => exists v,
         translateLanguage w namespace BASE_LANGUAGE
           (flattenObject sourceJson []) (loadOverrides w) l = Returns v)
      before ->
    (exists files,
       map fst files = before
       /\ Forall
            (fun f =>
               translateLanguage w namespace BASE_LANGUAGE
                 (flattenObject sourceJson []) (loadOverrides w) (fst f)
               = Returns (snd f)) files
       /\ run w sourceJson namespace BASE_LANGUAGE before = (files, Completed)
       /\ forall lang,
            translateLanguage w namespace BASE_LANGUAGE
              (flattenObject sourceJson []) (loadOverrides w) lang = Throws ->
            run w sourceJson namespace BASE_LANGUAGE (before ++ lang :: after)
            = (files, Exit1)).
Proof.
  intros w sourceJson namespace BASE_LANGUAGE before after Hall.
  destruct (@translateAll_returns w namespace BASE_LANGUAGE
              (flattenObject sourceJson []) (loadOverrides w) before []
              Hall) as [files [Hf [Hr Hnil]]].
  exists files. repeat split; auto.
  - unfold run. rewrite <- (app_nil_r before) at 1. rewrite Hnil.
    simpl. now rewrite app_nil_r.
  - intros lang Hthrow.
    destruct (@translateAll_returns w namespace BASE_LANGUAGE
                (flattenObject sourceJson []) (loadOverrides w) before
                (lang :: after) Hall) as [files' [Hf' [Hr' Hcons]]].
    assert (files' = files).
    { clear Hcons Hnil. revert files' Hf' Hr'. revert Hf.
      generalize before. induction Hr as [|[l v] files Hv _ IH];
        intros bs Hf files' Hf' Hr'.
      - simpl in Hf. subst bs. destruct files'; [auto|discriminate].
      - simpl in Hf. subst bs. destruct files' as [|[l' v'] files'];
          [discriminate|].
        simpl in Hf'. injection Hf' as -> Hf'.
        apply Forall_cons_iff in Hr' as [Hv' Hr']. simpl in Hv, Hv'.
        rewrite Hv in Hv'. injection Hv' as <-. f_equal.
        now apply (IH (map fst files)). }
    subst files'. unfold run. rewrite Hcons. simpl. rewrite Hthrow.
    simpl. now rewrite app_nil_r.
Qed.

Lemma run_ends_at_first_throw_witness :
  exists files,
    map fst files = [Sample.tr]
    /\ Forall
         (fun f =>
            translateLanguage (Sample.failing (Some Sample.rawCache) None)
              Sample.login Sample.tr (flattenObject Sample.clash [])
              (loadOverrides (Sample.failing (Some Sample.rawCache) None))
              (fst f) = Returns (snd f)) files
    /\ run (Sample.failing (Some Sample.rawCache) None) Sample.clash
         Sample.login Sample.tr [Sample.tr] = (files, Completed)
    /\ forall lang,
         translateLanguage (Sample.failing (Some Sample.rawCache) None)
           Sample.login Sample.tr (flattenObject Sample.clash [])
           (loadOverrides (Sample.failing (Some Sample.rawCache) None)) lang
         = Throws ->
         run (Sample.failing (Some Sample.rawCache) None) Sample.clash
           Sample.login Sample.tr ([Sample.tr] ++ lang :: [Sample.de])
         = (files, Exit1).
Proof.
  apply run_ends_at_first_throw.
  constructor; [|constructor].
  eexists. vm_compute. reflexivity.
Defined.

(** The source [{"a": "x", "a.b": 1}] with the cache [{"a": "old"}] and no
    provider: the Turkish file is written, the English one makes
    [unflattenObject] assign a property of the string "old", and nothing is
    written for German. *)
Example run_raw_cache_clash :
  run (Sample.failing (Some Sample.rawCache) None) Sample.clash
    Sample.login Sample.tr [Sample.tr; Sample.en; Sample.de]
  = ([(Sample.tr,
       Obj [(Sample.keyA,
             Obj [(translationKey, Str (str "x"));
                  (sourceHashKey, Str (md5 (str "x")));
                  (str "b", Num 1)])])],
     Exit1).
Proof. vm_compute. reflexivity. Qed.

(* ================================================================== *)
(** * A second run on the files of the first *)

Lemma cacheHit_getProp (o o' : props) (key text : jsstring) :
  getProp o key = getProp o' key -> cacheHit o key text = cacheHit o' key text.
Proof. unfold cacheHit. now intros ->. Qed.

Lemma cacheHit_entry (o : props) (key text : jsstring) (t : value) :
  getProp o key = Some (entry t (md5 text)) -> cacheHit o key text = true.
Proof.
  intros H. unfold cacheHit. rewrite H. unfold entry.
  cbn [map fst existsb getProp].
  replace (JsString.eqb (str "translation") translationKey) with true
    by reflexivity.
  replace (JsString.eqb translationKey (str "sourceHash")) with false
    by reflexivity.
  replace (JsString.eqb sourceHashKey (str "sourceHash")) with true
    by reflexivity.
  simpl. apply jseqb_refl.
Qed.

Lemma cacheHit_leaf (o : props) (key text : jsstring) :
  cacheHit o key text = true ->
  isLeaf (readProp o key) = true /\ defined (readProp o key) = true.
Proof.
  unfold cacheHit, readProp.
  destruct (getProp o key) as [[| | | | | |e]|]; try discriminate.
  intros H. apply andb_true_iff in H as [Ht Hh]. split; auto.
  unfold isLeaf, isTranslationEntry. rewrite !hasProp_existsb.
  unfold translationKey. rewrite Ht. simpl.
  rewrite <- hasProp_existsb. unfold hasProp, sourceHashKey.
  destruct (getProp e (str "sourceHash")); [reflexivity|discriminate].
Qed.

Lemma overrides_fold_hit (sourceTexts : props) (key text : jsstring) :
  readProp sourceTexts key = Str text ->
  forall (byKey : object jsstring) (st : props * nat),
    cacheHit (fst st) key text = true ->
    cacheHit (fst (fold_left (overrideStep sourceTexts) byKey st)) key text
    = true.
Proof.
  intros Hsrc. induction byKey as [|[k o] byKey IH]; intros [translations n] H;
    auto.
  cbn [fold_left]. apply IH. unfold overrideStep.
  destruct (negb (isUndefined (readProp translations k))); auto.
  destruct (readProp sourceTexts k) eqn:Ek; auto.
  simpl. destruct (JsString.eqb k key) eqn:E.
  - apply jseqb_eq in E. subst k. rewrite Hsrc in Ek. injection Ek as <-.
    apply (@cacheHit_entry _ key text (Str o)). apply getProp_setProp_same.
  - apply jseqb_neq in E. simpl in H. rewrite <- H.
    apply cacheHit_getProp. now apply getProp_setProp_other.
Qed.

Lemma applyOverrides_hit (translations : props) (overrides : OverrideConfig)
  (namespace language : jsstring) (sourceTexts : props)
  (key text : jsstring) :
  readProp sourceTexts key = Str text ->
  cacheHit translations key text = true ->
  cacheHit
    (fst (applyOverrides translations overrides namespace language
            sourceTexts)) key text = true.
Proof.
  intros Hsrc H. unfold applyOverrides.
  destruct (getProp overrides namespace) as [byLanguage|]; auto.
  destruct (getProp byLanguage language) as [byKey|]; auto.
  now apply overrides_fold_hit.
Qed.

Lemma setProp_same (o : props) (k : jsstring) (v : value) :
  getProp o k = Some v -> setProp o k v = o.
Proof.
  induction o as [|[k' v'] o IH]; simpl; [discriminate|].
  destruct (JsString.eqb k' k) eqn:E.
  - intros [= ->]. reflexivity.
  - intros H. now rewrite IH.
Qed.

Lemma getProp_rekey_values (psi : jsstring -> value -> value) (r : props)
  (k : jsstring) :
  getProp (rekey (fun k => k) psi r) k = option_map (psi k) (getProp r k).
Proof.
  unfold rekey. induction r as [|[k' v] r IH]; simpl; auto.
  destruct (JsString.eqb k' k) eqn:E; auto.
  apply jseqb_eq in E. now subst.
Qed.

Lemma rekey_keys (psi : jsstring -> value -> value) (r : props) :
  keys (rekey (fun k => k) psi r) = keys r.
Proof. unfold keys, rekey. rewrite map_map. reflexivity. Qed.

(** An object whose values are all defined, copied key by key in its own
    order, is the object. *)
Lemma reorder_own (r : props) :
  NoDup (keys r) ->
  Forall (fun kv => defined (snd kv) = true) r ->
  reorder (keys r) r = r.
Proof.
  intros Hnd Hdef. rewrite reorder_spec by exact Hnd.
  assert (Hread : forall k v, In (k, v) r -> readProp r k = v).
  { intros k v Hin. unfold readProp. now rewrite (In_getProp _ _ _ Hnd Hin). }
  clear Hnd. unfold keys.
  assert (Hgen : forall l,
             (forall kv, In kv l -> In kv r) ->
             flat_map
               (fun k =>
                  if defined (readProp r k) then [(k, readProp r k)] else [])
               (map fst l) = l).
  { induction l as [|[k v] l IH]; intros Hsub; simpl; auto.
    rewrite (Hread k v) by (apply Hsub; now left).
    rewrite Forall_forall in Hdef.
    assert (Hv : defined v = true)
      by (apply (Hdef (k, v)); apply Hsub; now left).
    rewrite Hv. simpl. f_equal. apply IH.
    intros kv Hin. apply Hsub. now right. }
  apply Hgen. auto.
Qed.

Section Runs.
Variable w : World.
Variable o : props.
Variables namespace BASE_LANGUAGE lang : jsstring.
Local Abbreviation flat := (flattenObject (Obj o) []).
Local Abbreviation final :=
  (finalTranslationsOf w namespace BASE_LANGUAGE flat (loadOverrides w) lang).

Lemma final_nonstring (key : jsstring) :
  In key (keys flat) ->
  isString (readProp flat key) = false ->
  getProp final key = Some (readProp flat key).
Proof.
  intros Hin Hns. rewrite finalTranslationsOf_eq. cbv zeta.
  assert (Hnb : ~ In key
                  (map fst (snd (scanSource flat (loadCache w namespace lang))))).
  { intros Hb. destruct (pending_key _ _ _ Hb) as [text [E _]].
    rewrite E in Hns. discriminate. }
  destruct (snd (scanSource flat (loadCache w namespace lang)))
    as [|b batch] eqn:Eb.
  - now apply final0_other.
  - rewrite <- Eb in *. rewrite applyOverrides_nonstring by exact Hns.
    destruct (requestTranslations w _ lang BASE_LANGUAGE).
    + rewrite mergeResults_other by exact Hnb. now apply final0_other.
    + now apply final0_other.
Qed.

Hypothesis Hanswered :
  batchOf w namespace flat lang = []
  \/ exists translatedTexts,
       requestTranslations w (batchOf w namespace flat lang) lang
         BASE_LANGUAGE = Some translatedTexts
       /\ List.length translatedTexts
          = List.length (batchOf w namespace flat lang).

Lemma final_hit (key text : jsstring) :
  readProp flat key = Str text -> cacheHit final key text = true.
Proof.
  intros Hsrc.
  assert (Hin : In key (keys flat)).
  { unfold readProp in Hsrc. destruct (getProp flat key) eqn:E;
      [|discriminate].
    apply getProp_Some_In in E. apply in_map_iff. now exists (key, v). }
  assert (Hzero : ~ In key
                      (map fst
                         (snd (scanSource flat (loadCache w namespace lang)))) ->
                  cacheHit (fst (scanSource flat (loadCache w namespace lang)))
                    key text = true).
  { intros Hnb.
    rewrite (@cacheHit_getProp _ (loadCache w namespace lang) key text)
      by (now apply final0_string with (text := text)).
    destruct (cacheHit (loadCache w namespace lang) key text) eqn:Hh; auto.
    exfalso. apply Hnb. apply in_map_iff. exists (key, text). split; auto.
    apply pending_in. auto. }
  rewrite finalTranslationsOf_eq. cbv zeta. unfold batchOf in Hanswered.
  destruct (snd (scanSource flat (loadCache w namespace lang)))
    as [|b batch] eqn:Eb.
  - apply Hzero. intros [].
  - rewrite <- Eb in *.
    destruct Hanswered as [Hnil|[texts [Hreq _]]];
      [rewrite Eb in Hnil; discriminate|].
    rewrite Hreq. apply applyOverrides_hit; auto.
    destruct (in_dec (list_eq_dec N.eq_dec) key
                (map fst (snd (scanSource flat (loadCache w namespace lang)))))
      as [Hb|Hnb].
    + destruct (@mergeResults_pending
                  (fst (scanSource flat (loadCache w namespace lang)))
                  _ texts key Hb) as [t [text' [Hin' Hget]]].
      apply pending_in in Hin' as [_ [Hsrc' _]].
      rewrite Hsrc in Hsrc'. injection Hsrc' as <-.
      now apply (@cacheHit_entry _ key text t).
    + rewrite (@cacheHit_getProp _
                 (fst (scanSource flat (loadCache w namespace lang)))
                 key text)
        by (now apply mergeResults_other).
      now apply Hzero.
Qed.

Hypothesis Hparsed : parsed (Obj o) = true.

(** Every source key has a value that is a terminal leaf. *)
Lemma final_leaf (key : jsstring) :
  In key (keys flat) ->
  isLeaf (readProp final key) = true /\ defined (readProp final key) = true.
Proof.
  intros Hin. destruct (isString (readProp flat key)) eqn:Es.
  - destruct (readProp flat key) as [| | | |text| |] eqn:E;
      try discriminate.
    apply (@cacheHit_leaf _ key text). now apply final_hit.
  - assert (Hfinal : readProp final key = readProp flat key)
      by (unfold readProp at 1; now rewrite final_nonstring).
    rewrite Hfinal. split.
    + rewrite <- terminal_isLeaf.
      pose proof (flattenObject_terminal (Obj o) []) as Ht.
      rewrite Forall_forall in Ht.
      apply (Ht (key, readProp flat key)).
      apply getProp_Some_In. now apply In_keys_readProp.
    + now apply flat_defined.
Qed.

Lemma flatOutput_rekey :
  JsString.eqb (toLowerCase lang) BASE_LANGUAGE = false ->
  flatOutput w namespace BASE_LANGUAGE flat (loadOverrides w) lang
  = rekey (fun k => k) (fun k _ => leafOr final k) flat.
Proof.
  intros Hlang. unfold flatOutput. rewrite Hlang.
  rewrite reorder_spec by apply flattenObject_NoDup.
  unfold rekey, keys.
  assert (Hgen : forall l : props,
             (forall kv, In kv l -> In (fst kv) (keys flat)) ->
             flat_map
               (fun k =>
                  if defined (readProp final k)
                  then [(k, readProp final k)] else [])
               (map fst l)
             = map (fun kv => (fst kv, leafOr final (fst kv))) l).
  { induction l as [|[k v] l IH]; intros Hsub; simpl; auto.
    destruct (@final_leaf k) as [Hleaf Hdef];
      [apply (Hsub (k, v)); now left|].
    rewrite Hdef. unfold leafOr at 1. rewrite Hleaf. simpl. f_equal.
    apply IH. intros kv Hin. apply Hsub. now right. }
  apply Hgen. intros kv Hin. now apply in_map.
Qed.

End Runs.

Lemma leafOr_leaf (final : props) (k : jsstring) :
  isLeaf (leafOr final k) = true.
Proof.
  unfold leafOr. destruct (isLeaf (readProp final k)) eqn:E; auto.
Qed.

Lemma cacheHit_readProp (o o' : props) (key text : jsstring) :
  getProp o' key = Some (readProp o key) ->
  cacheHit o key text = true -> cacheHit o' key text = true.
Proof.
  unfold cacheHit, readProp. intros ->.
  destruct (getProp o key); [auto|discriminate].
Qed.

Lemma passThrough_fixed (flat F : props) (ks : list jsstring) :
  (forall k, In k ks -> isString (readProp flat k) = false ->
             getProp F k = Some (readProp flat k)) ->
  fold_left (passThrough flat) ks F = F.
Proof.
  induction ks as [|k ks IH]; intros H; simpl; auto.
  assert (Hk : passThrough flat F k = F).
  { unfold passThrough.
    destruct (readProp flat k) eqn:E; auto;
      apply setProp_same; rewrite <- E; apply H; try (now left);
      now rewrite E. }
  rewrite Hk. apply IH. intros k' Hin. apply H. now right.
Qed.

Lemma pendingOf_none (flat cached : props) (ks : list jsstring) :
  (forall k text, In k ks -> readProp flat k = Str text ->
                  cacheHit cached k text = true) ->
  flat_map (pendingOf flat cached) ks = [].
Proof.
  induction ks as [|k ks IH]; intros H; simpl; auto.
  rewrite IH by (intros k' text Hin; apply H; now right).
  rewrite app_nil_r. unfold pendingOf.
  destruct (readProp flat k) eqn:E; auto.
  now rewrite (H k s (or_introl eq_refl) E).
Qed.

(** X11. For a source tree whose keys, and the keys of its nested
    objects that are no terminal leaves, are distinct, hold no dot and are
    ordinary names, and in which the empty string is not the top-level
    key of a nested object: a run whose providers answer every text of the
    batch (or that has nothing to translate) writes a file on which a
    second run of the same source finds nothing to translate: with that
    file as its cache the batch is empty, no provider is asked, and the
    same file is written again. *)
Theorem second_run_translates_nothing :
  forall (w : World) (o : props) (namespace BASE_LANGUAGE lang : jsstring),
    parsed (Obj o) = true ->
    treeAll ordinaryKeys o = true ->
    plainRoot o = true ->
    JsString.eqb (toLowerCase lang) BASE_LANGUAGE = false ->
    (batchOf w namespace (flattenObject (Obj o) []) lang = []
     \/ exists translatedTexts,
          requestTranslations w
            (batchOf w namespace (flattenObject (Obj o) []) lang) lang
            BASE_LANGUAGE = Some translatedTexts
          /\ List.length translatedTexts
             = List.length
                 (batchOf w namespace (flattenObject (Obj o) []) lang)) ->
    exists written,
      translateLanguage w namespace BASE_LANGUAGE (flattenObject (Obj o) [])
        (loadOverrides w) lang = Returns written
      /\ forall w2 : World,
           cacheFile w2 namespace lang = Some written ->
           batchOf w2 namespace (flattenObject (Obj o) []) lang = []
           /\ translateLanguage w2 namespace BASE_LANGUAGE
                (flattenObject (Obj o) []) (loadOverrides w2) lang
              = Returns written.
Proof.
  intros w o namespace BASE_LANGUAGE lang Hparsed Hord Hroot Hlang Hans.
  destruct (@language_written w o namespace BASE_LANGUAGE lang Hparsed Hord
              Hroot) as [written [Hw Hflat]].
  set (flat := flattenObject (Obj o) []) in *.
  set (final := finalTranslationsOf w namespace BASE_LANGUAGE flat
                  (loadOverrides w) lang).
  set (g := leafOr final).
  set (F := rekey (fun k => k) (fun k _ => g k) flat).
  pose proof (flattenObject_NoDup (Obj o) []) as Hnd. fold flat in Hnd.
  assert (Hout : flatOutput w namespace BASE_LANGUAGE flat (loadOverrides w)
                   lang = F)
    by (now apply flatOutput_rekey).
  assert (Hleaf : forall k, In k (keys flat) ->
                            g k = readProp final k
                            /\ defined (readProp final k) = true).
  { intros k Hin.
    destruct (@final_leaf w o namespace BASE_LANGUAGE lang Hans Hparsed k Hin)
      as [Hl Hd].
    change (isLeaf (readProp final k) = true) in Hl.
    change (defined (readProp final k) = true) in Hd.
    split; auto. unfold g, leafOr. now rewrite Hl. }
  assert (HF : forall k, In k (keys flat) ->
                         getProp F k = Some (readProp final k)).
  { intros k Hin. unfold F. rewrite getProp_rekey_values.
    rewrite (In_keys_readProp _ _ Hin). simpl. f_equal.
    now apply Hleaf. }
  exists written. split; [exact Hw|].
  intros w2 Hcache.
  assert (Hload : loadCache w2 namespace lang = F).
  { unfold loadCache. rewrite Hcache, Hflat. exact Hout. }
  assert (Hbatch : batchOf w2 namespace flat lang = []).
  { unfold batchOf. rewrite Hload, batch_spec.
    apply pendingOf_none. intros k text Hin Hsrc.
    apply (@cacheHit_readProp final F k text); auto.
    apply (@final_hit w o namespace BASE_LANGUAGE lang Hans k text Hsrc). }
  split; [exact Hbatch|].
  assert (Hout2 : flatOutput w2 namespace BASE_LANGUAGE flat
                    (loadOverrides w2) lang = F).
  { unfold flatOutput. rewrite Hlang.
    rewrite finalTranslationsOf_eq. cbv zeta.
    unfold batchOf in Hbatch. rewrite Hbatch, Hload.
    rewrite final_spec.
    rewrite passThrough_fixed.
    + replace (keys flat) with (keys F) by apply rekey_keys.
      rewrite reorder_own; auto.
      * unfold F. now rewrite rekey_keys.
      * unfold F, rekey. apply Forall_forall. intros kv Hin.
        apply in_map_iff in Hin as [[k v] [<- Hin]]. simpl.
        assert (Hk : In k (keys flat)) by (apply in_map_iff; now exists (k, v)).
        destruct (Hleaf k Hk) as [-> Hd]. exact Hd.
    + intros k Hin Hns. rewrite (HF k Hin). f_equal.
      pose proof (@final_nonstring w o namespace BASE_LANGUAGE lang k Hin Hns)
        as Hfn.
      change (getProp final k = Some (readProp flat k)) in Hfn.
      unfold readProp at 1. now rewrite Hfn. }
  rewrite <- Hw. unfold translateLanguage. cbv zeta.
  now rewrite Hout2, Hout.
Qed.

Lemma second_run_translates_nothing_witness :
  exists written,
    translateLanguage
      (Sample.online (Some Sample.staleTree) (Some Sample.forced))
      Sample.login Sample.tr (flattenObject (Obj Sample.tree) [])
      (loadOverrides
         (Sample.online (Some Sample.staleTree) (Some Sample.forced)))
      Sample.en = Returns written
    /\ forall w2 : World,
         cacheFile w2 Sample.login Sample.en = Some written ->
         batchOf w2 Sample.login (flattenObject (Obj Sample.tree) [])
           Sample.en = []
         /\ translateLanguage w2 Sample.login Sample.tr
              (flattenObject (Obj Sample.tree) []) (loadOverrides w2)
              Sample.en
            = Returns written.
Proof.
  apply second_run_translates_nothing; try reflexivity.
  right. exists [str "New"; str "New"]. split; vm_compute; reflexivity.
Defined.

(** The file the first run of the witness writes. *)
Example second_run_sample :
  translateLanguage
    (Sample.online (Some Sample.staleTree) (Some Sample.forced))
    Sample.login Sample.tr (flattenObject (Obj Sample.tree) [])
    (loadOverrides
       (Sample.online (Some Sample.staleTree) (Some Sample.forced)))
    Sample.en
  = Returns
      (Obj [(str "menu",
             Obj [(Sample.keyA, entry (Str (str "New")) (md5 (str "Tamam")))]);
            (Sample.keyB, entry (Str (str "New")) (md5 (str "Yeni")));
            (str "n", Num 3)]).
Proof. vm_compute. reflexivity. Qed.

(* ================================================================== *)
(** * The source language *)

Lemma lastSegment_fold (t : jsstring) :
  forallb (fun c => negb (c =? slash)%N) t = true ->
  forall seg,
    fold_left (fun seg c => if (c =? slash)%N then [] else seg ++ [c]) t seg
    = seg ++ t.
Proof.
  induction t as [|c t IH]; intros Ht seg; simpl.
  - now rewrite app_nil_r.
  - simpl in Ht. apply andb_true_iff in Ht as [Hc Ht].
    apply negb_true_iff in Hc. rewrite Hc, IH by exact Ht.
    now rewrite <- app_assoc.
Qed.

Lemma lastSegment_app (x t : jsstring) :
  forallb (fun c => negb (c =? slash)%N) t = true ->
  lastSegment (x ++ t) = lastSegment x ++ t.
Proof.
  intros Ht. unfold lastSegment. rewrite fold_left_app.
  now apply lastSegment_fold.
Qed.

(** A path that ends in a name without a slash has a base name that ends
    in that name. *)
Lemma basename_app (x t : jsstring) :
  t <> [] ->
  forallb (fun c => negb (c =? slash)%N) t = true ->
  basename (x ++ t) = lastSegment x ++ t.
Proof.
  intros Hne Ht. unfold basename.
  assert (Hdrop : dropSlashes (rev (x ++ t)) = rev (x ++ t)).
  { rewrite rev_app_distr.
    destruct (rev t) as [|c r] eqn:E.
    - apply (f_equal (@rev N)) in E. rewrite rev_involutive in E.
      simpl in E. congruence.
    - simpl. replace (c =? slash)%N with false; auto.
      symmetry. rewrite <- (forallb_rev _ t), E in Ht. simpl in Ht.
      apply andb_true_iff in Ht as [Hc _]. now apply negb_true_iff. }
  rewrite Hdrop, rev_involutive. now apply lastSegment_app.
Qed.

Lemma lowerUnit_word (a : N) :
  (97 <=? lowerUnit a)%N && (lowerUnit a <=? 122)%N = true ->
  isWord a = true.
Proof.
  unfold lowerUnit, isWord.
  destruct ((65 <=? a)%N && (a <=? 90)%N) eqn:E; [reflexivity|].
  intros H. rewrite H. now rewrite orb_true_r.
Qed.

Lemma supported_two_letters :
  Forall
    (fun l =>
       List.length l = 2%nat
       /\ forallb (fun c => (97 <=? c)%N && (c <=? 122)%N) l = true)
    ALL_SUPPORTED_LANGUAGES.
Proof. repeat constructor. Qed.

Lemma toLowerCase_lower (l : jsstring) :
  forallb (fun c => (97 <=? c)%N && (c <=? 122)%N) l = true ->
  toLowerCase l = l.
Proof.
  induction l as [|c l IH]; auto. simpl. intros H.
  apply andb_true_iff in H as [Hc Hl]. rewrite IH by exact Hl. f_equal.
  unfold lowerUnit. replace ((65 <=? c)%N && (c <=? 90)%N) with false; auto.
  symmetry. apply andb_false_iff.
  rewrite ?andb_true_iff, ?N.leb_le in Hc. rewrite !N.leb_gt. lia.
Qed.

(** X12. The source language detected is always one of the supported
    languages, the default among them, written in lower case. *)
Theorem detectSourceLanguage_supported :
  forall sourceFilePath : jsstring,
    In (detectSourceLanguage sourceFilePath) ALL_SUPPORTED_LANGUAGES
    /\ toLowerCase (detectSourceLanguage sourceFilePath)
       = detectSourceLanguage sourceFilePath.
Proof.
  intros p.
  assert (Hin : In (detectSourceLanguage p) ALL_SUPPORTED_LANGUAGES).
  { unfold detectSourceLanguage.
    destruct (langCodeOf (basename p)) as [code|]; [|now left].
    destruct (existsb (JsString.eqb (toLowerCase code))
                ALL_SUPPORTED_LANGUAGES) eqn:E; [|now left].
    now apply existsb_eqb_In. }
  split; [exact Hin|].
  pose proof supported_two_letters as H. rewrite Forall_forall in H.
  destruct (H _ Hin) as [_ Hlow]. now apply toLowerCase_lower.
Qed.

(** X13. A source file named [name.LL.json], in any directory, with [LL]
    a supported language code in any letter case, has [LL] in lower case
    as its source language. *)
Theorem detectSourceLanguage_named :
  forall stem code : jsstring,
    In (toLowerCase code) ALL_SUPPORTED_LANGUAGES ->
    detectSourceLanguage (stem ++ [46%N] ++ code ++ str ".json")
    = toLowerCase code.
Proof.
  intros stem code Hin.
  pose proof supported_two_letters as H. rewrite Forall_forall in H.
  destruct (H _ Hin) as [Hlen Hlow].
  unfold toLowerCase in Hlen, Hlow. rewrite length_map in Hlen.
  destruct code as [|a [|b [|c rest]]]; try discriminate.
  simpl in Hlow. apply andb_true_iff in Hlow as [Ha Hb].
  rewrite andb_true_r in Hb.
  apply lowerUnit_word in Ha. apply lowerUnit_word in Hb.
  assert (Hslash : forall c, isWord c = true -> negb (c =? slash)%N = true).
  { intros c Hc. apply negb_true_iff. apply N.eqb_neq. intros ->.
    discriminate. }
  unfold detectSourceLanguage.
  rewrite basename_app.
  - unfold langCodeOf. rewrite length_app.
    replace (List.length (lastSegment stem)
             + List.length ([46%N] ++ [a; b] ++ str ".json") - 8)%nat
      with (List.length (lastSegment stem)) by (simpl; lia).
    rewrite skipn_length_app. cbn [app str].
    change (skipn 0 ?l) with l.
    simpl. rewrite Ha, Hb. simpl.
    apply existsb_eqb_In in Hin. unfold toLowerCase in Hin. simpl in Hin.
    now rewrite Hin.
  - discriminate.
  - simpl. now rewrite (Hslash a Ha), (Hslash b Hb).
Qed.

Lemma detectSourceLanguage_named_witness :
  detectSourceLanguage (str "source/filters" ++ [46%N] ++ str "EN" ++ str ".json")
  = toLowerCase (str "EN").
Proof.
  apply detectSourceLanguage_named. vm_compute. tauto.
Defined.

(** Names the pattern does not match, or whose code is not supported,
    fall back to Turkish. *)
Example detectSourceLanguage_default :
  map (fun p => detectSourceLanguage (str p))
    ["source/common.json"; "filters.xx.json"; "filters.en.JSON"; "fr.json";
     "dir.en.json/file.json"]%string
  = [str "tr"; str "tr"; str "tr"; str "tr"; str "tr"].
Proof. vm_compute. reflexivity. Qed.

(* ================================================================== *)
(** * Placeholders: the matcher *)

Lemma spanWord_spec (s : jsstring) :
  s = fst (spanWord s) ++ snd (spanWord s)
  /\ forallb isWord (fst (spanWord s)) = true
  /\ (forall c r, snd (spanWord s) = c :: r -> isWord c = false).
Proof.
  induction s as [|c s [IH1 [IH2 IH3]]]; simpl.
  - repeat split; auto. discriminate.
  - destruct (isWord c) eqn:E.
    + destruct (spanWord s) as [w r]. simpl in *. rewrite E.
      repeat split; auto. congruence.
    + simpl. repeat split; auto. intros c' r [= <- <-]. exact E.
Qed.

Lemma spanWord_word (name rest : jsstring) :
  forallb isWord name = true ->
  (forall c r, rest = c :: r -> isWord c = false) ->
  spanWord (name ++ rest) = (name, rest).
Proof.
  intros Hname Hrest. induction name as [|c name IH]; simpl.
  - destruct rest as [|d rest]; auto. simpl. now rewrite (Hrest d rest).
  - simpl in Hname. apply andb_true_iff in Hname as [Hc Hname].
    now rewrite Hc, IH.
Qed.

Lemma matchPlaceholder_Some (s m r : jsstring) :
  matchPlaceholder s = Some (m, r) ->
  s = m ++ r
  /\ exists second name,
       tokenParts second name
       /\ (m = token second name \/ m = token second name ++ [rbrace]).
Proof.
  unfold matchPlaceholder. destruct s as [|c s1]; [discriminate|].
  destruct (c =? lbrace)%N eqn:Ec; [|discriminate].
  apply N.eqb_eq in Ec. subst c.
  assert (Hsecond : exists second s2,
             s1 = second ++ s2
             /\ (second = [] \/ second = [lbrace])
             /\ match s1 with
                | d :: t => if (d =? lbrace)%N then ([lbrace], t) else ([], s1)
                | [] => ([], s1)
                end = (second, s2)).
  { destruct s1 as [|d t].
    - exists [], []. auto.
    - destruct (d =? lbrace)%N eqn:Ed.
      + apply N.eqb_eq in Ed. subst d. exists [lbrace], t. auto.
      + exists [], (d :: t). auto. }
  destruct Hsecond as [second [s2 [Hs1 [Hsec Heq]]]]. rewrite Heq.
  destruct (spanWord_spec s2) as [Hs2 [Hw _]].
  destruct (spanWord s2) as [name s3]. simpl in Hs2, Hw.
  destruct name as [|n0 name]; [discriminate|].
  destruct s3 as [|e s4]; [discriminate|].
  destruct (e =? rbrace)%N eqn:Ee; [|discriminate].
  apply N.eqb_eq in Ee. subst e.
  assert (Hparts : tokenParts second (n0 :: name))
    by (repeat split; auto; discriminate).
  assert (Hone : lbrace :: s1 = token second (n0 :: name) ++ s4).
  { unfold token. rewrite Hs1, Hs2. list_norm. reflexivity. }
  destruct s4 as [|f s5].
  - intros [= <- <-]. split.
    + rewrite Hone. unfold token. list_norm. reflexivity.
    + exists second, (n0 :: name). split; auto.
  - destruct (f =? rbrace)%N eqn:Ef.
    + apply N.eqb_eq in Ef. subst f. intros [= <- <-]. split.
      * rewrite Hone. unfold token. list_norm. reflexivity.
      * exists second, (n0 :: name). split; auto. right.
        unfold token. list_norm. reflexivity.
    + intros [= <- <-]. split.
      * rewrite Hone. unfold token. list_norm. reflexivity.
      * exists second, (n0 :: name). split; auto.
Qed.

(** A text that starts with a token has a match at its head: the token,
    with the closing brace that follows it when there is one. *)
Lemma matchPlaceholder_token (second name rest : jsstring) :
  tokenParts second name ->
  matchPlaceholder (token second name ++ rest)
  = Some (match rest with
          | f :: rest' =>
              if (f =? rbrace)%N then (token second name ++ [rbrace], rest')
              else (token second name, rest)
          | [] => (token second name, rest)
          end).
Proof.
  intros [Hsec [Hne Hw]].
  assert (Hspan : spanWord (name ++ rbrace :: rest) = (name, rbrace :: rest)).
  { apply spanWord_word; auto. intros c r [= <- <-]. reflexivity. }
  destruct name as [|n0 name']; [congruence|].
  assert (Hn0 : (n0 =? lbrace)%N = false).
  { simpl in Hw. apply andb_true_iff in Hw as [Hn0 _].
    apply N.eqb_neq. intros ->. discriminate. }
  unfold token.
  replace ((lbrace :: second ++ (n0 :: name') ++ [rbrace]) ++ rest)
    with (lbrace :: second ++ (n0 :: name') ++ rbrace :: rest)
    by (list_norm; reflexivity).
  unfold matchPlaceholder. rewrite N.eqb_refl.
  destruct Hsec as [->| ->].
  - cbn [app]. rewrite Hn0.
    change (n0 :: name' ++ rbrace :: rest)
      with ((n0 :: name') ++ rbrace :: rest).
    rewrite Hspan. rewrite N.eqb_refl.
    destruct rest as [|f rest']; [reflexivity|].
    destruct (f =? rbrace)%N; [|reflexivity].
    f_equal. f_equal. list_norm. reflexivity.
  - cbn [app]. rewrite N.eqb_refl.
    change (n0 :: name' ++ rbrace :: rest)
      with ((n0 :: name') ++ rbrace :: rest).
    rewrite Hspan. rewrite N.eqb_refl.
    destruct rest as [|f rest']; [reflexivity|].
    destruct (f =? rbrace)%N; [|reflexivity].
    f_equal. f_equal. list_norm. reflexivity.
Qed.

Lemma word_not_space (c : N) : isWord c = true -> isSpace c = false.
Proof.
  intros H. destruct (isSpace c) eqn:E; auto. exfalso.
  unfold isWord in H. unfold isSpace in E.
  rewrite ?orb_true_iff, ?andb_true_iff, ?N.leb_le, ?N.eqb_eq in H.
  rewrite ?orb_true_iff, ?andb_true_iff, ?N.leb_le, ?N.eqb_eq in E. lia.
Qed.

Lemma solid_app (a b : jsstring) :
  solid (a ++ b) = solid a && solid b.
Proof. apply forallb_app. Qed.

Lemma words_solid (name : jsstring) :
  forallb isWord name = true -> solid name = true.
Proof.
  induction name as [|c name IH]; simpl; auto.
  intros H. apply andb_true_iff in H as [Hc H].
  now rewrite (@word_not_space _ Hc), IH.
Qed.

Lemma token_solid (second name : jsstring) :
  tokenParts second name -> solid (token second name) = true.
Proof.
  intros [Hsec [_ Hw]]. unfold token.
  change (lbrace :: second ++ name ++ [rbrace])
    with ([lbrace] ++ second ++ name ++ [rbrace]).
  rewrite !solid_app, (@words_solid _ Hw).
  destruct Hsec as [->| ->]; reflexivity.
Qed.

Lemma match_solid (s m r : jsstring) :
  matchPlaceholder s = Some (m, r) -> solid m = true /\ m <> [].
Proof.
  intros H. apply matchPlaceholder_Some in H as [_ [second [name [Hp Hm]]]].
  pose proof (@token_solid _ _ Hp) as Hs.
  destruct Hm as [->| ->].
  - split; auto. discriminate.
  - rewrite solid_app, Hs. split; auto. discriminate.
Qed.

Lemma match_head (c : N) (s : jsstring) :
  matchPlaceholder (c :: s) <> None -> c = lbrace.
Proof.
  unfold matchPlaceholder. destruct (N.eqb_spec c lbrace); auto.
  intros H. now contradiction H.
Qed.

Lemma solid_prefix (m r u y : jsstring) (c : N) :
  solid m = true -> isSpace c = true -> m ++ r = u ++ c :: y ->
  exists u', u = m ++ u'.
Proof.
  revert u. induction m as [|a m IH]; intros u Hm Hc H.
  - now exists u.
  - simpl in Hm. apply andb_true_iff in Hm as [Ha Hm].
    destruct u as [|b u]; simpl in H.
    + injection H as -> _. rewrite Hc in Ha. discriminate.
    + injection H as -> H. destruct (IH u Hm Hc H) as [u' ->].
      now exists u'.
Qed.

(** What follows a match does not matter to there being one. *)
Lemma match_extend (s m r x : jsstring) :
  matchPlaceholder s = Some (m, r) -> matchPlaceholder (m ++ x) <> None.
Proof.
  intros H. apply matchPlaceholder_Some in H as [_ [second [name [Hp Hm]]]].
  destruct Hm as [->| ->].
  - rewrite (@matchPlaceholder_token _ _ x Hp). discriminate.
  - rewrite <- app_assoc. rewrite (@matchPlaceholder_token _ _ _ Hp).
    discriminate.
Qed.

(** The text a placeholder was found in holds a match wherever the
    placeholder occurs. *)
Lemma match_occurrence (s m r x : jsstring) :
  matchPlaceholder s = Some (m, r) -> startsWith m x = true ->
  matchPlaceholder x <> None.
Proof.
  intros H Hx. apply startsWith_true in Hx as [y ->].
  exact (@match_extend _ _ _ y H).
Qed.

(** No match reaches over white space. *)
Lemma match_cut (u x y : jsstring) (c : N) :
  isSpace c = true ->
  matchPlaceholder (u ++ x) = None -> matchPlaceholder (u ++ c :: y) = None.
Proof.
  intros Hc Hnone.
  destruct (matchPlaceholder (u ++ c :: y)) as [[m r]|] eqn:E; auto.
  exfalso. destruct (match_solid _ E) as [Hm _].
  destruct (matchPlaceholder_Some _ E) as [Hs _].
  destruct (@solid_prefix _ _ _ _ _ Hm Hc (eq_sym Hs)) as [u' ->].
  rewrite <- app_assoc in Hnone. exact (@match_extend _ _ _ _ E Hnone).
Qed.

(** ** Texts cut at their placeholders *)

Lemma Unmatched_nil (rest : jsstring) : Unmatched [] rest.
Proof. intros a1 c a2 H. destruct a1; discriminate. Qed.

Lemma Unmatched_cons (c : N) (a rest : jsstring) :
  matchPlaceholder (c :: a ++ rest) = None -> Unmatched a rest ->
  Unmatched (c :: a) rest.
Proof.
  intros Hc Ha a1 d a2 H. destruct a1 as [|e a1]; simpl in H.
  - injection H as -> ->. exact Hc.
  - injection H as -> H. exact (Ha _ _ _ H).
Qed.

Lemma Unmatched_inv (c : N) (a rest : jsstring) :
  Unmatched (c :: a) rest ->
  matchPlaceholder (c :: a ++ rest) = None /\ Unmatched a rest.
Proof.
  intros H. split.
  - exact (H [] c a eq_refl).
  - intros a1 d a2 ->. exact (H (c :: a1) d a2 eq_refl).
Qed.

Lemma Unmatched_app (a g rest : jsstring) :
  Unmatched a (g ++ rest) -> Unmatched g rest -> Unmatched (a ++ g) rest.
Proof.
  induction a as [|c a IH]; intros Ha Hg; auto.
  apply Unmatched_inv in Ha as [Hc Ha]. simpl. apply Unmatched_cons; auto.
  now rewrite <- app_assoc.
Qed.

Lemma segments_exist_bounded (n : nat) :
  forall s, (List.length s <= n)%nat ->
  exists segs tail, s = plain segs tail /\ segmented segs tail.
Proof.
  induction n as [|n IH]; intros s Hlen.
  - destruct s; [|simpl in Hlen; lia]. exists [], []. split; auto.
    simpl. apply Unmatched_nil.
  - destruct s as [|c s'].
    + exists [], []. split; auto. simpl. apply Unmatched_nil.
    + simpl in Hlen.
      destruct (matchPlaceholder (c :: s')) as [[m r]|] eqn:E.
      * destruct (@matchPlaceholder_Some _ _ _ E) as [Hs _].
        destruct (@match_solid _ _ _ E) as [_ Hm].
        assert (Hr : (List.length r <= n)%nat).
        { apply (f_equal (@List.length N)) in Hs.
          rewrite length_app in Hs. simpl in Hs.
          destruct m; [congruence|]. simpl in Hs. lia. }
        destruct (IH r Hr) as [segs [tail [Hplain Hseg]]].
        exists (([], m) :: segs), tail. simpl. rewrite <- Hplain.
        split; auto. split; [apply Unmatched_nil|]. split; auto.
        now rewrite <- Hs.
      * destruct (IH s' ltac:(lia)) as [segs [tail [Hplain Hseg]]].
        destruct segs as [|[g p] segs]; simpl in *.
        -- exists [], (c :: s'). split; auto. simpl. subst s'.
           apply Unmatched_cons; auto. now rewrite app_nil_r.
        -- exists ((c :: g, p) :: segs), tail. simpl. split; [congruence|].
           destruct Hseg as [Hg [Hp Hseg]]. repeat split; auto.
           apply Unmatched_cons; auto. now rewrite <- Hplain.
Qed.

Lemma segments_exist (s : jsstring) :
  exists segs tail, s = plain segs tail /\ segmented segs tail.
Proof. exact (segments_exist_bounded (n:=List.length s) s (le_n _)). Qed.

Lemma matchAll_skip (x r : jsstring) :
  matchAll (List.length x) (x ++ r) = matchAll 0 r.
Proof. induction x as [|c x IH]; simpl; auto. Qed.

Lemma matchAll_unmatched (g rest : jsstring) :
  Unmatched g rest -> matchAll 0 (g ++ rest) = matchAll 0 rest.
Proof.
  induction g as [|c g IH]; intros H; auto.
  apply Unmatched_inv in H as [Hc H]. simpl app.
  cbn [matchAll]. rewrite Hc. auto.
Qed.

Lemma matchAll_match (p r : jsstring) :
  matchPlaceholder (p ++ r) = Some (p, r) ->
  matchAll 0 (p ++ r) = p :: matchAll 0 r.
Proof.
  intros H. destruct (@match_solid _ _ _ H) as [_ Hp].
  destruct p as [|c p]; [congruence|]. simpl app in *.
  cbn [matchAll]. rewrite H. f_equal.
  replace (List.length (c :: p) - 1)%nat with (List.length p)
    by (simpl; lia).
  apply matchAll_skip.
Qed.

Lemma matchAll_plain (segs : list (jsstring * jsstring)) (tail : jsstring) :
  segmented segs tail -> matchAll 0 (plain segs tail) = map snd segs.
Proof.
  induction segs as [|[g p] segs IH]; simpl.
  - intros H. rewrite <- (app_nil_r tail). now rewrite matchAll_unmatched.
  - intros [Hg [Hp Hseg]].
    rewrite matchAll_unmatched, matchAll_match, IH; auto.
Qed.

Lemma padPlaceholders_skip (x r : jsstring) :
  padPlaceholders (List.length x) (x ++ r) = padPlaceholders 0 r.
Proof. induction x as [|c x IH]; simpl; auto. Qed.

Lemma padPlaceholders_unmatched (g rest : jsstring) :
  Unmatched g rest ->
  padPlaceholders 0 (g ++ rest) = g ++ padPlaceholders 0 rest.
Proof.
  induction g as [|c g IH]; intros H; auto.
  apply Unmatched_inv in H as [Hc H]. simpl app.
  cbn [padPlaceholders]. rewrite Hc. f_equal. auto.
Qed.

Lemma padPlaceholders_match (p r : jsstring) :
  matchPlaceholder (p ++ r) = Some (p, r) ->
  padPlaceholders 0 (p ++ r) = padded p ++ padPlaceholders 0 r.
Proof.
  intros H. destruct (@match_solid _ _ _ H) as [_ Hp].
  destruct p as [|c p]; [congruence|]. simpl app in *.
  cbn [padPlaceholders]. rewrite H.
  replace (List.length (c :: p) - 1)%nat with (List.length p)
    by (simpl; lia).
  now rewrite padPlaceholders_skip.
Qed.

Lemma padPlaceholders_plain (j : nat) (segs : list (jsstring * jsstring))
  (tail : jsstring) :
  segmented segs tail ->
  forall i, (i + List.length segs <= j)%nat ->
  padPlaceholders 0 (plain segs tail) = mixed j i segs tail.
Proof.
  induction segs as [|[g p] segs IH]; simpl.
  - intros H i _. rewrite <- (app_nil_r tail) at 1.
    rewrite padPlaceholders_unmatched; auto. simpl. apply app_nil_r.
  - intros [Hg [Hp Hseg]] i Hi.
    rewrite padPlaceholders_unmatched, padPlaceholders_match; auto.
    replace (i <? j)%nat with true by (symmetry; apply Nat.ltb_lt; lia).
    rewrite (IH Hseg (S i)) by lia. reflexivity.
Qed.

(** ** Markers *)

Lemma digits_word (u : Decimal.uint) :
  forallb (fun c => (48 <=? c)%N && (c <=? 57)%N) (digits u) = true.
Proof. induction u; simpl; auto. Qed.

Lemma digits_inj (u v : Decimal.uint) : digits u = digits v -> u = v.
Proof.
  revert v. induction u; intros v H; destruct v; simpl in H;
    try discriminate; auto; injection H as H; f_equal; auto.
Qed.

Lemma to_uint_nonnil (n : nat) : Nat.to_uint n <> Decimal.Nil.
Proof.
  intros H. pose proof (DecimalNat.Unsigned.of_to n) as Hn.
  rewrite H in Hn. simpl in Hn. subst n. discriminate H.
Qed.

Lemma decimal_inj (i j : nat) : decimal i = decimal j -> i = j.
Proof.
  intros H. apply digits_inj in H. now apply DecimalNat.Unsigned.to_uint_inj.
Qed.

Lemma decimal_nonempty (i : nat) : decimal i <> [].
Proof.
  unfold decimal. pose proof (to_uint_nonnil i) as H.
  destruct (Nat.to_uint i); simpl; congruence.
Qed.

Lemma marker_inj (i j : nat) : marker i = marker j -> i = j.
Proof.
  unfold marker. intros H. apply app_inv_head in H.
  apply app_inv_tail in H. now apply decimal_inj.
Qed.

Lemma digit_word (c : N) :
  (48 <=? c)%N && (c <=? 57)%N = true -> isWord c = true.
Proof.
  intros H. unfold isWord. rewrite H. now rewrite !orb_true_r.
Qed.

Lemma marker_word (i : nat) : forallb isWord (marker i) = true.
Proof.
  unfold marker. rewrite !forallb_app. simpl.
  rewrite andb_true_r. unfold decimal.
  pose proof (digits_word (Nat.to_uint i)) as H.
  rewrite forallb_forall in *. intros c Hc. apply digit_word. auto.
Qed.

Lemma marker_solid (i : nat) : solid (marker i) = true.
Proof. apply words_solid, marker_word. Qed.

Lemma marker_nonempty (i : nat) : marker i <> [].
Proof. discriminate. Qed.

(** ** [extractPlaceholders] on a text cut at its placeholders *)

Lemma replaceFirst_unfold (pat rep s : jsstring) :
  replaceFirst pat rep s
  = if startsWith pat s then rep ++ skipn (List.length pat) s
    else match s with
         | [] => []
         | c :: s' => c :: replaceFirst pat rep s'
         end.
Proof. destruct s; reflexivity. Qed.

Lemma replaceFirst_at (a p rep r : jsstring) :
  (forall a1 c a2, a = a1 ++ c :: a2 ->
                   startsWith p (c :: a2 ++ p ++ r) = false) ->
  replaceFirst p rep (a ++ p ++ r) = a ++ rep ++ r.
Proof.
  induction a as [|c a IH]; intros H.
  - simpl app. rewrite replaceFirst_unfold, startsWith_app.
    now rewrite skipn_length_app.
  - simpl app. rewrite replaceFirst_unfold.
    rewrite (H [] c a eq_refl). f_equal. apply IH.
    intros a1 d a2 ->. exact (H (c :: a1) d a2 eq_refl).
Qed.

Lemma replaceFirst_placeholder (a p rep r : jsstring) :
  matchPlaceholder (p ++ r) = Some (p, r) -> Unmatched a (p ++ r) ->
  replaceFirst p rep (a ++ p ++ r) = a ++ rep ++ r.
Proof.
  intros Hp Ha. apply replaceFirst_at. intros a1 c a2 E.
  destruct (startsWith p (c :: a2 ++ p ++ r)) eqn:Es; auto.
  exfalso. apply (@match_occurrence _ _ _ _ Hp Es). exact (Ha _ _ _ E).
Qed.

Lemma Unmatched_space (a x y : jsstring) (c : N) :
  isSpace c = true -> Unmatched a x -> Unmatched a (c :: y).
Proof.
  intros Hc Ha a1 d a2 E. specialize (Ha _ _ _ E).
  change (d :: a2 ++ c :: y) with ((d :: a2) ++ c :: y).
  apply (@match_cut _ x); auto.
Qed.

Lemma Unmatched_braceless (a rest : jsstring) :
  forallb (fun c => negb (c =? lbrace)%N) a = true -> Unmatched a rest.
Proof.
  intros H a1 c a2 ->. rewrite forallb_app in H.
  apply andb_true_iff in H as [_ H]. simpl in H.
  apply andb_true_iff in H as [H _].
  destruct (matchPlaceholder (c :: a2 ++ rest)) eqn:E; auto.
  assert (Hc : c = lbrace) by (apply (@match_head c (a2 ++ rest)); congruence).
  subst c. discriminate.
Qed.

Lemma padded_marker_braceless (i : nat) :
  forallb (fun c => negb (c =? lbrace)%N) (padded (marker i)) = true.
Proof.
  pose proof (marker_word i) as H. rewrite forallb_forall in *.
  intros c Hc. unfold padded in Hc. destruct Hc as [<-|Hc]; [reflexivity|].
  apply in_app_or in Hc as [Hc|[<-|[]]]; [|reflexivity].
  specialize (H c Hc).
  destruct (N.eqb_spec c lbrace); auto. subst c. discriminate.
Qed.

Lemma mixed_markers_step (i : nat) (g p : jsstring)
  (segs : list (jsstring * jsstring)) (tail : jsstring) :
  mixed 0 i ((g, p) :: segs) tail
  = g ++ padded (marker i) ++ mixed 0 (S i) segs tail.
Proof. reflexivity. Qed.

Lemma extract_fold (segs : list (jsstring * jsstring)) (tail : jsstring) :
  segmented segs tail ->
  forall (a : jsstring) (i : nat) (m : object jsstring),
    Unmatched a (plain segs tail) ->
    (forall k, (i <= k)%nat -> ~ In (marker k) (keys m)) ->
    fold_left extractStep
      (combine (seq i (List.length segs)) (map snd segs))
      (a ++ plain segs tail, m)
    = (a ++ mixed 0 i segs tail, m ++ entries i segs).
Proof.
  induction segs as [|[g p] segs IH]; intros Hseg a i m Ha Hm.
  - simpl. now rewrite app_nil_r.
  - destruct Hseg as [Hg [Hp Hseg]].
    cbn [List.length seq map snd combine fold_left plain entries].
    rewrite mixed_markers_step.
    unfold extractStep at 2.
    rewrite setProp_fresh by (apply Hm; lia).
    rewrite app_assoc.
    rewrite (@replaceFirst_placeholder (a ++ g) p (padded (marker i)) _ Hp)
      by (apply Unmatched_app; auto).
    replace ((a ++ g) ++ padded (marker i) ++ plain segs tail)
      with ((a ++ g ++ padded (marker i)) ++ plain segs tail)
      by (now rewrite <- !app_assoc).
    rewrite (IH Hseg).
    + rewrite <- !app_assoc. reflexivity.
    + replace (a ++ g ++ padded (marker i))
        with ((a ++ g) ++ padded (marker i)) by (now rewrite <- !app_assoc).
      apply Unmatched_app.
      * unfold padded. simpl app.
        apply (@Unmatched_space _ (p ++ plain segs tail)); auto.
        apply Unmatched_app; auto.
      * apply Unmatched_braceless, padded_marker_braceless.
    + intros k Hk. unfold keys. rewrite map_app, in_app_iff. simpl.
      intros [Hin|[E|[]]].
      * apply (Hm k); [lia|exact Hin].
      * apply marker_inj in E. lia.
Qed.

Lemma extractPlaceholders_plain (segs : list (jsstring * jsstring))
  (tail : jsstring) :
  segmented segs tail ->
  extractPlaceholders (plain segs tail)
  = (mixed 0 0 segs tail, entries 0 segs).
Proof.
  intros Hseg. unfold extractPlaceholders.
  rewrite (@matchAll_plain _ _ Hseg).
  destruct segs as [|gp segs']; [reflexivity|].
  remember (gp :: segs') as segs eqn:E.
  destruct (map snd segs) as [|x xs] eqn:Em; [subst; discriminate|].
  rewrite <- Em. unfold indexed. rewrite length_map.
  apply (@extract_fold segs tail Hseg [] 0 []).
  - apply Unmatched_nil.
  - intros k _ [].
Qed.

(* ================================================================== *)
(** * Words and white space *)

Lemma solid_cons (c : N) (w : jsstring) :
  solid (c :: w) = negb (isSpace c) && solid w.
Proof. reflexivity. Qed.

Lemma text_cases (s : jsstring) :
  s = []
  \/ (exists c s', s = c :: s' /\ isSpace c = true)
  \/ (exists w r, s = w ++ r /\ solid w = true /\ w <> []
                  /\ headSpace r = true).
Proof.
  induction s as [|c s IH]; auto. right.
  destruct (isSpace c) eqn:Ec; [left; eauto|]. right.
  destruct IH as [->|[[d [s' [-> Hd]]]|[w [r [-> [Hw [Hne Hr]]]]]]].
  - exists [c], []. simpl. rewrite Ec. repeat split; auto. discriminate.
  - exists [c], (d :: s'). simpl. rewrite Ec. repeat split; auto.
    discriminate.
  - exists (c :: w), r. rewrite solid_cons, Ec, Hw.
    repeat split; auto. discriminate.
Qed.

(** Induction on a text, a white space or a word at a time. *)
Lemma text_ind (P : jsstring -> Prop) :
  P [] ->
  (forall c s, isSpace c = true -> P s -> P (c :: s)) ->
  (forall w r, solid w = true -> w <> [] -> headSpace r = true ->
               P r -> P (w ++ r)) ->
  forall s, P s.
Proof.
  intros Hnil Hspace Hword s.
  remember (List.length s) as n eqn:En.
  revert s En. induction n as [n IH] using lt_wf_ind. intros s En.
  destruct (text_cases s)
    as [->|[[c [s' [-> Hc]]]|[w [r [-> [Hw [Hne Hr]]]]]]]; auto.
  - apply Hspace; auto. apply (IH (List.length s')); auto.
    simpl in En. lia.
  - apply Hword; auto. apply (IH (List.length r)); auto.
    rewrite length_app in En. destruct w; [congruence|]. simpl in En. lia.
Qed.

Lemma words_space (c : N) (s : jsstring) :
  isSpace c = true -> words (c :: s) = words s.
Proof. intros H. simpl. now rewrite H. Qed.

Lemma words_spaces (ws s : jsstring) :
  forallb isSpace ws = true -> words (ws ++ s) = words s.
Proof.
  induction ws as [|c ws IH]; auto. simpl forallb. intros H.
  apply andb_true_iff in H as [Hc H]. simpl app.
  rewrite words_space; auto.
Qed.

Lemma words_trimStart (s : jsstring) : words (trimStart s) = words s.
Proof.
  destruct (trimStart_split s) as [ws [Hs Hws]].
  rewrite Hs at 2. now rewrite words_spaces.
Qed.

Lemma words_word (w r : jsstring) :
  solid w = true -> w <> [] -> headSpace r = true ->
  words (w ++ r) = w :: words r.
Proof.
  induction w as [|c w IH]; [congruence|]. intros Hw _ Hr.
  rewrite solid_cons in Hw. apply andb_true_iff in Hw as [Hc Hw].
  apply negb_true_iff in Hc.
  destruct w as [|d w].
  - simpl app. destruct r as [|e r].
    + simpl. now rewrite Hc.
    + simpl in Hr. cbn [words]. now rewrite Hc, Hr.
  - assert (IH' : words ((d :: w) ++ r) = (d :: w) :: words r)
      by (apply IH; auto; discriminate).
    rewrite solid_cons in Hw. apply andb_true_iff in Hw as [Hd _].
    apply negb_true_iff in Hd.
    simpl app in *. cbn [words] in *. rewrite Hc, Hd.
    rewrite Hd in IH'. now rewrite IH'.
Qed.

Lemma headSpace_app (r b : jsstring) (c : N) :
  headSpace r = true -> isSpace c = true -> headSpace (r ++ c :: b) = true.
Proof. destruct r; simpl; auto. Qed.

Lemma words_split (a b : jsstring) (c : N) :
  isSpace c = true -> words (a ++ c :: b) = words a ++ words b.
Proof.
  intros Hc. induction a as [|d a Hd IH|w r Hw Hne Hr IH] using text_ind.
  - simpl app. now rewrite words_space.
  - rewrite <- app_comm_cons. rewrite (@words_space d _ Hd).
    rewrite (@words_space d _ Hd). exact IH.
  - rewrite <- app_assoc.
    rewrite (@words_word w (r ++ c :: b)) by (auto using headSpace_app).
    rewrite (@words_word w r) by auto.
    rewrite IH. reflexivity.
Qed.

Lemma words_padded (x rest : jsstring) :
  solid x = true -> x <> [] ->
  words (padded x ++ rest) = x :: words rest.
Proof.
  intros Hx Hne. unfold padded. simpl app. rewrite words_space by reflexivity.
  rewrite <- app_assoc. rewrite words_word; auto.
Qed.

Lemma words_parts (s : jsstring) :
  Forall (fun w => solid w = true /\ w <> []) (words s).
Proof.
  induction s as [|c s Hc IH|w r Hw Hne Hr IH] using text_ind.
  - constructor.
  - now rewrite words_space.
  - rewrite words_word; auto.
Qed.

Lemma words_In (s w : jsstring) :
  In w (words s) -> exists a r, s = a ++ w ++ r.
Proof.
  induction s as [|c s Hc IH|w0 r0 Hw Hne Hr IH] using text_ind.
  - intros [].
  - rewrite words_space by auto. intros H.
    destruct (IH H) as [a [r ->]]. now exists (c :: a), r.
  - rewrite words_word by auto. intros [->|H].
    + now exists [], r0.
    + destruct (IH H) as [a [r ->]]. exists (w0 ++ a), r.
      now rewrite <- app_assoc.
Qed.

(** ** [normalizeWhitespace] joins the words with one space *)

Lemma collapse_start (s : jsstring) :
  trimStart (collapse false s) = collapse true s.
Proof.
  assert (H : forall t, trimStart (collapse true t) = collapse true t).
  { induction t as [|c t IH]; simpl; auto.
    destruct (isSpace c) eqn:E; auto. simpl. now rewrite E. }
  destruct s as [|c s]; simpl; auto.
  destruct (isSpace c) eqn:E; simpl.
  - apply H.
  - now rewrite E.
Qed.

Lemma collapse_word (b : bool) (w r : jsstring) :
  solid w = true -> w <> [] ->
  collapse b (w ++ r) = w ++ collapse false r.
Proof.
  revert b. induction w as [|c w IH]; [congruence|]. intros b Hw _.
  rewrite solid_cons in Hw. apply andb_true_iff in Hw as [Hc Hw].
  apply negb_true_iff in Hc. simpl. rewrite Hc. f_equal.
  destruct w as [|d w]; auto. apply IH; auto. discriminate.
Qed.

Lemma trimEnd_solid_word (w : jsstring) :
  solid w = true -> trimEnd w = w.
Proof.
  intros Hw. induction w as [|c body _] using rev_ind; [reflexivity|].
  apply trimEnd_fixed.
  rewrite solid_app in Hw. apply andb_true_iff in Hw as [_ Hw].
  simpl in Hw. rewrite andb_true_r in Hw. now apply negb_true_iff.
Qed.

Lemma trimEnd_glue (a x : jsstring) (c : N) :
  isSpace c = true ->
  trimEnd (a ++ c :: x)
  = match trimEnd x with
    | [] => trimEnd a
    | _ :: _ => a ++ c :: trimEnd x
    end.
Proof.
  intros Hc. destruct (trimEnd_split x) as [ws [Hx Hws]].
  destruct (trimEnd_last x) as [E|[body [e [E He]]]].
  - rewrite E in *. simpl in Hx. subst x.
    change (a ++ c :: ws) with (a ++ (c :: ws)).
    apply trimEnd_spaces. simpl. now rewrite Hc.
  - rewrite E in *. rewrite Hx at 1.
    replace (a ++ c :: (body ++ [e]) ++ ws)
      with (((a ++ c :: body) ++ [e]) ++ ws)
      by (list_norm; reflexivity).
    rewrite trimEnd_spaces by exact Hws.
    rewrite trimEnd_fixed by exact He.
    destruct (body ++ [e]) eqn:Eb.
    + destruct body; discriminate.
    + rewrite <- Eb. list_norm. reflexivity.
Qed.

Lemma unwords_nonempty (w : jsstring) (ws : list jsstring) :
  w <> [] -> unwords (w :: ws) <> [].
Proof.
  intros Hw. destruct w; [congruence|]. destruct ws; discriminate.
Qed.

Lemma collapse_words (s : jsstring) :
  trimEnd (collapse true s) = unwords (words s).
Proof.
  induction s as [|c s Hc IH|w r Hw Hne Hr IH] using text_ind.
  - reflexivity.
  - rewrite (@words_space c s Hc). simpl. now rewrite Hc.
  - rewrite collapse_word, words_word by auto.
    destruct r as [|c r].
    + simpl. rewrite app_nil_r. now apply trimEnd_solid_word.
    + simpl in Hr. rewrite (@words_space c r Hr) in *.
      simpl in IH. rewrite Hr in IH. simpl collapse. rewrite Hr.
      rewrite trimEnd_glue by reflexivity. rewrite IH.
      pose proof (words_parts r) as Hparts.
      destruct (words r) as [|w1 ws1].
      * simpl. now apply trimEnd_solid_word.
      * apply Forall_inv in Hparts. destruct Hparts as [_ Hw1].
        pose proof (@unwords_nonempty w1 ws1 Hw1) as Hu.
        destruct (unwords (w1 :: ws1)) eqn:Eu; [congruence|].
        cbn [unwords]. rewrite <- Eu. reflexivity.
Qed.

Lemma normalizeWhitespace_words (s : jsstring) :
  normalizeWhitespace s = unwords (words s).
Proof.
  unfold normalizeWhitespace, trim. rewrite collapse_start.
  apply collapse_words.
Qed.

(* ================================================================== *)
(** * Replacing a marker *)

Lemma space_upper (c d : N) :
  isSpace c = false -> isSpace d = true ->
  (upperUnit c =? upperUnit d)%N = false.
Proof.
  intros Hc Hd. apply N.eqb_neq. intros E.
  assert (Hd' : upperUnit d = d).
  { unfold upperUnit. destruct ((97 <=? d)%N && (d <=? 122)%N) eqn:X; auto.
    exfalso. unfold isSpace in Hd.
    rewrite ?orb_true_iff, ?andb_true_iff, ?N.leb_le, ?N.eqb_eq in Hd.
    rewrite ?andb_true_iff, ?N.leb_le in X. lia. }
  rewrite Hd' in E. unfold upperUnit in E.
  destruct ((97 <=? c)%N && (c <=? 122)%N) eqn:X.
  - unfold isSpace in Hd.
    rewrite ?orb_true_iff, ?andb_true_iff, ?N.leb_le, ?N.eqb_eq in Hd.
    rewrite ?andb_true_iff, ?N.leb_le in X. lia.
  - subst d. congruence.
Qed.

Lemma startsWithCI_app_r (v w r : jsstring) :
  startsWithCI v w = true -> startsWithCI v (w ++ r) = true.
Proof.
  revert w. induction v as [|a v IH]; intros w H; auto.
  destruct w as [|b w]; [discriminate|]. simpl in *.
  apply andb_true_iff in H as [Hab H]. rewrite Hab. simpl. auto.
Qed.

Lemma startsWithCI_length (v w : jsstring) :
  startsWithCI v w = true -> (List.length v <= List.length w)%nat.
Proof.
  revert w. induction v as [|a v IH]; intros w H; simpl; [lia|].
  destruct w as [|b w]; [discriminate|]. simpl in *.
  apply andb_true_iff in H as [_ H]. apply IH in H. lia.
Qed.

(** A text without white space that starts a word [w] followed by white
    space starts [w]. *)
Lemma startsWithCI_word (v w r : jsstring) :
  solid v = true -> headSpace r = true ->
  startsWithCI v (w ++ r) = true -> startsWithCI v w = true.
Proof.
  intros Hv Hr. revert w. induction v as [|a v IH]; intros w H; auto.
  rewrite solid_cons in Hv. apply andb_true_iff in Hv as [Ha Hv].
  apply negb_true_iff in Ha.
  destruct w as [|b w].
  - simpl app in H. destruct r as [|c r]; [discriminate|].
    simpl in Hr, H. rewrite (@space_upper _ _ Ha Hr) in H. discriminate.
  - simpl in *. apply andb_true_iff in H as [Hab H]. rewrite Hab. simpl.
    auto.
Qed.

Lemma startsWithCI_head (v : jsstring) (c : N) (s : jsstring) :
  solid v = true -> v <> [] -> startsWithCI v (c :: s) = true ->
  isSpace c = false.
Proof.
  intros Hv Hne H. destruct v as [|a v]; [congruence|].
  rewrite solid_cons in Hv. apply andb_true_iff in Hv as [Ha _].
  apply negb_true_iff in Ha. simpl in H.
  apply andb_true_iff in H as [Hac _].
  destruct (isSpace c) eqn:Ec; auto.
  rewrite (@space_upper _ _ Ha Ec) in Hac. discriminate.
Qed.

Lemma occursCI_head (v s : jsstring) :
  startsWithCI v s = true -> occursCI v s = true.
Proof. intros H. destruct s; simpl in *; now rewrite H. Qed.

Lemma occursCI_cons (v : jsstring) (c : N) (s : jsstring) :
  occursCI v (c :: s) = startsWithCI v (c :: s) || occursCI v s.
Proof. reflexivity. Qed.

Lemma occursCI_app_l (v a b : jsstring) :
  occursCI v b = true -> occursCI v (a ++ b) = true.
Proof.
  intros H. induction a as [|c a IH]; auto.
  simpl app. rewrite occursCI_cons, IH. apply orb_true_r.
Qed.

Lemma occursCI_app_r (v a b : jsstring) :
  occursCI v a = true -> occursCI v (a ++ b) = true.
Proof.
  induction a as [|c a IH]; intros H.
  - simpl in H. rewrite orb_false_r in H.
    destruct v; [|discriminate]. destruct b; reflexivity.
  - simpl app. rewrite occursCI_cons in *.
    apply orb_true_iff in H as [H|H].
    + change (c :: a ++ b) with ((c :: a) ++ b).
      now rewrite (@startsWithCI_app_r _ _ b H).
    + rewrite (IH H). apply orb_true_r.
Qed.

Lemma occursCI_factor (v a w r : jsstring) :
  occursCI v (a ++ w ++ r) = false -> occursCI v w = false.
Proof.
  intros H. destruct (occursCI v w) eqn:E; auto.
  rewrite occursCI_app_l in H; [discriminate|].
  now apply occursCI_app_r.
Qed.

Lemma startsWithCI_prefix (a x s : jsstring) :
  startsWithCI (a ++ x) s = true -> startsWithCI a s = true.
Proof.
  revert s. induction a as [|c a IH]; intros s H; auto.
  destruct s as [|d s]; [discriminate|]. simpl in *.
  apply andb_true_iff in H as [Hcd H]. rewrite Hcd. simpl. eauto.
Qed.

Lemma occursCI_prefix (a x s : jsstring) :
  occursCI a s = false -> occursCI (a ++ x) s = false.
Proof.
  induction s as [|d s IH]; intros H.
  - simpl in *. rewrite orb_false_r in *.
    destruct (startsWithCI (a ++ x) []) eqn:E; auto.
    apply startsWithCI_prefix in E. congruence.
  - rewrite occursCI_cons in *. apply orb_false_iff in H as [H1 H2].
    rewrite (IH H2), orb_false_r.
    destruct (startsWithCI (a ++ x) (d :: s)) eqn:E; auto.
    apply startsWithCI_prefix in E. congruence.
Qed.

Lemma equalCI_occurs (v w : jsstring) :
  equalCI v w = true -> occursCI v w = true.
Proof.
  unfold equalCI. intros H. apply andb_true_iff in H as [_ H].
  now apply occursCI_head.
Qed.

(** ** The pattern [\s*v\s*] for a text [v] without white space *)

Section Literal.
Variable v : jsstring.
Hypothesis Hsolid : solid v = true.
Hypothesis Hnonempty : v <> [].

Lemma matchLiteral_space (c : N) (s : jsstring) :
  isSpace c = true -> matchLiteral v (c :: s) = None.
Proof.
  intros Hc. unfold matchLiteral.
  destruct (startsWithCI v (c :: s)) eqn:E; auto.
  apply startsWithCI_head in E; auto. congruence.
Qed.

Lemma matchLiteral_nil : matchLiteral v [] = None.
Proof. destruct v; [congruence|reflexivity]. Qed.

Lemma matchPadded_trim (s : jsstring) :
  matchPadded v s = matchLiteral v (trimStart s).
Proof.
  induction s as [|c s IH]; auto. simpl.
  destruct (isSpace c) eqn:Ec; auto. rewrite IH.
  destruct (matchLiteral v (trimStart s)); auto.
  now apply matchLiteral_space.
Qed.

Variable rep : jsstring.

Lemma replacePadded_skip (x r : jsstring) :
  replacePadded v rep (List.length x) (x ++ r) = replacePadded v rep 0 r.
Proof. induction x as [|c x IH]; simpl; auto. Qed.

Lemma replacePadded_nil : replacePadded v rep 0 [] = [].
Proof.
  simpl. change (matchLiteral v []) with (matchPadded v []).
  rewrite matchPadded_trim. simpl. now rewrite matchLiteral_nil.
Qed.

Lemma replacePadded_none (c : N) (s : jsstring) :
  matchPadded v (c :: s) = None ->
  replacePadded v rep 0 (c :: s) = c :: replacePadded v rep 0 s.
Proof. intros H. cbn [replacePadded]. now rewrite H. Qed.

Lemma replacePadded_some (x rest : jsstring) :
  x <> [] -> matchPadded v (x ++ rest) = Some rest ->
  replacePadded v rep 0 (x ++ rest) = rep ++ replacePadded v rep 0 rest.
Proof.
  intros Hx H. destruct x as [|c x]; [congruence|]. simpl app in *.
  cbn [replacePadded]. rewrite H. f_equal.
  replace (List.length (c :: x ++ rest) - List.length rest)%nat
    with (S (List.length x))
    by (change (List.length (c :: x ++ rest))
          with (S (List.length (x ++ rest))); rewrite length_app; lia).
  apply replacePadded_skip.
Qed.

(** White space, then a word equal to [v]: the match takes them and the
    white space that follows. *)
Lemma replacePadded_equal (ws w r : jsstring) :
  forallb isSpace ws = true -> equalCI v w = true -> headSpace r = true ->
  replacePadded v rep 0 (ws ++ w ++ r)
  = rep ++ replacePadded v rep 0 (trimStart r).
Proof.
  intros Hws Hvw Hr. unfold equalCI in Hvw.
  apply andb_true_iff in Hvw as [Hlen Hvw]. apply Nat.eqb_eq in Hlen.
  assert (Hw : exists c w', w = c :: w' /\ isSpace c = false).
  { destruct w as [|c w']; [destruct v; [congruence|discriminate]|].
    exists c, w'. split; auto. now apply startsWithCI_head in Hvw. }
  destruct Hw as [c [w' [Ew Hc]]].
  destruct (trimStart_split r) as [ws' [Er Hws']].
  assert (Hm : matchPadded v (ws ++ w ++ r) = Some (trimStart r)).
  { rewrite matchPadded_trim, trimStart_spaces by auto.
    replace (trimStart (w ++ r)) with (w ++ r)
      by (rewrite Ew; simpl; now rewrite Hc).
    unfold matchLiteral.
    rewrite (@startsWithCI_app_r _ _ r Hvw). rewrite Hlen.
    now rewrite skipn_length_app. }
  replace (ws ++ w ++ r) with ((ws ++ w ++ ws') ++ trimStart r) in *
    by (rewrite Er at 2; list_norm; reflexivity).
  apply replacePadded_some; auto.
  subst w. destruct ws; discriminate.
Qed.

(** A word [v] does not occur in is kept. *)
Lemma replacePadded_word (w r : jsstring) :
  solid w = true -> headSpace r = true -> occursCI v w = false ->
  replacePadded v rep 0 (w ++ r) = w ++ replacePadded v rep 0 r.
Proof.
  intros Hw Hr. induction w as [|c w IH]; intros Hocc; auto.
  rewrite solid_cons in Hw. apply andb_true_iff in Hw as [Hc Hw].
  apply negb_true_iff in Hc.
  rewrite occursCI_cons in Hocc. apply orb_false_iff in Hocc as [H1 H2].
  simpl app. rewrite replacePadded_none.
  - f_equal. auto.
  - rewrite matchPadded_trim, trimStart_fixed by auto.
    unfold matchLiteral.
    destruct (startsWithCI v (c :: w ++ r)) eqn:E; auto.
    change (c :: w ++ r) with ((c :: w) ++ r) in E.
    apply startsWithCI_word in E; auto. congruence.
Qed.

Lemma replacePadded_headSpace (s : jsstring) :
  headSpace rep = true -> rep <> [] -> headSpace s = true ->
  headSpace (replacePadded v rep 0 s) = true.
Proof.
  intros Hrep Hne Hs. destruct s as [|c s].
  - now rewrite replacePadded_nil.
  - cbn [replacePadded].
    destruct (matchPadded v (c :: s)); auto.
    destruct rep; [congruence|]. exact Hrep.
Qed.

End Literal.

Lemma padded_headSpace (p : jsstring) : headSpace (padded p) = true.
Proof. reflexivity. Qed.

Lemma substitute_equal (v p w : jsstring) :
  equalCI v w = true -> substitute v p w = p.
Proof. unfold substitute. now intros ->. Qed.

Lemma substitute_other (v p w : jsstring) :
  occursCI v w = false -> substitute v p w = w.
Proof.
  unfold substitute. intros H. destruct (equalCI v w) eqn:E; auto.
  apply equalCI_occurs in E. congruence.
Qed.

(** Replacing [v] in a text whose words are [v] or do not hold it
    replaces the words that are [v]. *)
Lemma replacePadded_words (v p : jsstring) :
  solid v = true -> v <> [] -> solid p = true -> p <> [] ->
  forall t, Forall (apart v) (words t) ->
  words (replacePadded v (padded p) 0 t) = map (substitute v p) (words t).
Proof.
  intros Hv Hvne Hp Hpne t.
  remember (List.length t) as n eqn:En.
  revert t En. induction n as [n IH] using lt_wf_ind. intros t En Hgood.
  assert (Hequal : forall ws w r,
             t = ws ++ w ++ r -> forallb isSpace ws = true ->
             solid w = true -> w <> [] -> headSpace r = true ->
             equalCI v w = true ->
             words (replacePadded v (padded p) 0 t)
             = map (substitute v p) (words t)).
  { intros ws w r Et Hws Hw Hwne Hr Heq.
    assert (Hwords : words t = w :: words r)
      by (rewrite Et, words_spaces, words_word; auto).
    rewrite Hwords in *. apply Forall_inv_tail in Hgood.
    rewrite Et, replacePadded_equal, words_padded by auto.
    cbn [map]. rewrite (@substitute_equal _ _ _ Heq). f_equal.
    rewrite <- (words_trimStart r) in *.
    apply (IH (List.length (trimStart r))); auto.
    destruct (trimStart_split r) as [ws' [Er _]].
    rewrite En, Et, !length_app. rewrite Er at 2. rewrite length_app.
    destruct w; [congruence|]. simpl. lia. }
  destruct (text_cases t)
    as [->|[[c [s [-> Hc]]]|[w [r [Et [Hw [Hwne Hr]]]]]]].
  - now rewrite replacePadded_nil.
  - destruct (matchPadded v (c :: s)) as [rest|] eqn:Em.
    + rewrite matchPadded_trim in Em by auto.
      simpl trimStart in Em. rewrite Hc in Em.
      unfold matchLiteral in Em.
      destruct (startsWithCI v (trimStart s)) eqn:Es; [|discriminate].
      destruct (trimStart_split s) as [ws [Hs Hws]].
      destruct (text_cases (trimStart s))
        as [E|[[d [s' [E Hd]]]|[w [r [E [Hw [Hwne Hr]]]]]]].
      * rewrite E in Es. destruct v; [congruence|discriminate].
      * apply trimStart_head in E. congruence.
      * assert (Et : c :: s = (c :: ws) ++ w ++ r)
          by (simpl; rewrite <- E, <- Hs; reflexivity).
        apply (Hequal (c :: ws) w r); auto.
        -- simpl. now rewrite Hc.
        -- assert (Hin : apart v w).
           { rewrite Et, words_spaces, words_word in Hgood; auto.
             - now apply Forall_inv in Hgood.
             - simpl. now rewrite Hc. }
           destruct Hin as [Hin|Hin]; auto.
           rewrite E in Es. apply startsWithCI_word in Es; auto.
           apply occursCI_head in Es. congruence.
    + rewrite replacePadded_none by auto.
      rewrite !(@words_space c _ Hc) in *.
      apply (IH (List.length s)); auto. simpl in En. lia.
  - assert (Hwords : words t = w :: words r)
      by (rewrite Et, words_word; auto).
    assert (Hin : apart v w)
      by (rewrite Hwords in Hgood; now apply Forall_inv in Hgood).
    destruct Hin as [Hin|Hin].
    + apply (Hequal [] w r); auto.
    + rewrite Hwords in *. apply Forall_inv_tail in Hgood.
      rewrite Et, replacePadded_word by auto.
      rewrite words_word; auto.
      * cbn [map]. rewrite (@substitute_other _ _ _ Hin). f_equal.
        apply (IH (List.length r)); auto.
        rewrite En, Et, length_app. destruct w; [congruence|]. simpl. lia.
      * apply replacePadded_headSpace; auto. discriminate.
Qed.

(** A text one of whose words is [v] is found to hold it. *)
Lemma testPadded_app (v a s : jsstring) :
  testPadded v s = true -> testPadded v (a ++ s) = true.
Proof.
  intros H. induction a as [|c a IH]; auto.
  simpl app. cbn [testPadded].
  destruct (matchPadded v (c :: a ++ s)); auto.
Qed.

Lemma testPadded_unfold (v s : jsstring) :
  testPadded v s
  = match matchPadded v s with
    | Some _ => true
    | None => match s with [] => false | _ :: s' => testPadded v s' end
    end.
Proof. destruct s; reflexivity. Qed.

Lemma testPadded_word (v t w : jsstring) :
  solid v = true -> v <> [] -> In w (words t) -> equalCI v w = true ->
  testPadded v t = true.
Proof.
  intros Hv Hne Hin Heq. destruct (words_In _ _ Hin) as [a [r ->]].
  apply testPadded_app. rewrite testPadded_unfold.
  rewrite matchPadded_trim by auto.
  unfold equalCI in Heq. apply andb_true_iff in Heq as [_ Heq].
  assert (Hs : startsWithCI v (w ++ r) = true)
    by now apply startsWithCI_app_r.
  destruct (w ++ r) as [|c s] eqn:E.
  - destruct v; [congruence|discriminate].
  - rewrite trimStart_fixed by (eapply startsWithCI_head; eauto).
    unfold matchLiteral. now rewrite Hs.
Qed.

(* ================================================================== *)
(** * One marker does not occur in another *)

Lemma sentinel_units : sentinel = sentinelUnits.
Proof. reflexivity. Qed.

Lemma digit_upper (c : N) : isDigit c = true -> upperUnit c = c.
Proof.
  unfold isDigit, upperUnit. intros H.
  destruct ((97 <=? c)%N && (c <=? 122)%N) eqn:X; auto.
  rewrite ?andb_true_iff, ?N.leb_le in H.
  rewrite ?andb_true_iff, ?N.leb_le in X. lia.
Qed.

Lemma letter_digit (a d : N) :
  (65 <=? a)%N && (a <=? 90)%N = true -> isDigit d = true ->
  (upperUnit a =? upperUnit d)%N = false.
Proof.
  intros Ha Hd. rewrite (@digit_upper d Hd). unfold upperUnit.
  replace ((97 <=? a)%N && (a <=? 122)%N) with false.
  - apply N.eqb_neq. unfold isDigit in Hd.
    rewrite ?andb_true_iff, ?N.leb_le in Ha, Hd. lia.
  - symmetry. apply andb_false_iff.
    rewrite ?andb_true_iff, ?N.leb_le in Ha. rewrite !N.leb_gt. lia.
Qed.

Lemma digit_letter (a d : N) :
  (65 <=? a)%N && (a <=? 90)%N = true -> isDigit d = true ->
  (upperUnit d =? upperUnit a)%N = false.
Proof. intros Ha Hd. rewrite N.eqb_sym. now apply letter_digit. Qed.

Lemma decimal_digits (i : nat) : forallb isDigit (decimal i) = true.
Proof. apply digits_word. Qed.

(** Digits, then an X, against digits, then an X. *)
Lemma startsWithCI_digits (dj di x y : jsstring) :
  forallb isDigit dj = true -> forallb isDigit di = true ->
  startsWithCI (dj ++ 88%N :: x) (di ++ 88%N :: y) = true -> dj = di.
Proof.
  revert di. induction dj as [|a dj IH]; intros [|d di] Hj Hi H; auto.
  - simpl in Hi. apply andb_true_iff in Hi as [Hd _].
    simpl app in H. cbn [startsWithCI] in H.
    rewrite (@letter_digit 88%N d eq_refl Hd) in H. discriminate.
  - simpl in Hj. apply andb_true_iff in Hj as [Ha _].
    simpl app in H. cbn [startsWithCI] in H.
    rewrite (@digit_letter 88%N a eq_refl Ha) in H. discriminate.
  - simpl in Hj, Hi. apply andb_true_iff in Hj as [Ha Hj].
    apply andb_true_iff in Hi as [Hd Hi].
    simpl app in H. cbn [startsWithCI] in H.
    apply andb_true_iff in H as [Had H].
    rewrite (@digit_upper a Ha), (@digit_upper d Hd) in Had.
    apply N.eqb_eq in Had. subst d. f_equal. eauto.
Qed.

Section Apart.
Variable a : N.
Variable dj : jsstring.
Hypothesis Ha : isDigit a = true.
Hypothesis Hdj : forallb isDigit dj = true.

Lemma marker_sentinel : occursCI (markerOf (a :: dj)) sentinelUnits = false.
Proof. reflexivity. Qed.

Lemma marker_digits (di : jsstring) :
  forallb isDigit di = true -> occursCI (markerOf (a :: dj)) (di ++ sentinelUnits) = false.
Proof.
  induction di as [|d di IH]; intros Hi.
  - apply marker_sentinel.
  - simpl in Hi. apply andb_true_iff in Hi as [Hd Hi].
    simpl app. rewrite occursCI_cons, (IH Hi), orb_false_r.
    unfold markerOf, sentinelUnits. cbn [app startsWithCI].
    now rewrite (@letter_digit 88%N d eq_refl Hd).
Qed.

Lemma marker_marker (d : N) (di : jsstring) :
  isDigit d = true -> forallb isDigit di = true -> a :: dj <> d :: di ->
  occursCI (markerOf (a :: dj)) (sentinelUnits ++ (d :: di) ++ sentinelUnits) = false.
Proof.
  intros Hd Hi Hneq.
  assert (Hrest : occursCI (markerOf (a :: dj)) ((d :: di) ++ sentinelUnits) = false)
    by (apply marker_digits; simpl; now rewrite Hd).
  assert (H0 : startsWithCI ((a :: dj) ++ sentinelUnits)
                 ((d :: di) ++ sentinelUnits) = false).
  { destruct (startsWithCI ((a :: dj) ++ sentinelUnits)
                ((d :: di) ++ sentinelUnits)) eqn:E; auto.
    exfalso. apply Hneq.
    apply (@startsWithCI_digits (a :: dj) (d :: di)
             (tl sentinelUnits) (tl sentinelUnits)); auto.
    - simpl. now rewrite Ha.
    - simpl. now rewrite Hd. }
  unfold sentinelUnits at 1.
  cbn [app]. do 13 rewrite occursCI_cons.
  change (d :: di ++ sentinelUnits) with ((d :: di) ++ sentinelUnits).
  rewrite Hrest.
  repeat (apply orb_false_iff; split); try reflexivity.
  - unfold markerOf, sentinelUnits at 1. cbn [app startsWithCI].
    cbn [app startsWithCI] in H0. rewrite H0. reflexivity.
  - unfold markerOf, sentinelUnits at 1. cbn [app startsWithCI].
    rewrite (@letter_digit 80%N d eq_refl Hd). reflexivity.
Qed.

End Apart.

Lemma decimal_cons (i : nat) :
  exists a dj, decimal i = a :: dj
               /\ isDigit a = true /\ forallb isDigit dj = true.
Proof.
  pose proof (decimal_digits i) as H. pose proof (decimal_nonempty i) as Hne.
  destruct (decimal i) as [|a dj]; [congruence|].
  simpl in H. apply andb_true_iff in H as [Ha H]. eauto.
Qed.

Lemma marker_apart (i j : nat) :
  i <> j -> occursCI (marker j) (marker i) = false.
Proof.
  intros Hij. unfold marker. rewrite sentinel_units.
  change (occursCI (markerOf (decimal j)) (markerOf (decimal i)) = false).
  destruct (decimal_cons j) as [a [dj [Ej [Ha Hdj]]]].
  destruct (decimal_cons i) as [d [di [Ei [Hd Hdi]]]].
  assert (Hneq : decimal j <> decimal i)
    by (intros E; apply decimal_inj in E; congruence).
  rewrite Ej, Ei in *. unfold markerOf at 2. now apply marker_marker.
Qed.

Lemma startsWithCI_refl (v r : jsstring) : startsWithCI v (v ++ r) = true.
Proof. induction v; simpl; auto. now rewrite N.eqb_refl. Qed.

Lemma equalCI_refl (v : jsstring) : equalCI v v = true.
Proof.
  unfold equalCI. rewrite Nat.eqb_refl. simpl.
  rewrite <- (app_nil_r v) at 2. apply startsWithCI_refl.
Qed.

Lemma marker_apart_any (i j : nat) : apart (marker j) (marker i).
Proof.
  destruct (Nat.eq_dec i j) as [->|H].
  - left. apply equalCI_refl.
  - right. now apply marker_apart.
Qed.

(** A text without the sentinel holds no marker. *)
Lemma sentinel_apart (j : nat) (w : jsstring) :
  occursCI sentinel w = false -> occursCI (marker j) w = false.
Proof. unfold marker. apply occursCI_prefix. Qed.

(* ================================================================== *)
(** * [restorePlaceholders] on the marked text *)

Lemma clean_plain (segs : list (jsstring * jsstring)) (tail : jsstring) :
  occursCI sentinel (plain segs tail) = false -> clean segs tail.
Proof.
  unfold clean. induction segs as [|[g p] segs IH]; simpl; intros H.
  - split; auto.
  - assert (Hg : occursCI sentinel g = false).
    { apply (@occursCI_factor sentinel [] g (p ++ plain segs tail)).
      exact H. }
    assert (Hp : occursCI sentinel p = false)
      by (apply (@occursCI_factor sentinel g p (plain segs tail)); exact H).
    assert (Hrest : occursCI sentinel (plain segs tail) = false).
    { apply (@occursCI_factor sentinel (g ++ p) (plain segs tail) []).
      rewrite app_nil_r, <- app_assoc. exact H. }
    destruct (IH Hrest) as [Hsegs Htail]. split; auto.
Qed.

Lemma segmented_solid (segs : list (jsstring * jsstring)) (tail : jsstring) :
  segmented segs tail ->
  Forall (fun gp => solid (snd gp) = true /\ snd gp <> []) segs.
Proof.
  induction segs as [|[g p] segs IH]; simpl; intros H; constructor.
  - destruct H as [_ [Hp _]]. simpl. exact (@match_solid _ _ _ Hp).
  - apply IH. tauto.
Qed.

Section Pieces.
Variable segs0 : list (jsstring * jsstring).
Variable tail : jsstring.

Lemma words_mixed (j : nat) (segs : list (jsstring * jsstring)) :
  Forall (fun gp => solid (snd gp) = true /\ snd gp <> []) segs ->
  forall i, words (mixed j i segs tail) = mixedWords j i segs tail.
Proof.
  induction segs as [|[g p] segs IH]; intros Hs i; auto.
  apply Forall_cons_iff in Hs as [[Hp Hne] Hs]. simpl in Hp, Hne.
  cbn [mixed mixedWords]. unfold padded at 1. simpl app.
  rewrite words_split by reflexivity. f_equal.
  rewrite <- app_assoc. simpl app.
  rewrite words_word.
  - f_equal. rewrite words_space by reflexivity. auto.
  - destruct (i <? j)%nat; auto using marker_solid.
  - destruct (i <? j)%nat; auto using marker_nonempty.
  - reflexivity.
Qed.

Lemma words_clean (j : nat) (g : jsstring) :
  occursCI sentinel g = false ->
  Forall (fun w => occursCI (marker j) w = false) (words g).
Proof.
  intros Hg. apply Forall_forall. intros w Hin.
  destruct (words_In _ _ Hin) as [a [r ->]].
  apply sentinel_apart. exact (@occursCI_factor _ _ _ _ Hg).
Qed.

Lemma mixedWords_apart (j : nat) (segs : list (jsstring * jsstring)) :
  clean segs tail ->
  forall i, Forall (apart (marker j)) (mixedWords j i segs tail).
Proof.
  unfold clean. intros [Hsegs Htail].
  induction Hsegs as [|[g p] segs [Hg Hp] Hsegs IH]; intros i.
  - simpl. eapply Forall_impl; [|exact (@words_clean j _ Htail)].
    intros w Hw. now right.
  - cbn [mixedWords]. apply Forall_app. split.
    + eapply Forall_impl; [|exact (@words_clean j _ Hg)].
      intros w Hw. now right.
    + constructor; auto.
      destruct (i <? j)%nat.
      * right. now apply sentinel_apart.
      * apply marker_apart_any.
Qed.

Lemma map_substitute_clean (j : nat) (p g : jsstring) :
  occursCI sentinel g = false ->
  map (substitute (marker j) p) (words g) = words g.
Proof.
  intros Hg. pose proof (@words_clean j _ Hg) as H.
  induction H as [|w ws Hw _ IH]; simpl; auto.
  now rewrite IH, substitute_other.
Qed.

Lemma mixedWords_step (j : nat) (p : jsstring)
  (segs : list (jsstring * jsstring)) :
  clean segs tail ->
  forall i,
    (forall k gp, nth_error segs k = Some gp -> (i + k)%nat = j ->
                  snd gp = p) ->
    map (substitute (marker j) p) (mixedWords j i segs tail)
    = mixedWords (S j) i segs tail.
Proof.
  unfold clean. intros [Hsegs Htail].
  induction Hsegs as [|[g q] segs [Hg Hq] Hsegs IH]; intros i Hat.
  - simpl. now apply map_substitute_clean.
  - cbn [mixedWords]. rewrite map_app. cbn [map].
    rewrite map_substitute_clean by auto. f_equal.
    simpl in Hg, Hq. rewrite IH.
    + f_equal.
      destruct (Nat.ltb_spec i j) as [Hlt|Hge].
      * replace (i <? S j)%nat with true
          by (symmetry; apply Nat.ltb_lt; lia).
        apply substitute_other. now apply sentinel_apart.
      * destruct (Nat.eq_dec i j) as [->|Hne].
        -- replace (j <? S j)%nat with true
             by (symmetry; apply Nat.ltb_lt; lia).
           rewrite substitute_equal by apply equalCI_refl.
           symmetry. apply (Hat 0%nat (g, q)); auto.
        -- replace (i <? S j)%nat with false
             by (symmetry; apply Nat.ltb_ge; lia).
           apply substitute_other. apply marker_apart. lia.
    + intros k gp Hk E. apply (Hat (S k) gp); auto. lia.
Qed.

Lemma mixedWords_marker (j : nat) (segs : list (jsstring * jsstring)) :
  forall i, (i <= j)%nat -> (j < i + List.length segs)%nat ->
  In (marker j) (mixedWords j i segs tail).
Proof.
  induction segs as [|[g p] segs IH]; intros i Hi Hj; simpl in *; [lia|].
  apply in_or_app. right.
  destruct (Nat.eq_dec i j) as [->|Hne].
  - rewrite Nat.ltb_irrefl. now left.
  - right. apply IH; lia.
Qed.

Hypothesis Hclean : clean segs0 tail.
Hypothesis Hsolid :
  Forall (fun gp => solid (snd gp) = true /\ snd gp <> []) segs0.

Lemma restoreOne_words (j : nat) (g p t : jsstring) :
  nth_error segs0 j = Some (g, p) ->
  words t = mixedWords j 0 segs0 tail ->
  words (restoreOne t (marker j, p)) = mixedWords (S j) 0 segs0 tail.
Proof.
  intros Hj Ht.
  assert (Hlen : (j < List.length segs0)%nat)
    by (apply nth_error_Some; congruence).
  assert (Hp : solid p = true /\ p <> []).
  { rewrite Forall_forall in Hsolid.
    apply (Hsolid (g, p)). eapply nth_error_In; eauto. }
  assert (Htest : testPadded (marker j) t = true).
  { apply (@testPadded_word (marker j) t (marker j)).
    - apply marker_solid.
    - apply marker_nonempty.
    - rewrite Ht. apply mixedWords_marker; lia.
    - apply equalCI_refl. }
  unfold restoreOne, markerVariations. cbn [find]. rewrite Htest.
  rewrite replacePadded_words.
  - rewrite Ht. apply mixedWords_step; auto.
    intros k gp Hk E. simpl in E. subst k. rewrite Hj in Hk.
    now injection Hk as <-.
  - apply marker_solid.
  - apply marker_nonempty.
  - tauto.
  - tauto.
  - rewrite Ht. now apply mixedWords_apart.
Qed.

Lemma restore_fold (rest : list (jsstring * jsstring)) :
  forall (done : list (jsstring * jsstring)) (t : jsstring),
    segs0 = done ++ rest ->
    words t = mixedWords (List.length done) 0 segs0 tail ->
    words (fold_left restoreOne (entries (List.length done) rest) t)
    = mixedWords (List.length segs0) 0 segs0 tail.
Proof.
  induction rest as [|[g p] rest IH]; intros done t E Ht.
  - simpl. rewrite Ht, E, app_nil_r. reflexivity.
  - cbn [entries fold_left].
    replace (S (List.length done)) with (List.length (done ++ [(g, p)]))
      by (rewrite length_app; simpl; lia).
    apply IH.
    + rewrite <- app_assoc. exact E.
    + rewrite length_app. simpl List.length.
      replace (List.length done + 1)%nat with (S (List.length done)) by lia.
      apply (@restoreOne_words (List.length done) g p t); auto.
      rewrite E, nth_error_app2, Nat.sub_diag by lia. reflexivity.
Qed.

End Pieces.

(* ================================================================== *)
(** * Placeholders that stand between white space *)

Lemma endSpace_snoc (b : bool) (g : jsstring) (c : N) :
  endSpace b (g ++ [c]) = isSpace c.
Proof. unfold endSpace. now rewrite fold_left_app. Qed.

Lemma endSpace_cases (b : bool) (g : jsstring) :
  endSpace b g = true ->
  (g = [] /\ b = true)
  \/ exists g' c, g = g' ++ [c] /\ isSpace c = true.
Proof.
  induction g as [|c g' _] using rev_ind; intros H.
  - left. auto.
  - right. rewrite endSpace_snoc in H. eauto.
Qed.

Lemma setOff_skip (b : bool) (x r : jsstring) :
  setOff b (List.length x) (x ++ r) = setOff (endSpace b x) 0 r.
Proof.
  revert b. induction x as [|c x IH]; intros b; [reflexivity|].
  simpl. apply IH.
Qed.

Lemma setOff_unmatched (b : bool) (g rest : jsstring) :
  Unmatched g rest ->
  setOff b 0 (g ++ rest) = setOff (endSpace b g) 0 rest.
Proof.
  revert b. induction g as [|c g IH]; intros b H; [reflexivity|].
  apply Unmatched_inv in H as [Hc H]. simpl app.
  cbn [setOff]. rewrite Hc. now rewrite IH.
Qed.

Lemma setOff_match (b : bool) (p r : jsstring) :
  matchPlaceholder (p ++ r) = Some (p, r) ->
  setOff b 0 (p ++ r)
  = b && headSpace r && setOff (endSpace false (tl p)) 0 r.
Proof.
  intros H. destruct (@match_solid _ _ _ H) as [_ Hp].
  destruct p as [|c p]; [congruence|]. simpl app in *.
  cbn [setOff]. rewrite H.
  replace (List.length (c :: p) - 1)%nat with (List.length p)
    by (simpl; lia).
  now rewrite setOff_skip.
Qed.

Lemma setOff_headSpace (b : bool) (r : jsstring) :
  headSpace r = true -> setOff b 0 r = setOff true 0 r.
Proof.
  destruct r as [|d r]; [reflexivity|]. simpl headSpace. intros Hd.
  cbn [setOff].
  replace (matchPlaceholder (d :: r)) with (@None (jsstring * jsstring));
    [reflexivity|].
  symmetry. destruct (matchPlaceholder (d :: r)) eqn:E; auto.
  assert (Hb : d = lbrace) by (apply (@match_head d r); congruence).
  subst d. discriminate.
Qed.

Lemma setOff_delimited (segs : list (jsstring * jsstring)) (tail : jsstring) :
  segmented segs tail ->
  forall b, setOff b 0 (plain segs tail) = true -> delimited b segs tail.
Proof.
  induction segs as [|[g p] segs IH]; simpl; auto.
  intros [Hg [Hp Hseg]] b H.
  rewrite setOff_unmatched, setOff_match in H by auto.
  apply andb_true_iff in H as [H Hrest].
  apply andb_true_iff in H as [Hend Hhead].
  repeat split; auto.
  apply IH; auto.
  rewrite setOff_headSpace in Hrest by auto.
  now rewrite setOff_headSpace by auto.
Qed.

Lemma words_delimited (j : nat) (segs : list (jsstring * jsstring))
  (tail : jsstring) :
  Forall (fun gp => solid (snd gp) = true /\ snd gp <> []) segs ->
  forall b i, (i + List.length segs <= j)%nat ->
  delimited b segs tail ->
  mixedWords j i segs tail = words (plain segs tail).
Proof.
  induction segs as [|[g p] segs IH]; intros Hs b i Hi Hd; auto.
  apply Forall_cons_iff in Hs as [[Hp Hne] Hs]. simpl in Hp, Hne.
  destruct Hd as [Hend [Hhead Hd]]. simpl in Hi.
  cbn [mixedWords plain].
  replace (i <? j)%nat with true by (symmetry; apply Nat.ltb_lt; lia).
  rewrite (IH Hs false (S i)) by (auto; lia).
  destruct (endSpace_cases _ _ Hend) as [[-> _]|[g' [c [-> Hc]]]].
  - simpl. now rewrite words_word.
  - rewrite <- app_assoc. simpl app.
    rewrite !words_split by auto. rewrite app_nil_r.
    now rewrite words_word.
Qed.

(** Setting off placeholders that stand between white space changes no
    word of the text. *)
Lemma padPlaceholders_setOff (s : jsstring) :
  setOff true 0 s = true ->
  normalizeWhitespace (padPlaceholders 0 s) = normalizeWhitespace s.
Proof.
  intros H. destruct (segments_exist s) as [segs [tail [-> Hseg]]].
  pose proof (@segmented_solid _ _ Hseg) as Hsolid.
  rewrite !normalizeWhitespace_words. f_equal.
  rewrite (@padPlaceholders_plain (List.length segs) _ _ Hseg 0%nat)
    by (simpl; lia).
  rewrite (@words_mixed tail (List.length segs) segs Hsolid 0%nat).
  apply (@words_delimited _ _ _ Hsolid true); [simpl; lia|].
  now apply setOff_delimited.
Qed.

(* ================================================================== *)
(** * The placeholder round trip *)

(** C5, as the code has it. For every text [s] that holds at least one
    placeholder and in which the sentinel XPLACEHOLDERX does not occur in
    any letter case, [restorePlaceholders] applied to the marked text and
    the marker map that [extractPlaceholders] gives for [s] returns [s]
    with every placeholder set off by a space on either side and then
    white space normalized: runs of white space collapsed to one space,
    white space at both ends removed. Where every placeholder of [s]
    already stands between white space or at an end of the text, that is
    [s] with white space normalized. *)
Theorem restore_extract_padded :
  forall s : jsstring,
    matchAll 0 s <> [] ->
    occursCI sentinel s = false ->
    restorePlaceholders (fst (extractPlaceholders s))
      (snd (extractPlaceholders s))
    = normalizeWhitespace (padPlaceholders 0 s)
    /\ (setOff true 0 s = true ->
        restorePlaceholders (fst (extractPlaceholders s))
          (snd (extractPlaceholders s))
        = normalizeWhitespace s).
Proof.
  intros s Hsome Hclean.
  assert (Hpadded :
            restorePlaceholders (fst (extractPlaceholders s))
              (snd (extractPlaceholders s))
            = normalizeWhitespace (padPlaceholders 0 s)).
  { destruct (segments_exist s) as [segs [tail [-> Hseg]]].
    rewrite (@matchAll_plain _ _ Hseg) in Hsome.
    rewrite (@extractPlaceholders_plain _ _ Hseg). cbn [fst snd].
    pose proof (@segmented_solid _ _ Hseg) as Hsolid.
    apply clean_plain in Hclean.
    unfold restorePlaceholders.
    destruct (entries 0 segs) as [|e es] eqn:E.
    { destruct segs as [|[g p] segs]; [now contradiction Hsome|].
      discriminate. }
    rewrite <- E. rewrite !normalizeWhitespace_words. f_equal.
    rewrite (@padPlaceholders_plain (List.length segs) _ _ Hseg 0%nat)
      by (simpl; lia).
    rewrite (@words_mixed tail (List.length segs) segs Hsolid 0%nat).
    apply (@restore_fold segs tail Hclean Hsolid segs [] _ eq_refl).
    simpl List.length. now apply words_mixed. }
  split; [exact Hpadded|].
  intros Hoff. rewrite Hpadded. now apply padPlaceholders_setOff.
Qed.

Lemma restore_extract_padded_witness :
  restorePlaceholders
    (fst (extractPlaceholders (str "Merhaba {{name}}, {count}  yeni mesaj")))
    (snd (extractPlaceholders (str "Merhaba {{name}}, {count}  yeni mesaj")))
  = normalizeWhitespace
      (padPlaceholders 0 (str "Merhaba {{name}}, {count}  yeni mesaj"))
  /\ restorePlaceholders
       (fst (extractPlaceholders (str " {count}  yeni  {{what}} ")))
       (snd (extractPlaceholders (str " {count}  yeni  {{what}} ")))
     = normalizeWhitespace (str " {count}  yeni  {{what}} ").
Proof.
  split.
  - apply restore_extract_padded.
    + vm_compute. discriminate.
    + vm_compute. reflexivity.
  - apply restore_extract_padded.
    + vm_compute. discriminate.
    + vm_compute. reflexivity.
    + vm_compute. reflexivity.
Defined.

(** The claim C5 as the specification words it fails on a placeholder that
    touches its neighbours: the text holds one placeholder and no white
    space, and the round trip sets the placeholder off by spaces. *)
Lemma restore_extract_sets_off_placeholder :
  matchAll 0 (str "a{b}c") = [str "{b}"]
  /\ extractPlaceholders (str "a{b}c")
     = (str "a XPLACEHOLDERX0XPLACEHOLDERX c",
        [(str "XPLACEHOLDERX0XPLACEHOLDERX", str "{b}")])
  /\ restorePlaceholders (fst (extractPlaceholders (str "a{b}c")))
       (snd (extractPlaceholders (str "a{b}c")))
     = str "a {b} c"
  /\ normalizeWhitespace (str "a{b}c") = str "a{b}c"
  /\ restorePlaceholders (fst (extractPlaceholders (str "a{b}c")))
       (snd (extractPlaceholders (str "a{b}c")))
     <> normalizeWhitespace (str "a{b}c").
Proof.
  repeat split; try (vm_compute; reflexivity).
  vm_compute. discriminate.
Qed.

(** The text of the witness comes back with its comma moved away from the
    placeholder, as the amended statement says. *)
Example restore_extract_sample :
  restorePlaceholders
    (fst (extractPlaceholders (str "Merhaba {{name}}, {count}  yeni mesaj")))
    (snd (extractPlaceholders (str "Merhaba {{name}}, {count}  yeni mesaj")))
  = str "Merhaba {{name}} , {count} yeni mesaj".
Proof. vm_compute. reflexivity. Qed.

(** Without the condition on the sentinel the amended statement fails: a
    marker written in the text is replaced by the placeholder as well. *)
Example restore_extract_sentinel_in_text :
  restorePlaceholders
    (fst (extractPlaceholders (str "xplaceholderx0xplaceholderx {a}")))
    (snd (extractPlaceholders (str "xplaceholderx0xplaceholderx {a}")))
  = str "{a} {a}".
Proof. vm_compute. reflexivity. Qed.

(** A text whose placeholders stand between white space comes back with
    its white space normalized and nothing else changed. *)
Example restore_extract_set_off :
  restorePlaceholders
    (fst (extractPlaceholders (str " {count}  yeni  {{what}} ")))
    (snd (extractPlaceholders (str " {count}  yeni  {{what}} ")))
  = str "{count} yeni {{what}}".
Proof. vm_compute. reflexivity. Qed.

Lemma matchPlaceholder_braces (s m r : jsstring) :
  matchPlaceholder s = Some (m, r) -> In lbrace s /\ In rbrace s.
Proof.
  intros H. apply matchPlaceholder_Some in H as [-> [second [name [_ Hm]]]].
  assert (Ht : In lbrace (token second name)
               /\ In rbrace (token second name)).
  { unfold token. split; [now left|]. right.
    apply in_or_app. right. apply in_or_app. right. now left. }
  destruct Ht as [Hl Hr].
  split; apply in_or_app; left; destruct Hm as [->| ->]; auto;
    apply in_or_app; now left.
Qed.

Lemma matchAll_braces (s : jsstring) :
  ~ In lbrace s \/ ~ In rbrace s -> forall skip, matchAll skip s = [].
Proof.
  induction s as [|c s IH]; intros H skip; [reflexivity|].
  assert (Hs : ~ In lbrace s \/ ~ In rbrace s).
  { destruct H as [H|H]; [left|right]; intros Hin; apply H; now right. }
  cbn [matchAll]. destruct skip as [|n]; [|now apply IH].
  destruct (matchPlaceholder (c :: s)) as [[m r]|] eqn:E; [|now apply IH].
  apply matchPlaceholder_braces in E. tauto.
Qed.

(** X3. A text that holds no opening brace, or no closing brace, holds no
    placeholder: [extractPlaceholders] returns it as it is with an empty
    map, and with that map [restorePlaceholders] returns every translated
    text as it is. *)
Theorem restore_extract_no_placeholder :
  forall s translated : jsstring,
    ~ In lbrace s \/ ~ In rbrace s ->
    extractPlaceholders s = (s, [])
    /\ restorePlaceholders translated (snd (extractPlaceholders s))
       = translated.
Proof.
  intros s translated H. unfold extractPlaceholders.
  rewrite (@matchAll_braces s H 0). auto.
Qed.

Lemma restore_extract_no_placeholder_witness :
  extractPlaceholders (str "100% {hazir") = (str "100% {hazir", [])
  /\ restorePlaceholders (str "100% {ready")
       (snd (extractPlaceholders (str "100% {hazir")))
     = str "100% {ready".
Proof.
  apply restore_extract_no_placeholder. right. vm_compute.
  intros H. repeat (destruct H as [H|H]; [discriminate H|]). exact H.
Defined.

(* ================================================================== *)
(** * What [extractPlaceholders] records and what it leaves *)

Lemma entries_values (i : nat) (segs : list (jsstring * jsstring)) :
  map snd (entries i segs) = map snd segs.
Proof.
  revert i. induction segs as [|[g p] segs IH]; intros i; simpl; auto.
  now rewrite IH.
Qed.

Lemma entries_keys (i : nat) (segs : list (jsstring * jsstring)) :
  map fst (entries i segs) = map marker (seq i (List.length segs)).
Proof.
  revert i. induction segs as [|[g p] segs IH]; intros i; simpl; auto.
  now rewrite IH.
Qed.

Lemma markers_NoDup (i n : nat) : NoDup (map marker (seq i n)).
Proof.
  revert i. induction n as [|n IH]; intros i; simpl; constructor; auto.
  rewrite in_map_iff. intros [k [E Hk]]. apply marker_inj in E.
  apply in_seq in Hk. lia.
Qed.

(** X14. The marker map of a text holds its placeholders, every
    occurrence of one, in the order of the text, each under a marker of its
    own: the markers are numbered from 0 in that order. *)
Theorem extractPlaceholders_records :
  forall s : jsstring,
    map snd (snd (extractPlaceholders s)) = matchAll 0 s
    /\ map fst (snd (extractPlaceholders s))
       = map marker (seq 0 (List.length (matchAll 0 s)))
    /\ NoDup (map fst (snd (extractPlaceholders s))).
Proof.
  intros s. destruct (segments_exist s) as [segs [tail [-> Hseg]]].
  rewrite (@extractPlaceholders_plain _ _ Hseg). cbn [snd].
  rewrite (@matchAll_plain _ _ Hseg), entries_values, entries_keys.
  rewrite length_map. repeat split. apply markers_NoDup.
Qed.

Lemma mixed_unmatched (segs : list (jsstring * jsstring)) (tail : jsstring) :
  segmented segs tail ->
  forall (a : jsstring) (i : nat),
    Unmatched a (plain segs tail) ->
    Unmatched (a ++ mixed 0 i segs tail) [].
Proof.
  induction segs as [|[g p] segs IH]; intros Hseg a i Ha.
  - simpl in *. apply Unmatched_app; auto. now rewrite app_nil_r.
  - destruct Hseg as [Hg [Hp Hseg]]. rewrite mixed_markers_step.
    replace (a ++ g ++ padded (marker i) ++ mixed 0 (S i) segs tail)
      with ((a ++ g ++ padded (marker i)) ++ mixed 0 (S i) segs tail)
      by (now rewrite <- !app_assoc).
    apply IH; auto.
    replace (a ++ g ++ padded (marker i))
      with ((a ++ g) ++ padded (marker i)) by (now rewrite <- !app_assoc).
    apply Unmatched_app.
    + unfold padded. simpl app.
      apply (@Unmatched_space _ (p ++ plain segs tail)); auto.
      apply Unmatched_app; auto.
    + apply Unmatched_braceless, padded_marker_braceless.
Qed.

Lemma mixedWords_markers (segs : list (jsstring * jsstring))
  (tail : jsstring) (k : nat) :
  forall i, (i <= k)%nat -> (k < i + List.length segs)%nat ->
  In (marker k) (mixedWords 0 i segs tail).
Proof.
  induction segs as [|[g p] segs IH]; intros i Hi Hk; simpl in *; [lia|].
  apply in_or_app. right.
  destruct (Nat.eq_dec i k) as [->|Hne].
  - now left.
  - right. apply IH; lia.
Qed.

(** X15. The marked text holds no placeholder any more, and each marker
    stands in it as a word of its own, between white space. *)
Theorem marked_text_without_placeholders :
  forall s : jsstring,
    matchAll 0 (fst (extractPlaceholders s)) = []
    /\ forall i, (i < List.length (matchAll 0 s))%nat ->
                 In (marker i) (words (fst (extractPlaceholders s))).
Proof.
  intros s. destruct (segments_exist s) as [segs [tail [-> Hseg]]].
  rewrite (@extractPlaceholders_plain _ _ Hseg). cbn [fst].
  rewrite (@matchAll_plain _ _ Hseg), length_map. split.
  - pose proof (@mixed_unmatched segs tail Hseg [] 0
                  (Unmatched_nil _)) as H.
    simpl app in H. rewrite <- (app_nil_r (mixed 0 0 segs tail)).
    rewrite matchAll_unmatched by exact H. reflexivity.
  - intros i Hi.
    rewrite words_mixed by exact (@segmented_solid _ _ Hseg).
    apply mixedWords_markers; lia.
Qed.

(* ================================================================== *)
(** * [restorePlaceholders] on a translated text *)

Lemma upperUnit_idem (c : N) : upperUnit (upperUnit c) = upperUnit c.
Proof.
  unfold upperUnit.
  destruct ((97 <=? c)%N && (c <=? 122)%N) eqn:X; [|now rewrite X].
  replace ((97 <=? c - 32)%N && (c - 32 <=? 122)%N) with false; auto.
  symmetry. apply andb_false_iff. left. apply N.leb_gt.
  rewrite andb_true_iff, !N.leb_le in X. lia.
Qed.

Lemma startsWithCI_upper (v w : jsstring) :
  startsWithCI v (map upperUnit w) = startsWithCI v w.
Proof.
  revert w. induction v as [|a v IH]; intros [|b w]; simpl; auto.
  now rewrite upperUnit_idem, IH.
Qed.

Lemma occursCI_upper (v w : jsstring) :
  occursCI v (map upperUnit w) = occursCI v w.
Proof.
  induction w as [|b w IH].
  - reflexivity.
  - change (map upperUnit (b :: w)) with (upperUnit b :: map upperUnit w).
    rewrite !occursCI_cons, IH. f_equal.
    apply (startsWithCI_upper v (b :: w)).
Qed.

Lemma equalCI_upper (v w : jsstring) :
  equalCI v w = true -> map upperUnit v = map upperUnit w.
Proof.
  unfold equalCI. revert w.
  induction v as [|a v IH]; intros [|b w] H; simpl in *;
    try discriminate; auto.
  apply andb_true_iff in H as [Hlen H].
  apply andb_true_iff in H as [Hab H]. apply N.eqb_eq in Hab.
  rewrite Hab. f_equal. apply IH. now rewrite Hlen, H.
Qed.

(** A word that is a marker, letter case apart, holds what the marker
    holds. *)
Lemma occursCI_equal (v m w : jsstring) :
  equalCI m w = true -> occursCI v w = occursCI v m.
Proof.
  intros H. rewrite <- (occursCI_upper v w), <- (occursCI_upper v m).
  now rewrite (@equalCI_upper _ _ H).
Qed.

Lemma variant_apart (i j : nat) (w : jsstring) :
  equalCI (marker i) w = true -> i <> j -> occursCI (marker j) w = false.
Proof.
  intros H Hij. rewrite (@occursCI_equal _ _ _ H). now apply marker_apart.
Qed.

Lemma variant_sentinel (i : nat) (w : jsstring) :
  equalCI (marker i) w = true -> occursCI sentinel w = true.
Proof.
  intros H. rewrite (@occursCI_equal _ _ _ H). unfold marker.
  apply occursCI_head, startsWithCI_refl.
Qed.

Lemma variant_one (i j : nat) (w : jsstring) :
  equalCI (marker i) w = true -> equalCI (marker j) w = true -> i = j.
Proof.
  intros Hi Hj. destruct (Nat.eq_dec i j) as [|Hne]; auto.
  apply equalCI_occurs in Hj.
  rewrite (@variant_apart _ _ _ Hi Hne) in Hj. discriminate.
Qed.

Lemma entries_app (i : nat) (a b : list (jsstring * jsstring)) :
  entries i (a ++ b) = entries i a ++ entries (i + List.length a) b.
Proof.
  revert i. induction a as [|[g p] a IH]; intros i; simpl.
  - now rewrite Nat.add_0_r.
  - rewrite IH. do 3 f_equal. lia.
Qed.

Lemma entries_In (segs : list (jsstring * jsstring)) :
  forall (i : nat) (mp : jsstring * jsstring),
    In mp (entries i segs) ->
    exists k g, nth_error segs k = Some (g, snd mp)
                /\ fst mp = marker (i + k).
Proof.
  induction segs as [|[g p] segs IH]; intros i mp H; simpl in H; [easy|].
  destruct H as [<-|H].
  - exists 0%nat, g. simpl. now rewrite Nat.add_0_r.
  - destruct (IH _ _ H) as [k [g' [Hk E]]]. exists (S k), g'. simpl.
    split; auto. rewrite E. f_equal. lia.
Qed.

Lemma entries_nth (segs : list (jsstring * jsstring)) :
  forall i k, (k < List.length segs)%nat ->
  exists p, In (marker (i + k), p) (entries i segs).
Proof.
  induction segs as [|[g p] segs IH]; intros i k Hk; simpl in *; [lia|].
  destruct k as [|k].
  - exists p. left. now rewrite Nat.add_0_r.
  - destruct (IH (S i) k ltac:(lia)) as [q Hq]. exists q. right.
    now replace (i + S k)%nat with (S i + k)%nat by lia.
Qed.

Lemma find_none_all (A : Type) (f : A -> bool) (l : list A) :
  (forall x, In x l -> f x = false) -> find f l = None.
Proof.
  induction l as [|a l IH]; intros H; simpl; auto.
  rewrite (H a) by now left. apply IH. intros x Hx. apply H. now right.
Qed.

Lemma restoreWord_snoc (m : object jsstring) (v p w : jsstring) :
  restoreWord (m ++ [(v, p)]) w
  = match find (fun mp => equalCI (fst mp) w) m with
    | Some mp => snd mp
    | None => substitute v p w
    end.
Proof.
  unfold restoreWord, substitute.
  induction m as [|[v' p'] m IH]; simpl.
  - now destruct (equalCI v w).
  - destruct (equalCI v' w); auto.
Qed.

Section Translated.
Variable segs0 : list (jsstring * jsstring).
Variable tail : jsstring.
Variable t : jsstring.

Hypothesis Hclean : clean segs0 tail.
Hypothesis Hsolid :
  Forall (fun gp => solid (snd gp) = true /\ snd gp <> []) segs0.

Lemma entry_clean (i : nat) (done : list (jsstring * jsstring))
  (mp : jsstring * jsstring) :
  (exists rest, segs0 = done ++ rest) ->
  In mp (entries i done) -> occursCI sentinel (snd mp) = false.
Proof.
  intros [rest E] Hin. destruct (entries_In _ _ _ Hin) as [k [g [Hk _]]].
  destruct Hclean as [Hsegs _]. rewrite Forall_forall in Hsegs.
  apply (Hsegs (g, snd mp)). rewrite E. apply in_or_app. left.
  eapply nth_error_In; eauto.
Qed.

Lemma restoreWord_step (done : list (jsstring * jsstring))
  (g p : jsstring) (rest : list (jsstring * jsstring)) (w : jsstring) :
  segs0 = done ++ (g, p) :: rest ->
  substitute (marker (List.length done)) p (restoreWord (entries 0 done) w)
  = restoreWord (entries 0 (done ++ [(g, p)])) w.
Proof.
  intros E. rewrite entries_app. cbn [entries]. rewrite restoreWord_snoc.
  unfold restoreWord.
  destruct (find (fun mp => equalCI (fst mp) w) (entries 0 done))
    as [mp|] eqn:Ef; auto.
  apply find_some in Ef as [Hin _].
  apply substitute_other, sentinel_apart.
  apply (@entry_clean 0 done mp); eauto.
Qed.

Hypothesis Hwords :
  Forall (fun w => (exists i, (i < List.length segs0)%nat
                              /\ equalCI (marker i) w = true)
                   \/ occursCI sentinel w = false) (words t).
Hypothesis Hkept :
  forall i, (i < List.length segs0)%nat ->
  exists w, In w (words t) /\ equalCI (marker i) w = true.

Lemma restored_apart (done : list (jsstring * jsstring)) :
  (exists rest, segs0 = done ++ rest) ->
  Forall (apart (marker (List.length done)))
    (map (restoreWord (entries 0 done)) (words t)).
Proof.
  intros Hdone. apply Forall_map. eapply Forall_impl; [|exact Hwords].
  intros w Hw. cbv beta in Hw. unfold restoreWord.
  destruct (find (fun mp => equalCI (fst mp) w) (entries 0 done))
    as [mp|] eqn:Ef.
  - apply find_some in Ef as [Hin _]. right. apply sentinel_apart.
    apply (@entry_clean 0 done mp); auto.
  - destruct Hw as [[i [_ Hi]]|Hw].
    + destruct (Nat.eq_dec i (List.length done)) as [<-|Hne].
      * now left.
      * right. now apply (@variant_apart i).
    + right. now apply sentinel_apart.
Qed.

Lemma variant_untouched (done : list (jsstring * jsstring)) (w : jsstring) :
  equalCI (marker (List.length done)) w = true ->
  restoreWord (entries 0 done) w = w.
Proof.
  intros Hw. unfold restoreWord. rewrite find_none_all; auto.
  intros mp Hin. destruct (entries_In _ _ _ Hin) as [k [g [Hk E]]].
  assert (Hlt : (k < List.length done)%nat)
    by (apply nth_error_Some; congruence).
  rewrite E. simpl.
  destruct (equalCI (marker k) w) eqn:Ek; auto.
  pose proof (@variant_one _ _ _ Ek Hw). lia.
Qed.

Lemma restoreOne_translated (done : list (jsstring * jsstring))
  (g p : jsstring) (rest : list (jsstring * jsstring)) (cur : jsstring) :
  segs0 = done ++ (g, p) :: rest ->
  words cur = map (restoreWord (entries 0 done)) (words t) ->
  words (restoreOne cur (marker (List.length done), p))
  = map (restoreWord (entries 0 (done ++ [(g, p)]))) (words t).
Proof.
  intros E Hcur.
  assert (Hlen : (List.length done < List.length segs0)%nat)
    by (rewrite E, length_app; simpl; lia).
  assert (Hp : solid p = true /\ p <> []).
  { rewrite Forall_forall in Hsolid. apply (Hsolid (g, p)).
    rewrite E. apply in_or_app. right. now left. }
  destruct (Hkept Hlen) as [w [Hin Hw]].
  assert (Htest : testPadded (marker (List.length done)) cur = true).
  { apply (@testPadded_word (marker (List.length done)) cur w); auto.
    - apply marker_solid.
    - apply marker_nonempty.
    - rewrite Hcur. rewrite <- (@variant_untouched done w Hw).
      now apply in_map. }
  unfold restoreOne, markerVariations. cbn [find]. rewrite Htest.
  rewrite replacePadded_words.
  - rewrite Hcur, map_map. apply map_ext. intros x.
    now apply (@restoreWord_step done g p rest).
  - apply marker_solid.
  - apply marker_nonempty.
  - tauto.
  - tauto.
  - rewrite Hcur. apply restored_apart. eauto.
Qed.

Lemma restore_translated (rest : list (jsstring * jsstring)) :
  forall (done : list (jsstring * jsstring)) (cur : jsstring),
    segs0 = done ++ rest ->
    words cur = map (restoreWord (entries 0 done)) (words t) ->
    words (fold_left restoreOne (entries (List.length done) rest) cur)
    = map (restoreWord (entries 0 segs0)) (words t).
Proof.
  induction rest as [|[g p] rest IH]; intros done cur E Hcur.
  - simpl. rewrite Hcur, E, app_nil_r. reflexivity.
  - cbn [entries fold_left].
    replace (S (List.length done)) with (List.length (done ++ [(g, p)]))
      by (rewrite length_app; simpl; lia).
    apply IH.
    + rewrite <- app_assoc. exact E.
    + now apply (@restoreOne_translated done g p rest).
Qed.

End Translated.

(** X17. The text a service returns for a marked text is restored word by
    word. Let [s] be a text that holds a placeholder and not the sentinel
    XPLACEHOLDERX, and [t] a text in which every marker of [s] is a word,
    in any letter case and any order, and whose other words do not hold
    the sentinel. Then [restorePlaceholders], given [t] and the marker map
    of [s], returns the words of [t] joined by single spaces, each marker
    replaced by its placeholder, whatever its letter case. *)
Theorem restorePlaceholders_translated :
  forall s t : jsstring,
    matchAll 0 s <> [] ->
    occursCI sentinel s = false ->
    forallb (markerOrClean (snd (extractPlaceholders s))) (words t) = true ->
    markersKept (snd (extractPlaceholders s)) (words t) = true ->
    restorePlaceholders t (snd (extractPlaceholders s))
    = unwords (map (restoreWord (snd (extractPlaceholders s))) (words t)).
Proof.
  intros s t Hsome Hclean Hwords Hkept.
  destruct (segments_exist s) as [segs [tail [-> Hseg]]].
  rewrite (@matchAll_plain _ _ Hseg) in Hsome.
  rewrite (@extractPlaceholders_plain _ _ Hseg) in *. cbn [snd] in *.
  pose proof (@segmented_solid _ _ Hseg) as Hsolid.
  apply clean_plain in Hclean.
  unfold restorePlaceholders.
  destruct (entries 0 segs) as [|e es] eqn:E.
  { destruct segs as [|[g p] segs]; [now contradiction Hsome|].
    discriminate. }
  rewrite <- E in *. rewrite normalizeWhitespace_words. f_equal.
  assert (HW : Forall (fun w => (exists i, (i < List.length segs)%nat
                                           /\ equalCI (marker i) w = true)
                                \/ occursCI sentinel w = false) (words t)).
  { rewrite forallb_forall in Hwords. apply Forall_forall. intros w Hw.
    specialize (Hwords w Hw). unfold markerOrClean in Hwords.
    apply orb_true_iff in Hwords as [H|H].
    + left. apply existsb_exists in H as [mp [Hin Heq]].
      destruct (entries_In _ _ _ Hin) as [k [g [Hk Em]]].
      exists k. split.
      * apply nth_error_Some. congruence.
      * simpl in Em. now rewrite <- Em.
    + right. now apply negb_true_iff. }
  assert (HK : forall i, (i < List.length segs)%nat ->
               exists w, In w (words t) /\ equalCI (marker i) w = true).
  { intros i Hi. unfold markersKept in Hkept.
    rewrite forallb_forall in Hkept.
    destruct (@entries_nth segs 0 i Hi) as [p Hp].
    specialize (Hkept _ Hp). simpl in Hkept.
    apply existsb_exists in Hkept as [w [Hin Hw]]. eauto. }
  assert (H0 : words t = map (restoreWord (entries 0 [])) (words t))
    by (symmetry; apply map_id).
  exact (@restore_translated segs tail t Hclean Hsolid HW HK segs [] t
           eq_refl H0).
Qed.

Lemma restorePlaceholders_translated_witness :
  restorePlaceholders
    (str "xplaceholderx1xplaceholderx  new messages, XPLACEHOLDERX0XPLACEHOLDERX !")
    (snd (extractPlaceholders (str "Merhaba {{name}}, {count} yeni mesaj")))
  = str "{count} new messages, {{name}} !".
Proof.
  apply (restorePlaceholders_translated
           (str "Merhaba {{name}}, {count} yeni mesaj")
           (str "xplaceholderx1xplaceholderx  new messages, XPLACEHOLDERX0XPLACEHOLDERX !")).
  - vm_compute. discriminate.
  - vm_compute. reflexivity.
  - vm_compute. reflexivity.
  - vm_compute. reflexivity.
Defined.

(* ================================================================== *)
(** * The two services *)

Lemma preprocess_marked (texts : list (jsstring * jsstring)) :
  fst (preprocessTextsForTranslation texts) = markedTexts texts.
Proof. reflexivity. Qed.

Lemma combine_map_r (A B C : Type) (f : B -> C) (l : list A) (l' : list B) :
  combine l (map f l') = map (fun x => (fst x, f (snd x))) (combine l l').
Proof.
  revert l'. induction l as [|a l IH]; intros [|b l']; simpl; auto.
  now rewrite IH.
Qed.

Lemma combine_diag (A B C : Type) (f : A -> B) (g : A -> C) (l : list A) :
  combine (map f l) (map g l) = map (fun x => (f x, g x)) l.
Proof. induction l as [|a l IH]; simpl; auto. now rewrite IH. Qed.

Lemma postProcess_finished (texts : list (jsstring * jsstring))
  (answer out : list jsstring) :
  postProcess texts (snd (preprocessTextsForTranslation texts)) answer
  = Some out ->
  (List.length answer <= List.length texts)%nat
  /\ out = map (fun x => finished (snd (snd x)) (fst x))
             (combine answer texts).
Proof.
  unfold postProcess.
  destruct (Nat.leb_spec (List.length answer) (List.length texts));
    [|discriminate].
  intros Hout. injection Hout as <-. split; auto.
  unfold preprocessTextsForTranslation. cbn [snd].
  rewrite <- (map_id texts) at 1. rewrite combine_diag, combine_map_r.
  rewrite map_map. apply map_ext. intros [a [key text]]. reflexivity.
Qed.

Lemma deepLTargetOf_eq (targetLang : jsstring) :
  (if JsString.eqb (toLowerCase targetLang) (str "pt") then str "PT-PT"
   else if JsString.eqb (toLowerCase targetLang) (str "en") then str "EN-US"
        else toUpperCase targetLang)
  = deepLTargetOf targetLang.
Proof. reflexivity. Qed.

Lemma translateWithDeepL_finished (w : World)
  (texts : list (jsstring * jsstring)) (lang base : jsstring)
  (out : list jsstring) :
  translateWithDeepL w texts lang base = Some out ->
  exists answer,
    DEEPL_API_KEY w = true
    /\ deeplPost w (toUpperCase base) (deepLTargetOf lang) (markedTexts texts)
       = Some answer
    /\ (List.length answer <= List.length texts)%nat
    /\ out = map (fun x => finished (snd (snd x)) (fst x))
               (combine answer texts).
Proof.
  unfold translateWithDeepL.
  destruct (DEEPL_API_KEY w); [|discriminate]. simpl negb. cbv iota.
  rewrite (surjective_pairing (preprocessTextsForTranslation texts)).
  rewrite preprocess_marked, deepLTargetOf_eq.
  destruct (deeplPost w (toUpperCase base) (deepLTargetOf lang)
              (markedTexts texts)) as [answer|]; [|discriminate].
  intros H. apply postProcess_finished in H. exists answer. tauto.
Qed.

Lemma translateWithGoogle_finished (w : World)
  (texts : list (jsstring * jsstring)) (lang base : jsstring)
  (out : list jsstring) :
  translateWithGoogle w texts lang base = Some out ->
  exists answer,
    GOOGLE_API_KEY w = true
    /\ googlePost w base lang (markedTexts texts) = Some answer
    /\ (List.length answer <= List.length texts)%nat
    /\ out = map (fun x => finished (snd (snd x)) (fst x))
               (combine answer texts).
Proof.
  unfold translateWithGoogle.
  destruct (GOOGLE_API_KEY w); [|discriminate]. simpl negb. cbv iota.
  rewrite (surjective_pairing (preprocessTextsForTranslation texts)).
  rewrite preprocess_marked.
  destruct (googlePost w base lang (markedTexts texts)) as [answer|];
    [|discriminate].
  intros H. apply postProcess_finished in H. exists answer. tauto.
Qed.

(** X18. The texts [run] gets for a batch are the answer of one service
    to the marked texts of the batch, each with its placeholders restored
    and its punctuation normalized against its own source text, in the
    order of the batch. The answer is that of the primary service, asked
    with a key, for a language of its list, with the source code in upper
    case and the target code in upper case (EN-US for en, PT-PT for pt);
    or that of the other service, asked with a key and the codes as they
    are. An answer is never longer than the batch. *)
Theorem requested_texts_finished :
  forall (w : World) (texts : list (jsstring * jsstring))
         (lang BASE_LANGUAGE : jsstring) (translatedTexts : list jsstring),
    requestTranslations w texts lang BASE_LANGUAGE = Some translatedTexts ->
    exists answer,
      ((deeplSupports (toLowerCase lang) = true
        /\ DEEPL_API_KEY w = true
        /\ deeplPost w (toUpperCase BASE_LANGUAGE) (deepLTargetOf lang)
             (markedTexts texts) = Some answer)
       \/ (GOOGLE_API_KEY w = true
           /\ googlePost w BASE_LANGUAGE lang (markedTexts texts)
              = Some answer))
      /\ (List.length answer <= List.length texts)%nat
      /\ translatedTexts
         = map (fun x => finished (snd (snd x)) (fst x))
             (combine answer texts).
Proof.
  intros w texts lang base out. unfold requestTranslations.
  destruct (deeplSupports (toLowerCase lang)) eqn:Es.
  - destruct (translateWithDeepL w texts lang base) as [ts|] eqn:Ed.
    + intros H. injection H as ->.
      destruct (translateWithDeepL_finished _ _ _ _ Ed)
        as [answer [Hk [Ha [Hlen Hout]]]].
      exists answer. split; auto.
    + destruct (GOOGLE_API_KEY w); [|discriminate]. intros H.
      destruct (translateWithGoogle_finished _ _ _ _ H)
        as [answer [Hk [Ha [Hlen Hout]]]].
      exists answer. split; auto.
  - destruct (GOOGLE_API_KEY w); [|discriminate]. intros H.
    destruct (translateWithGoogle_finished _ _ _ _ H)
      as [answer [Hk [Ha [Hlen Hout]]]].
    exists answer. split; auto.
Qed.

Lemma requested_texts_finished_witness :
  exists answer,
    ((deeplSupports (toLowerCase Sample.en) = true
      /\ DEEPL_API_KEY Sample.fallback = true
      /\ deeplPost Sample.fallback (toUpperCase Sample.tr)
           (deepLTargetOf Sample.en) (markedTexts Sample.batch)
         = Some answer)
     \/ (GOOGLE_API_KEY Sample.fallback = true
         /\ googlePost Sample.fallback Sample.tr Sample.en
              (markedTexts Sample.batch) = Some answer))
    /\ (List.length answer <= List.length Sample.batch)%nat
    /\ [str "Merhaba {{name}} , {count} yeni mesaj"; str "Tamam"]
       = map (fun x => finished (snd (snd x)) (fst x))
           (combine answer Sample.batch).
Proof.
  apply (requested_texts_finished Sample.fallback Sample.batch
           Sample.en Sample.tr).
  vm_compute. reflexivity.
Defined.

(** X19. The primary service plays no part for a language outside its
    list, nor without its key: whatever it would answer, the batch gets
    the same texts. *)
Theorem primary_service_left_out :
  forall (w : World) (texts : list (jsstring * jsstring))
         (lang BASE_LANGUAGE : jsstring)
         (post : jsstring -> jsstring -> list jsstring
                 -> option (list jsstring)),
    deeplSupports (toLowerCase lang) = false \/ DEEPL_API_KEY w = false ->
    requestTranslations (withDeepL w post) texts lang BASE_LANGUAGE
    = requestTranslations w texts lang BASE_LANGUAGE.
Proof.
  intros w texts lang base post H. unfold requestTranslations.
  change (GOOGLE_API_KEY (withDeepL w post)) with (GOOGLE_API_KEY w).
  change (translateWithGoogle (withDeepL w post) texts lang base)
    with (translateWithGoogle w texts lang base).
  destruct (deeplSupports (toLowerCase lang)) eqn:Es; auto.
  destruct H as [H|H]; [discriminate|].
  unfold translateWithDeepL.
  change (DEEPL_API_KEY (withDeepL w post)) with (DEEPL_API_KEY w).
  now rewrite H.
Qed.

Lemma primary_service_left_out_witness :
  requestTranslations
    (withDeepL Sample.fallback (fun _ _ texts => Some texts))
    Sample.batch (str "az") Sample.tr
  = requestTranslations Sample.fallback Sample.batch (str "az") Sample.tr.
Proof.
  apply (primary_service_left_out Sample.fallback Sample.batch
           (str "az") Sample.tr).
  left. vm_compute. reflexivity.
Defined.

(** X20. The fallback service plays no part without its key, nor when
    the primary service answers for a language of its list: whatever the
    fallback would answer, the batch gets the same texts. *)
Theorem fallback_service_left_out :
  forall (w : World) (texts : list (jsstring * jsstring))
         (lang BASE_LANGUAGE : jsstring)
         (post : jsstring -> jsstring -> list jsstring
                 -> option (list jsstring)),
    GOOGLE_API_KEY w = false
    \/ (deeplSupports (toLowerCase lang) = true
        /\ translateWithDeepL w texts lang BASE_LANGUAGE <> None) ->
    requestTranslations (withGoogle w post) texts lang BASE_LANGUAGE
    = requestTranslations w texts lang BASE_LANGUAGE.
Proof.
  intros w texts lang base post H. unfold requestTranslations.
  change (GOOGLE_API_KEY (withGoogle w post)) with (GOOGLE_API_KEY w).
  change (translateWithDeepL (withGoogle w post) texts lang base)
    with (translateWithDeepL w texts lang base).
  destruct H as [H|[Hs Hd]].
  - now rewrite H.
  - rewrite Hs.
    destruct (translateWithDeepL w texts lang base); [reflexivity|].
    congruence.
Qed.

Lemma fallback_service_left_out_witness :
  requestTranslations
    (withGoogle (Sample.online None None) (fun _ _ texts => Some texts))
    Sample.batch Sample.en Sample.tr
  = requestTranslations (Sample.online None None) Sample.batch
      Sample.en Sample.tr.
Proof.
  apply (fallback_service_left_out (Sample.online None None) Sample.batch
           Sample.en Sample.tr).
  right. split.
  - vm_compute. reflexivity.
  - vm_compute. discriminate.
Defined.
